(** * lug: the parsing virtual machine of [lug/lug.hpp], embedded in Rocq

    The development follows the layout of the header: instruction words
    and [instruction::decode], the [semantics] response log, the
    [parser] object with its five stacks, the body of [parser::parse]
    one opcode at a time, and finally the encoder, the combinators of
    [namespace language] and the linker [start].

    Conventions.
    - [std::size_t] values are integers of [Z] kept in [0, 2^64) with the
      wrap-around written out ([wadd], [wsub]); [std::ptrdiff_t] values
      (program counters and offsets) are plain [Z].
    - A [std::vector] used as a stack is a [list] whose head is
      [back()]: [push_back] is cons, [pop_back] is tail.
    - Undefined behaviour of the C++ source (indexing past the end of a
      vector, [back()] of an empty vector, reading the inactive member
      of the [instruction] union) is the outcome [Undefined]. *)

From Stdlib Require Import ZArith List Bool Lia.
From Stdlib Require Import Strings.String Strings.Byte.
Import ListNotations.
Open Scope Z_scope.


(** ** Machine integers *)

Definition size_max : Z := 2 ^ 64 - 1.
Definition wrap (z : Z) : Z := z mod 2 ^ 64.
Definition wadd (a b : Z) : Z := wrap (a + b).
Definition wsub (a b : Z) : Z := wrap (a - b).
Definition ushort (z : Z) : Z := z mod 2 ^ 16.
Definition uint_max : Z := 2 ^ 32 - 1.
Definition ushort_max : Z := 2 ^ 16 - 1.
Definition zlen {A} (l : list A) : Z := Z.of_nat (List.length l).

(** ** Characters and [std::string] *)

Definition bytes := list byte.
Definition lit (s : string) : bytes := list_byte_of_string s.
Definition byte_val (c : byte) : Z := Z.of_N (Byte.to_N c).

(** [utf8::is_lead] *)
Definition is_lead (c : byte) : bool :=
  negb (Z.land (byte_val c) 192 =? 128).

(** [utf8::count_runes] *)
Definition count_runes (s : bytes) : Z :=
  fold_left (fun l c => l + (if is_lead c then 1 else 0)) s 0.

(** [std::find_if(first, last, is_lead)], as the distance from [first]. *)
Fixpoint find_lead (s : bytes) : nat :=
  match s with
  | [] => 0%nat
  | c :: t => if is_lead c then 0%nat else S (find_lead t)
  end.

(** [utf8::size_of_first_rune(first, last)] on the range [s]. *)
Definition size_of_first_rune (s : bytes) : Z :=
  match s with
  | [] => 0
  | _ :: t => Z.of_nat (S (find_lead t))
  end.

(** Lexicographic comparison of [std::char_traits<char>], on unsigned
    character values, followed by the comparison of the lengths. *)
Fixpoint traits_compare (a b : bytes) : comparison :=
  match a, b with
  | [], [] => Eq
  | [], _ :: _ => Lt
  | _ :: _, [] => Gt
  | x :: a', y :: b' =>
      match Z.compare (byte_val x) (byte_val y) with
      | Eq => traits_compare a' b'
      | c => c
      end
  end.

Definition substr (s : bytes) (pos len : Z) : bytes :=
  firstn (Z.to_nat len) (skipn (Z.to_nat pos) s).

(** ** Errors *)

(** The exception classes declared at the top of the header, and the one
    standard exception that the string operations of the VM can raise. *)
Inductive lug_error : Type :=
  | program_limit_error
  | resource_limit_error
  | reenterant_parse_error
  | reenterant_read_error
  | bad_string_expression
  | bad_character_class
  | bad_grammar
  | bad_opcode.

Inductive exception : Type :=
  | lug_exn (e : lug_error)
  | std_out_of_range.

(** A computation that may raise or hit undefined behaviour. *)
Inductive res (A : Type) : Type :=
  | Ok (a : A)
  | Raise (e : exception)
  | Undef.
Arguments Ok {A} a.
Arguments Raise {A} e.
Arguments Undef {A}.

Definition bind {A B} (m : res A) (f : A -> res B) : res B :=
  match m with
  | Ok a => f a
  | Raise e => Raise e
  | Undef => Undef
  end.

Notation "x <- m ;; k" := (bind m (fun x => k))
  (at level 61, m at next level, right associativity).
Notation "' p <- m ;; k" := (bind m (fun p => k))
  (at level 61, p pattern, m at next level, right associativity).

Definition of_option {A} (o : option A) : res A :=
  match o with Some a => Ok a | None => Undef end.

(** [input_.compare(pos, len, str)]: raises [std::out_of_range] when
    [pos > size()]. *)
Definition string_compare (input : bytes) (pos len : Z) (str : bytes)
  : res comparison :=
  if zlen input <? pos then Raise std_out_of_range
  else Ok (traits_compare (substr input pos len) str).

(** ** Instructions *)

Inductive opcode : Type :=
  | opcode_match | opcode_match_any | opcode_match_class | opcode_match_range
  | opcode_choice | opcode_commit | opcode_jump | opcode_call
  | opcode_ret | opcode_fail | opcode_accept | opcode_newline
  | opcode_predicate | opcode_action | opcode_begin_capture
  | opcode_end_capture.

(** [enum class opcode : unsigned char]: the byte stored in a prefix. *)
Definition opcode_byte (o : opcode) : Z :=
  match o with
  | opcode_match => 0 | opcode_match_any => 1 | opcode_match_class => 2
  | opcode_match_range => 3 | opcode_choice => 4 | opcode_commit => 5
  | opcode_jump => 6 | opcode_call => 7 | opcode_ret => 8
  | opcode_fail => 9 | opcode_accept => 10 | opcode_newline => 11
  | opcode_predicate => 12 | opcode_action => 13
  | opcode_begin_capture => 14 | opcode_end_capture => 15
  end.

Definition opcode_of_byte (b : Z) : option opcode :=
  match b with
  | 0 => Some opcode_match | 1 => Some opcode_match_any
  | 2 => Some opcode_match_class | 3 => Some opcode_match_range
  | 4 => Some opcode_choice | 5 => Some opcode_commit
  | 6 => Some opcode_jump | 7 => Some opcode_call
  | 8 => Some opcode_ret | 9 => Some opcode_fail
  | 10 => Some opcode_accept | 11 => Some opcode_newline
  | 12 => Some opcode_predicate | 13 => Some opcode_action
  | 14 => Some opcode_begin_capture | 15 => Some opcode_end_capture
  | _ => None
  end.

(** [enum class altcode] *)
Definition altcode_none : Z := 0.
Definition accept_final : Z := 1.
Definition commit_back : Z := 1.
Definition commit_partial : Z := 2.
Definition match_class_ptype : Z := 1.
Definition match_class_gctype : Z := 2.
Definition match_class_sctype : Z := 3.

(** [enum class operands] *)
Definition operands_none : Z := 0.
Definition operands_off : Z := 64.
Definition operands_str : Z := 128.
Definition operands_altcode : Z := 63.
Definition to_operands (alt : Z) : Z := Z.land alt operands_altcode.

Record prefix : Type := mk_prefix { pf_op : Z; pf_aux : Z; pf_val : Z }.

(** [union instruction]: one 32-bit word read as a prefix, as an offset
    or as four characters of inline string data. *)
Inductive instruction : Type :=
  | I_pf (pf : prefix)
  | I_off (off : Z)
  | I_str (str : bytes).

Definition maxstrlen : Z := 256.

Definition code_at (code : list instruction) (pc : Z) : option instruction :=
  if pc <? 0 then None else nth_error code (Z.to_nat pc).

Definition read_pf (code : list instruction) (pc : Z) : res prefix :=
  match code_at code pc with
  | Some (I_pf pf) => Ok pf
  | _ => Undef
  end.

Definition read_off (code : list instruction) (pc : Z) : res Z :=
  match code_at code pc with
  | Some (I_off o) => Ok o
  | _ => Undef
  end.

(** The four characters of a string word ([std::array<char, 4>]). *)
Definition word_chars (s : bytes) : bytes :=
  firstn 4 (s ++ repeat x00 4).

(** The characters of [n] consecutive string words starting at [pc]. *)
Fixpoint read_str_words (code : list instruction) (pc : Z) (n : nat)
  : res bytes :=
  match n with
  | O => Ok []
  | S n' =>
      match code_at code pc with
      | Some (I_str s) =>
          rest <- read_str_words code (pc + 1) n' ;;
          Ok (word_chars s ++ rest)
      | _ => Undef
      end
  end.

Record decoded : Type := mk_decoded {
  d_op : Z; d_alt : Z; d_imm : Z; d_off : Z; d_str : bytes; d_pc : Z }.

(** [instruction::decode]: the prefix, the optional offset word and the
    optional inline string; [d_pc] is the program counter afterwards. *)
Definition decode (code : list instruction) (pc : Z) : res decoded :=
  pf <- read_pf code pc ;;
  let pc := pc + 1 in
  let imm := pf_val pf in
  ' (off, pc) <-
      (if negb (Z.land (pf_aux pf) operands_off =? operands_none)
       then o <- read_off code pc ;; Ok (o, pc + 1)
       else Ok (0, pc)) ;;
  if negb (Z.land (pf_aux pf) operands_str =? operands_none) then
    let nwords := Z.shiftr (Z.land imm 255 + 4) 2 in
    words <- read_str_words code pc (Z.to_nat nwords) ;;
    Ok (mk_decoded (pf_op pf) (Z.land (pf_aux pf) operands_altcode)
          (Z.shiftr imm 8 + 1) off
          (firstn (Z.to_nat (Z.land imm 255 + 1)) words)
          (pc + nwords))
  else
    Ok (mk_decoded (pf_op pf) (Z.land (pf_aux pf) operands_altcode)
          imm off [] pc).

(** [instruction::length] *)
Definition instruction_length (pf : prefix) : Z :=
  1 + (if negb (Z.land (pf_aux pf) operands_off =? operands_none) then 1 else 0)
    + (if negb (Z.land (pf_aux pf) operands_str =? operands_none)
       then Z.shiftr (Z.land (pf_val pf) 255) 2 + 1 else 0).

(** ** The semantics object *)

Record semantic_response : Type := mk_response {
  call_depth : Z; action_index : Z; capture_index : Z }.
Record syntax_position : Type := mk_position { column : Z; line : Z }.
Record syntax_range : Type := mk_range {
  range_index : Z; range_size : Z;
  range_start : syntax_position; range_end : syntax_position }.
Record syntax_view : Type := mk_view {
  view_capture : bytes;
  view_start : syntax_position; view_end : syntax_position }.

(** [class semantics].  The attribute stack holds [std::any] values,
    kept here as their byte representation. *)
Record semantics : Type := mk_semantics {
  match_ : bytes;
  prune_depth_ : Z;
  call_depth_ : Z;
  responses_ : list semantic_response;
  captures_ : list syntax_range;
  attributes_ : list bytes }.

Definition set_responses (s : semantics) (l : list semantic_response) :=
  mk_semantics (match_ s) (prune_depth_ s) (call_depth_ s) l
    (captures_ s) (attributes_ s).

(** [semantics::pop_responses_after] *)
Definition pop_responses_after (s : semantics) (n : Z) : semantics :=
  if n <? zlen (responses_ s)
  then set_responses s (firstn (Z.to_nat n) (responses_ s))
  else s.

(** [semantics::drop_responses_after]: the dropped tail and the object. *)
Definition drop_responses_after (s : semantics) (n : Z)
  : list semantic_response * semantics :=
  if n <? zlen (responses_ s)
  then (skipn (Z.to_nat n) (responses_ s),
        set_responses s (firstn (Z.to_nat n) (responses_ s)))
  else ([], s).

(** [semantics::restore_responses_after]: the new size and the object. *)
Definition restore_responses_after (s : semantics) (n : Z)
    (restore : list semantic_response) : Z * semantics :=
  let s1 := pop_responses_after s n in
  let s2 := set_responses s1 (responses_ s1 ++ restore) in
  (zlen (responses_ s2), s2).

(** [semantics::push_response] *)
Definition push_response (s : semantics) (depth action_index capture_index : Z)
  : Z * semantics :=
  let s1 := set_responses s
    (responses_ s ++ [mk_response (ushort depth) (ushort action_index)
                        capture_index]) in
  (zlen (responses_ s1), s1).

(** [semantics::push_capture_response] *)
Definition push_capture_response (s : semantics) (depth action_index : Z)
    (range : syntax_range) : Z * semantics :=
  let s1 := mk_semantics (match_ s) (prune_depth_ s) (call_depth_ s)
              (responses_ s) (captures_ s ++ [range]) (attributes_ s) in
  push_response s1 depth action_index
    ((zlen (captures_ s1) - 1) mod 2 ^ 32).

(** [semantics::clear] *)
Definition clear (s : semantics) : semantics :=
  mk_semantics [] ushort_max 0 [] (captures_ s) [].

(** [semantics::escape], for use inside callbacks. *)
Definition escape (s : semantics) : semantics :=
  mk_semantics (match_ s) (call_depth_ s) (call_depth_ s) (responses_ s)
    (captures_ s) (attributes_ s).

Definition semantic_action : Type := semantics -> semantics.
Definition semantic_capture : Type := semantics -> syntax_view -> semantics.

Definition nth_z {A} (l : list A) (i : Z) : res A :=
  if i <? 0 then Undef else of_option (nth_error l (Z.to_nat i)).

(** The body of the loop of [semantics::accept] for one response. *)
Definition dispatch (actions : list semantic_action)
    (captures : list semantic_capture) (response : semantic_response)
    (s : semantics) : res semantics :=
  if prune_depth_ s <=? call_depth response then Ok s
  else
    let s := mk_semantics (match_ s) ushort_max (call_depth response)
               (responses_ s) (captures_ s) (attributes_ s) in
    if capture_index response <? uint_max then
      cap <- nth_z (captures_ s) (capture_index response) ;;
      f <- nth_z captures (action_index response) ;;
      if zlen (match_ s) <? range_index cap then Raise std_out_of_range
      else Ok (f s (mk_view (substr (match_ s) (range_index cap)
                               (range_size cap))
                      (range_start cap) (range_end cap)))
    else
      f <- nth_z actions (action_index response) ;;
      Ok (f s).

Fixpoint dispatch_all (actions : list semantic_action)
    (captures : list semantic_capture) (rs : list semantic_response)
    (s : semantics) : res semantics :=
  match rs with
  | [] => Ok s
  | r :: rs' =>
      s' <- dispatch actions captures r s ;;
      dispatch_all actions captures rs' s'
  end.

(** [semantics::accept] *)
Definition semantics_accept (actions : list semantic_action)
    (captures : list semantic_capture) (m : bytes) (s : semantics)
  : res semantics :=
  let s := mk_semantics m (prune_depth_ s) (call_depth_ s) (responses_ s)
             (captures_ s) (attributes_ s) in
  s' <- dispatch_all actions captures (responses_ s) s ;;
  Ok (clear s').

(** ** The parser object *)

Record parser_registers : Type := mk_registers {
  ir : Z; cr : Z; lr : Z; rc : Z; pc : Z; fc : Z }.

Record subject : Type := mk_subject { s_ir : Z; s_cr : Z; s_lr : Z }.

Record lrmemo : Type := mk_lrmemo {
  sr : subject; sa : subject; rcr : Z; pcr : Z; pca : Z;
  responses : list semantic_response; prec : Z }.

Definition lrfailcode : Z := size_max.

Inductive stack_frame_type : Type :=
  | frame_backtrack | frame_call | frame_capture | frame_lrcall.

(** An element of [backtrack_stack_]: ir, cr, lr, rc, pc. *)
Record backtrack_frame : Type := mk_backtrack {
  bt_ir : Z; bt_cr : Z; bt_lr : Z; bt_rc : Z; bt_pc : Z }.

(** An input source is a stateful callback [bool(std::string&)]; it is
    kept as the list of the results of its successive calls (the text
    it produces and its return value); once the list is used up it
    produces no text and returns false. *)
Definition source : Type := list (bytes * bool).

Record parser : Type := mk_parser {
  input_ : bytes;
  registers_ : parser_registers;
  max_input_ : subject;
  parsing_ : bool;
  reading_ : bool;
  cut_deferred_ : bool;
  cut_frame_ : Z;
  sources_ : list source;
  stack_frames_ : list stack_frame_type;
  backtrack_stack_ : list backtrack_frame;
  call_stack_ : list Z;
  capture_stack_ : list subject;
  lrmemo_stack_ : list lrmemo;
  semantics_ : semantics }.

Definition set_input (p : parser) v :=
  mk_parser v (registers_ p) (max_input_ p) (parsing_ p) (reading_ p)
    (cut_deferred_ p) (cut_frame_ p) (sources_ p) (stack_frames_ p)
    (backtrack_stack_ p) (call_stack_ p) (capture_stack_ p)
    (lrmemo_stack_ p) (semantics_ p).
Definition set_registers (p : parser) v :=
  mk_parser (input_ p) v (max_input_ p) (parsing_ p) (reading_ p)
    (cut_deferred_ p) (cut_frame_ p) (sources_ p) (stack_frames_ p)
    (backtrack_stack_ p) (call_stack_ p) (capture_stack_ p)
    (lrmemo_stack_ p) (semantics_ p).
Definition set_max_input (p : parser) v :=
  mk_parser (input_ p) (registers_ p) v (parsing_ p) (reading_ p)
    (cut_deferred_ p) (cut_frame_ p) (sources_ p) (stack_frames_ p)
    (backtrack_stack_ p) (call_stack_ p) (capture_stack_ p)
    (lrmemo_stack_ p) (semantics_ p).
Definition set_parsing (p : parser) v :=
  mk_parser (input_ p) (registers_ p) (max_input_ p) v (reading_ p)
    (cut_deferred_ p) (cut_frame_ p) (sources_ p) (stack_frames_ p)
    (backtrack_stack_ p) (call_stack_ p) (capture_stack_ p)
    (lrmemo_stack_ p) (semantics_ p).
Definition set_cut_deferred (p : parser) v :=
  mk_parser (input_ p) (registers_ p) (max_input_ p) (parsing_ p) (reading_ p)
    v (cut_frame_ p) (sources_ p) (stack_frames_ p)
    (backtrack_stack_ p) (call_stack_ p) (capture_stack_ p)
    (lrmemo_stack_ p) (semantics_ p).
Definition set_cut_frame (p : parser) v :=
  mk_parser (input_ p) (registers_ p) (max_input_ p) (parsing_ p) (reading_ p)
    (cut_deferred_ p) v (sources_ p) (stack_frames_ p)
    (backtrack_stack_ p) (call_stack_ p) (capture_stack_ p)
    (lrmemo_stack_ p) (semantics_ p).
Definition set_sources (p : parser) v :=
  mk_parser (input_ p) (registers_ p) (max_input_ p) (parsing_ p) (reading_ p)
    (cut_deferred_ p) (cut_frame_ p) v (stack_frames_ p)
    (backtrack_stack_ p) (call_stack_ p) (capture_stack_ p)
    (lrmemo_stack_ p) (semantics_ p).
Definition set_stack_frames (p : parser) v :=
  mk_parser (input_ p) (registers_ p) (max_input_ p) (parsing_ p) (reading_ p)
    (cut_deferred_ p) (cut_frame_ p) (sources_ p) v
    (backtrack_stack_ p) (call_stack_ p) (capture_stack_ p)
    (lrmemo_stack_ p) (semantics_ p).
Definition set_backtrack_stack (p : parser) v :=
  mk_parser (input_ p) (registers_ p) (max_input_ p) (parsing_ p) (reading_ p)
    (cut_deferred_ p) (cut_frame_ p) (sources_ p) (stack_frames_ p)
    v (call_stack_ p) (capture_stack_ p)
    (lrmemo_stack_ p) (semantics_ p).
Definition set_call_stack (p : parser) v :=
  mk_parser (input_ p) (registers_ p) (max_input_ p) (parsing_ p) (reading_ p)
    (cut_deferred_ p) (cut_frame_ p) (sources_ p) (stack_frames_ p)
    (backtrack_stack_ p) v (capture_stack_ p)
    (lrmemo_stack_ p) (semantics_ p).
Definition set_capture_stack (p : parser) v :=
  mk_parser (input_ p) (registers_ p) (max_input_ p) (parsing_ p) (reading_ p)
    (cut_deferred_ p) (cut_frame_ p) (sources_ p) (stack_frames_ p)
    (backtrack_stack_ p) (call_stack_ p) v
    (lrmemo_stack_ p) (semantics_ p).
Definition set_lrmemo_stack (p : parser) v :=
  mk_parser (input_ p) (registers_ p) (max_input_ p) (parsing_ p) (reading_ p)
    (cut_deferred_ p) (cut_frame_ p) (sources_ p) (stack_frames_ p)
    (backtrack_stack_ p) (call_stack_ p) (capture_stack_ p)
    v (semantics_ p).
Definition set_semantics (p : parser) v :=
  mk_parser (input_ p) (registers_ p) (max_input_ p) (parsing_ p) (reading_ p)
    (cut_deferred_ p) (cut_frame_ p) (sources_ p) (stack_frames_ p)
    (backtrack_stack_ p) (call_stack_ p) (capture_stack_ p)
    (lrmemo_stack_ p) v.

Definition set_subject (r : parser_registers) (i c l : Z) :=
  mk_registers i c l (rc r) (pc r) (fc r).
Definition set_rc (r : parser_registers) v :=
  mk_registers (ir r) (cr r) (lr r) v (pc r) (fc r).
Definition set_pc (r : parser_registers) v :=
  mk_registers (ir r) (cr r) (lr r) (rc r) v (fc r).
Definition set_fc (r : parser_registers) v :=
  mk_registers (ir r) (cr r) (lr r) (rc r) (pc r) v.

(** A semantic predicate receives the parser by reference: it may read
    and change whatever the public interface reaches ([registers()],
    [enqueue], the semantics object).  Predicates, actions and sources
    are total functions here: what user code itself may throw, and a
    user callback that enters the parser again, are not part of the
    embedding; the two sentinels are, through the flags [parsing_] and
    [reading_] of the parser the machine is started on. *)
Definition semantic_predicate : Type := parser -> bool * parser.

(** [struct program] *)
Record program : Type := mk_program {
  instructions : list instruction;
  predicates : list semantic_predicate;
  actions : list semantic_action;
  captures : list semantic_capture;
  matches_eps : bool }.

(** ** The Unicode collaborators *)

(** Modelled from the spec: [lug/unicode.hpp] and [lug/utf8.hpp] are not
    among the sources.  The core consumes a [query(rune)] function
    returning category bits and a rune decoder; the record returned by
    [query] answers [any_of] for the three bit sets and [script()]. *)
Record ucd_record : Type := mk_ucd_record {
  ucd_ctype : Z; ucd_ptype : Z; ucd_gctype : Z; ucd_script : Z }.

Definition any_of (bits mask : Z) : bool := negb (Z.land bits mask =? 0).

Record unicode : Type := mk_unicode {
  decode_rune : bytes -> Z * Z;   (* the rune and the bytes it spans *)
  query : Z -> ucd_record;
  sizeof_ptype : Z;
  sizeof_gctype : Z }.

(** The integer held by the first characters of [s], least significant
    first. *)
Fixpoint le_value (s : bytes) : Z :=
  match s with
  | [] => 0
  | c :: t => byte_val c + 256 * le_value t
  end.

(** [instruction::decode_constant<Integral>] *)
Definition decode_constant (sizeof : Z) (s : bytes) : res Z :=
  if zlen s <? sizeof then Raise (lug_exn bad_opcode)
  else Ok (le_value (firstn (Z.to_nat sizeof) s)).

(** ** Reading input *)

(** One input source called until it produces text or is exhausted: the
    text, and the source if it stays on [sources_]. *)
Fixpoint call_source (s : source) : bytes * option source :=
  match s with
  | [] => ([], None)
  | (text, more) :: rest =>
      match text with
      | [] => if more then call_source rest else ([], None)
      | _ => (text, if more then Some rest else None)
      end
  end.

(** The loop of [parser::read_more] over [sources_]. *)
Fixpoint read_sources (srcs : list source) : bytes * list source :=
  match srcs with
  | [] => ([], [])
  | s :: rest =>
      match call_source s with
      | ([], _) => read_sources rest
      | (text, Some s') => (text, s' :: rest)
      | (text, None) => (text, rest)
      end
  end.

(** [parser::read_more], guarded by the [reading_] sentinel. *)
Definition read_more (p : parser) : res (bool * parser) :=
  if reading_ p then Raise (lug_exn reenterant_read_error)
  else
    let '(text, srcs) := read_sources (sources_ p) in
    Ok (negb (match text with [] => true | _ => false end),
        set_sources (set_input p (input_ p ++ text)) srcs).

Definition pending (srcs : list source) : nat :=
  fold_right (fun s n => (S (List.length s) + n)%nat) 0%nat srcs.

(** The loop of [parser::available]; every turn that goes on has taken
    at least one result from the sources, which bounds the turns. *)
Fixpoint available_loop (turns : nat) (n i : Z) (p : parser)
  : res (bool * parser) :=
  if n <=? wsub (zlen (input_ p)) i then Ok (true, p)
  else if i <? zlen (input_ p) then Ok (false, p)
  else
    ' (more, p') <- read_more p ;;
    if more then
      match turns with
      | O => Undef
      | S turns' => available_loop turns' n i p'
      end
    else Ok (false, p').

(** [parser::available(n, ir)] *)
Definition available (n i : Z) (p : parser) : res (bool * parser) :=
  available_loop (pending (sources_ p)) n i p.

(** ** Accepting and popping frames *)

Section VM.

Variable U : unicode.
Variable prog : program.

(** [parser::accept(ir, cr, lr, rc, pc)] *)
Definition parser_accept (p : parser) (r : parser_registers)
  : res (parser * parser_registers) :=
  let p := set_registers p
             (mk_registers (ir r) (cr r) (lr r) (rc r) (pc r) 0) in
  sem <- semantics_accept (actions prog) (captures prog) (input_ p)
           (semantics_ p) ;;
  let p := set_semantics p sem in
  let p := set_input p (skipn (Z.to_nat (ir r)) (input_ p)) in
  let p := set_registers p
             (mk_registers 0 (cr (registers_ p)) (lr (registers_ p)) 0
                (pc (registers_ p)) (fc (registers_ p))) in
  let p := set_max_input p
             (mk_subject 0 (s_cr (max_input_ p)) (s_lr (max_input_ p))) in
  let p := set_cut_deferred p false in
  let p := set_cut_frame p (zlen (stack_frames_ p)) in
  Ok (p, mk_registers (ir (registers_ p)) (cr (registers_ p))
           (lr (registers_ p)) (rc (registers_ p)) (pc (registers_ p))
           (fc r)).

Definition is_nil {A} (l : list A) : bool :=
  match l with [] => true | _ => false end.

(** [pop_back] on the typed stack that goes with a frame type. *)
Definition pop_typed (k : stack_frame_type) (p : parser) : res parser :=
  match k with
  | frame_backtrack =>
      match backtrack_stack_ p with
      | [] => Undef | _ :: t => Ok (set_backtrack_stack p t) end
  | frame_call =>
      match call_stack_ p with
      | [] => Undef | _ :: t => Ok (set_call_stack p t) end
  | frame_capture =>
      match capture_stack_ p with
      | [] => Undef | _ :: t => Ok (set_capture_stack p t) end
  | frame_lrcall =>
      match lrmemo_stack_ p with
      | [] => Undef | _ :: t => Ok (set_lrmemo_stack p t) end
  end.

(** [parser::pop_stack_frame(stack, args...)].  The deferred accept is
    compiled in only for the capture and the left-recursion stacks. *)
Definition pop_stack_frame (k : stack_frame_type) (p : parser)
    (r : parser_registers) : res (parser * parser_registers) :=
  p <- pop_typed k p ;;
  match stack_frames_ p with
  | [] => Undef
  | _ :: frames =>
      let p := set_stack_frames p frames in
      let p := set_cut_frame p (Z.min (cut_frame_ p) (zlen frames)) in
      match k with
      | frame_capture | frame_lrcall =>
          if cut_deferred_ p && is_nil (capture_stack_ p)
             && is_nil (lrmemo_stack_ p)
          then parser_accept p r
          else Ok (p, r)
      | _ => Ok (p, r)
      end
  end.

(** ** The failure handler *)

(** One turn of the [for] loop under the label [failure], on the frame
    type [f] found on top of [stack_frames_]; the [--fc] of the loop
    header is included. *)
Definition unwind_frame (f : stack_frame_type) (p : parser)
    (r : parser_registers) : res (parser * parser_registers) :=
  ' (p, r) <-
    match f with
    | frame_backtrack =>
        match backtrack_stack_ p with
        | [] => Undef
        | b :: _ =>
            pop_stack_frame frame_backtrack p
              (mk_registers (bt_ir b) (bt_cr b) (bt_lr b) (bt_rc b)
                 (bt_pc b) (fc r))
        end
    | frame_call =>
        ' (p, r) <- pop_stack_frame frame_call p r ;;
        Ok (p, set_fc r (wadd (fc r) 1))
    | frame_capture =>
        ' (p, r) <- pop_stack_frame frame_capture p r ;;
        Ok (p, set_fc r (wadd (fc r) 1))
    | frame_lrcall =>
        match lrmemo_stack_ p with
        | [] => Undef
        | memo :: _ =>
            if negb (s_ir (sa memo) =? lrfailcode) then
              let '(n, sem) := restore_responses_after (semantics_ p)
                                 (rcr memo) (responses memo) in
              pop_stack_frame frame_lrcall (set_semantics p sem)
                (mk_registers (s_ir (sa memo)) (s_cr (sa memo))
                   (s_lr (sa memo)) n (pcr memo) (fc r))
            else
              pop_stack_frame frame_lrcall p (set_fc r (wadd (fc r) 1))
        end
    end ;;
  Ok (p, set_fc r (wsub (fc r) 1)).

(** The [for (++fc; fc > 0; --fc)] loop after the increment.  Every
    turn pops one frame, so [turns] starts at the height of
    [stack_frames_].  The boolean is [done]. *)
Fixpoint unwind (turns : nat) (p : parser) (r : parser_registers)
  : res (bool * parser * parser_registers) :=
  if fc r <=? 0 then Ok (false, p, r)
  else if zlen (stack_frames_ p) <=? cut_frame_ p then Ok (true, p, r)
  else
    match stack_frames_ p, turns with
    | f :: _, S turns' =>
        ' (p, r) <- unwind_frame f p r ;;
        unwind turns' p r
    | _, _ => Undef
    end.

(** The code under the label [failure]; the boolean is [done]. *)
Definition failure (p : parser) (r : parser_registers)
  : res (bool * parser * parser_registers) :=
  let p := if s_ir (max_input_ p) <? ir r
           then set_max_input p (mk_subject (ir r) (cr r) (lr r))
           else p in
  ' (done, p, r) <- unwind (List.length (stack_frames_ p)) p
                      (set_fc r (wadd (fc r) 1)) ;;
  Ok (done, set_semantics p (pop_responses_after (semantics_ p) (rc r)), r).

(** ** The instructions *)

Inductive status : Type :=
  | Running
  | Done (result : bool).

Definition vm_state : Type := (status * parser * parser_registers)%type.

(** [goto failure] *)
Definition goto_failure (p : parser) (r : parser_registers) : res vm_state :=
  ' (done, p, r) <- failure p r ;;
  Ok (if done : bool then Done false else Running, p, r).

Definition is_eq (c : comparison) : bool :=
  match c with Eq => true | _ => false end.
Definition is_lt (c : comparison) : bool :=
  match c with Lt => true | _ => false end.
Definition is_gt (c : comparison) : bool :=
  match c with Gt => true | _ => false end.

(** [input_.cbegin() + ir .. input_.cend()] *)
Definition input_from (p : parser) (i : Z) : res bytes :=
  if zlen (input_ p) <? i then Undef
  else Ok (skipn (Z.to_nat i) (input_ p)).

Definition exec_match (d : decoded) (p : parser) (r : parser_registers)
  : res vm_state :=
  if negb (is_nil (d_str d)) then
    ' (av, p) <- available (zlen (d_str d)) (ir r) p ;;
    if negb av then goto_failure p r
    else
      c <- string_compare (input_ p) (ir r) (zlen (d_str d)) (d_str d) ;;
      if negb (is_eq c) then goto_failure p r
      else Ok (Running, p,
               set_subject r (wadd (ir r) (zlen (d_str d)))
                 (wadd (cr r) (d_imm d)) (lr r))
  else Ok (Running, p, r).

Definition exec_match_any (d : decoded) (p : parser) (r : parser_registers)
  : res vm_state :=
  ' (av, p) <- available 1 (ir r) p ;;
  if negb av then goto_failure p r
  else
    rest <- input_from p (ir r) ;;
    Ok (Running, p,
        set_subject r (wadd (ir r) (size_of_first_rune rest))
          (wadd (cr r) 1) (lr r)).

(** The [switch (alt)] of [match_class]: the value of [match]. *)
Definition class_query (d : decoded) (record : ucd_record) : res bool :=
  if d_alt d =? match_class_ptype then
    c <- decode_constant (sizeof_ptype U) (d_str d) ;;
    Ok (any_of (ucd_ptype record) c)
  else if d_alt d =? match_class_gctype then
    c <- decode_constant (sizeof_gctype U) (d_str d) ;;
    Ok (any_of (ucd_gctype record) c)
  else if d_alt d =? match_class_sctype then
    Ok (ucd_script record =? d_imm d)
  else
    Ok (any_of (ucd_ctype record) (d_imm d)).

Definition exec_match_class (d : decoded) (p : parser) (r : parser_registers)
  : res vm_state :=
  ' (av, p) <- available 1 (ir r) p ;;
  if negb av then goto_failure p r
  else
    first <- input_from p (ir r) ;;
    let '(rune, next) := decode_rune U first in
    let record := query U rune in
    matched <- class_query d record ;;
    if matched : bool then goto_failure p r
    else Ok (Running, p,
             set_subject r (wadd (ir r) next) (wadd (cr r) 1) (lr r)).

Definition exec_match_range (d : decoded) (p : parser) (r : parser_registers)
  : res vm_state :=
  let first := firstn (Z.to_nat (d_imm d)) (d_str d) in
  if zlen (d_str d) <? d_imm d then Raise std_out_of_range
  else
    let last := skipn (Z.to_nat (d_imm d)) (d_str d) in
    ' (av, p) <- available (Z.min (zlen first) (zlen last)) (ir r) p ;;
    if negb av then goto_failure p r
    else
      rest <- input_from p (ir r) ;;
      let sz := size_of_first_rune rest in
      c1 <- string_compare (input_ p) (ir r) sz first ;;
      if is_lt c1 then goto_failure p r
      else
        c2 <- string_compare (input_ p) (ir r) sz last ;;
        if is_gt c2 then goto_failure p r
        else Ok (Running, p,
                 set_subject r (wadd (ir r) sz) (wadd (cr r) 1) (lr r)).

Definition exec_choice (d : decoded) (p : parser) (r : parser_registers)
  : res vm_state :=
  let p := set_stack_frames p (frame_backtrack :: stack_frames_ p) in
  let p := set_backtrack_stack p
             (mk_backtrack (wsub (ir r) (Z.land (d_imm d) 255))
                (wsub (cr r) (Z.shiftr (d_imm d) 8)) (lr r) (rc r)
                (pc r + d_off d) :: backtrack_stack_ p) in
  Ok (Running, p, r).

Definition exec_jump (d : decoded) (p : parser) (r : parser_registers)
  : res vm_state :=
  Ok (Running, p, set_pc r (pc r + d_off d)).

Definition exec_commit (d : decoded) (p : parser) (r : parser_registers)
  : res vm_state :=
  match stack_frames_ p with
  | frame_backtrack :: _ =>
      ' (p, r) <-
        (if d_alt d =? commit_partial then
           match backtrack_stack_ p with
           | [] => Undef
           | b :: t =>
               Ok (set_backtrack_stack p
                     (mk_backtrack (ir r) (cr r) (lr r) (rc r) (bt_pc b) :: t),
                   r)
           end
         else if d_alt d =? commit_back then
           match backtrack_stack_ p with
           | [] => Undef
           | b :: _ =>
               pop_stack_frame frame_backtrack p
                 (set_subject r (bt_ir b) (bt_cr b) (bt_lr b))
           end
         else pop_stack_frame frame_backtrack p r) ;;
      exec_jump d p r
  | _ => goto_failure p r
  end.

(** The [for] loop of [call] over [lrmemo_stack_], newest memo first. *)
Fixpoint find_memo (memos : list lrmemo) (i target : Z) : option lrmemo :=
  match memos with
  | [] => None
  | memo :: older =>
      if s_ir (sr memo) >=? i then
        if (s_ir (sr memo) =? i) && (pca memo =? target) then Some memo
        else find_memo older i target
      else None
  end.

Definition exec_call (d : decoded) (p : parser) (r : parser_registers)
  : res vm_state :=
  if negb (d_imm d =? 0) then
    match find_memo (lrmemo_stack_ p) (ir r) (pc r + d_off d) with
    | Some memo =>
        if (s_ir (sa memo) =? lrfailcode) || (d_imm d <? prec memo)
        then goto_failure p r
        else
          let '(n, sem) := restore_responses_after (semantics_ p) (rc r)
                             (responses memo) in
          Ok (Running, set_semantics p sem,
              mk_registers (s_ir (sa memo)) (s_cr (sa memo)) (s_lr (sa memo))
                n (pc r) (fc r))
    | None =>
        let p := set_stack_frames p (frame_lrcall :: stack_frames_ p) in
        let p := set_lrmemo_stack p
                   (mk_lrmemo (mk_subject (ir r) (cr r) (lr r))
                      (mk_subject lrfailcode 0 0) (rc r) (pc r)
                      (pc r + d_off d) [] (d_imm d) :: lrmemo_stack_ p) in
        Ok (Running, p, set_pc r (pc r + d_off d))
    end
  else
    let p := set_stack_frames p (frame_call :: stack_frames_ p) in
    let p := set_call_stack p (pc r :: call_stack_ p) in
    Ok (Running, p, set_pc r (pc r + d_off d)).

Definition exec_ret (d : decoded) (p : parser) (r : parser_registers)
  : res vm_state :=
  match stack_frames_ p with
  | frame_call :: _ =>
      match call_stack_ p with
      | [] => Undef
      | ra :: _ =>
          ' (p, r) <- pop_stack_frame frame_call p (set_pc r ra) ;;
          Ok (Running, p, r)
      end
  | frame_lrcall :: _ =>
      match lrmemo_stack_ p with
      | [] => Undef
      | memo :: older =>
          if (s_ir (sa memo) =? lrfailcode) || (s_ir (sa memo) <? ir r) then
            let '(dropped, sem) :=
              drop_responses_after (semantics_ p) (rcr memo) in
            let memo' := mk_lrmemo (sr memo)
                           (mk_subject (ir r) (cr r) (lr r)) (rcr memo)
                           (pcr memo) (pca memo) dropped (prec memo) in
            Ok (Running,
                set_semantics (set_lrmemo_stack p (memo' :: older)) sem,
                mk_registers (s_ir (sr memo)) (s_cr (sr memo))
                  (s_lr (sr memo)) (rcr memo) (pca memo) (fc r))
          else
            let '(n, sem) := restore_responses_after (semantics_ p)
                               (rcr memo) (responses memo) in
            ' (p, r) <- pop_stack_frame frame_lrcall (set_semantics p sem)
                          (mk_registers (s_ir (sa memo)) (s_cr (sa memo))
                             (s_lr (sa memo)) n (pcr memo) (fc r)) ;;
            Ok (Running, p, r)
      end
  | _ => goto_failure p r
  end.

Definition exec_fail (d : decoded) (p : parser) (r : parser_registers)
  : res vm_state :=
  goto_failure p (set_fc r (d_imm d)).

Definition exec_accept (d : decoded) (p : parser) (r : parser_registers)
  : res vm_state :=
  let deferred := negb (is_nil (capture_stack_ p))
                  || negb (is_nil (lrmemo_stack_ p)) in
  let p := set_cut_deferred p deferred in
  if negb deferred then
    ' (p, r) <- parser_accept p r ;;
    if d_alt d =? accept_final then Ok (Done true, p, r)
    else Ok (Running, p, r)
  else Ok (Running, p, r).

Definition exec_newline (d : decoded) (p : parser) (r : parser_registers)
  : res vm_state :=
  Ok (Running, p, set_subject r (ir r) 1 (wadd (lr r) 1)).

Definition exec_predicate (d : decoded) (p : parser) (r : parser_registers)
  : res vm_state :=
  let p := set_registers p
             (mk_registers (ir r) (cr r) (lr r) (rc r) (pc r) 0) in
  let p := if s_ir (max_input_ p) <? ir r
           then set_max_input p (mk_subject (ir r) (cr r) (lr r))
           else p in
  f <- nth_z (predicates prog) (d_imm d) ;;
  let '(accepted, p) := f p in
  let r := registers_ p in
  let p := set_semantics p (pop_responses_after (semantics_ p) (rc r)) in
  if negb accepted then goto_failure p r
  else Ok (Running, p, r).

Definition exec_action (d : decoded) (p : parser) (r : parser_registers)
  : res vm_state :=
  let '(n, sem) := push_response (semantics_ p)
                     (wadd (zlen (call_stack_ p)) (zlen (lrmemo_stack_ p)))
                     (d_imm d) uint_max in
  Ok (Running, set_semantics p sem, set_rc r n).

Definition exec_begin_capture (d : decoded) (p : parser)
    (r : parser_registers) : res vm_state :=
  let p := set_stack_frames p (frame_capture :: stack_frames_ p) in
  let p := set_capture_stack p
             (mk_subject (ir r) (cr r) (lr r) :: capture_stack_ p) in
  Ok (Running, p, r).

Definition exec_end_capture (d : decoded) (p : parser)
    (r : parser_registers) : res vm_state :=
  match stack_frames_ p with
  | frame_capture :: _ =>
      match capture_stack_ p with
      | [] => Undef
      | s0 :: _ =>
          let ir1 := ir r in
          let cr1 := cr r in
          let lr1 := lr r in
          ' (p, r) <- pop_stack_frame frame_capture p r ;;
          if ir1 <? s_ir s0 then goto_failure p r
          else
            let '(n, sem) :=
              push_capture_response (semantics_ p)
                (wadd (zlen (call_stack_ p)) (zlen (lrmemo_stack_ p)))
                (d_imm d)
                (mk_range (s_ir s0) (ir1 - s_ir s0)
                   (mk_position (s_cr s0) (s_lr s0))
                   (mk_position cr1 lr1)) in
            Ok (Running, set_semantics p sem, set_rc r n)
      end
  | _ => goto_failure p r
  end.

(** The [switch] of [parser::parse] on the decoded opcode. *)
Definition exec (d : decoded) (p : parser) (r : parser_registers)
  : res vm_state :=
  match opcode_of_byte (d_op d) with
  | Some opcode_match => exec_match d p r
  | Some opcode_match_any => exec_match_any d p r
  | Some opcode_match_class => exec_match_class d p r
  | Some opcode_match_range => exec_match_range d p r
  | Some opcode_choice => exec_choice d p r
  | Some opcode_commit => exec_commit d p r
  | Some opcode_jump => exec_jump d p r
  | Some opcode_call => exec_call d p r
  | Some opcode_ret => exec_ret d p r
  | Some opcode_fail => exec_fail d p r
  | Some opcode_accept => exec_accept d p r
  | Some opcode_newline => exec_newline d p r
  | Some opcode_predicate => exec_predicate d p r
  | Some opcode_action => exec_action d p r
  | Some opcode_begin_capture => exec_begin_capture d p r
  | Some opcode_end_capture => exec_end_capture d p r
  | None => Raise (lug_exn bad_opcode)
  end.

(** One turn of the [while (!done)] loop: decode, then execute. *)
Definition step (p : parser) (r : parser_registers) : res vm_state :=
  d <- decode (instructions prog) (pc r) ;;
  exec d p (set_pc r (d_pc d)).

(** ** [parser::parse] *)

Inductive outcome : Type :=
  | Returns (result : bool) (p : parser) (r : parser_registers)
  | Throws (e : exception)
  | Undefined
  | Unfinished (p : parser) (r : parser_registers).

(** The [while (!done)] loop, for at most [fuel] instructions. *)
Fixpoint run (fuel : nat) (p : parser) (r : parser_registers) : outcome :=
  match fuel with
  | O => Unfinished p r
  | S fuel' =>
      match step p r with
      | Ok (Running, p', r') => run fuel' p' r'
      | Ok (Done result, p', r') => Returns result (set_parsing p' false) r'
      | Raise e => Throws e
      | Undef => Undefined
      end
  end.

(** The statements of [parser::parse] before the loop. *)
Definition parse_entry (p : parser) : res (parser * parser_registers) :=
  if parsing_ p then Raise (lug_exn reenterant_parse_error)
  else
    let p := set_parsing p true in
    if is_nil (instructions prog) then Raise (lug_exn bad_grammar)
    else
      let r := mk_registers (ir (registers_ p)) (cr (registers_ p))
                 (lr (registers_ p)) 0 0 0 in
      let p := set_cut_frame (set_cut_deferred p false) 0 in
      Ok (set_semantics p (clear (semantics_ p)), r).

(** [parser::parse], the loop cut off after [fuel] instructions. *)
Definition parse (fuel : nat) (p : parser) : outcome :=
  match parse_entry p with
  | Ok (p, r) => run fuel p r
  | Raise e => Throws e
  | Undef => Undefined
  end.

End VM.

(** [parser::parser(g, s)] followed by [enqueue(first, last)] *)
Definition new_semantics : semantics := mk_semantics [] ushort_max 0 [] [] [].

Definition new_parser (text : bytes) : parser :=
  mk_parser text (mk_registers 0 1 1 0 0 0) (mk_subject 0 1 1)
    false false false 0 [] [] [] [] [] [] new_semantics.

(** [lug::parse(sv, grmr)], the loop cut off after [fuel] instructions. *)
Definition lug_parse (U : unicode) (fuel : nat) (text : bytes) (g : program)
  : outcome :=
  parse U g fuel (new_parser text).

(** [parser::max_input_position] *)
Definition max_input_position (p : parser) : syntax_position :=
  mk_position (s_cr (max_input_ p)) (s_lr (max_input_ p)).

(** ** The encoder *)

(** An entry of [rule::callees_].  Rules live in a table and a
    [const rule*] is an index into it; the program of a callee is the
    program of that rule.  (Calls to a bare [program] or to a [grammar],
    whose rule pointer is null, are left out.) *)
Record callee : Type := mk_callee {
  callee_rule : nat; callee_offset : Z; callee_left_most : bool }.

(** [class rule] *)
Record rule : Type := mk_rule {
  program_ : program;
  callees_ : list callee }.

Definition empty_program : program := mk_program [] [] [] [] true.
Definition empty_rule : rule := mk_rule empty_program [].

Inductive encoder_kind : Type :=
  | instruction_length_evaluator
  | instruction_encoder
  | program_encoder
  | rule_encoder.

(** [class encoder] with the state of its four subclasses: [length_] is
    used by the length evaluator, [enc_program] by the others (the
    instruction encoder only by its [instructions]), [enc_callees] by
    the rule encoder.  The head of [zero_length_] is its [back()]. *)
Record encoder : Type := mk_encoder {
  kind : encoder_kind;
  zero_length_ : list bool;
  length_ : Z;
  enc_program : program;
  enc_callees : list callee }.

Definition ptrdiff_max : Z := 2 ^ 63 - 1.
Definition int_min : Z := - 2 ^ 31.
Definition int_max : Z := 2 ^ 31 - 1.

(** [detail::checked_add], [max] being the largest value of the type
    of the sum *)
Definition checked_add (e : lug_error) (max x y : Z) : res Z :=
  if max - x <? y then Raise (lug_exn e) else Ok (x + y).

(** [detail::assure_in_range] *)
Definition assure_in_range (e : lug_error) (x lo hi : Z) : res unit :=
  if (lo <=? x) && (x <=? hi) then Ok tt else Raise (lug_exn e).

Definition set_instructions (p : program) (l : list instruction) : program :=
  mk_program l (predicates p) (actions p) (captures p) (matches_eps p).

(** The loop of [program::concatenate] over the instructions of the
    source; [fuel] bounds the number of instructions. *)
Fixpoint concatenate_loop (fuel : nat) (npred nact ncap : Z)
    (src acc : list instruction) : res (list instruction) :=
  match src, fuel with
  | [], _ => Ok acc
  | I_pf pf :: _, S fuel' =>
      let valoffset :=
        match opcode_of_byte (pf_op pf) with
        | Some opcode_predicate => npred
        | Some opcode_action => nact
        | Some opcode_end_capture => ncap
        | _ => 0
        end in
      pf' <-
        (if negb (valoffset =? 0) then
           let val := pf_val pf + valoffset in
           _ <- assure_in_range resource_limit_error val valoffset
                  ushort_max ;;
           Ok (mk_prefix (pf_op pf) (pf_aux pf) val)
         else Ok pf) ;;
      let n := Z.to_nat (instruction_length pf) in
      if (List.length src <? n)%nat then Undef
      else
        concatenate_loop fuel' npred nact ncap (skipn n src)
          (acc ++ I_pf pf' :: skipn 1 (firstn n src))
  | _, _ => Undef
  end.

(** [program::concatenate] *)
Definition concatenate (dst src : program) : res program :=
  _ <- checked_add program_limit_error size_max (zlen (instructions dst))
         (zlen (instructions src)) ;;
  code <- concatenate_loop (List.length (instructions src))
            (zlen (predicates dst)) (zlen (actions dst))
            (zlen (captures dst)) (instructions src) (instructions dst) ;;
  Ok (mk_program code
        (predicates dst ++ predicates src)
        (actions dst ++ actions src)
        (captures dst ++ captures src)
        (matches_eps dst && matches_eps src)).

Definition set_enc_program (d : encoder) (p : program) : encoder :=
  mk_encoder (kind d) (zero_length_ d) (length_ d) p (enc_callees d).
Definition set_zero_length (d : encoder) (z : list bool) : encoder :=
  mk_encoder (kind d) z (length_ d) (enc_program d) (enc_callees d).

(** [do_append(instruction)] *)
Definition do_append (d : encoder) (i : instruction) : res encoder :=
  match kind d with
  | instruction_length_evaluator =>
      n <- checked_add program_limit_error ptrdiff_max (length_ d) 1 ;;
      Ok (mk_encoder (kind d) (zero_length_ d) n (enc_program d)
            (enc_callees d))
  | _ =>
      Ok (set_enc_program d
            (set_instructions (enc_program d)
               (instructions (enc_program d) ++ [i])))
  end.

(** [do_append(const program&)] *)
Definition do_append_program (d : encoder) (p : program) : res encoder :=
  match kind d with
  | instruction_length_evaluator =>
      n <- checked_add program_limit_error ptrdiff_max (length_ d)
             (zlen (instructions p)) ;;
      Ok (mk_encoder (kind d) (zero_length_ d) n (enc_program d)
            (enc_callees d))
  | instruction_encoder => Raise (lug_exn bad_grammar)
  | _ =>
      q <- concatenate (enc_program d) p ;;
      Ok (set_enc_program d q)
  end.

(** [do_length] *)
Definition do_length (d : encoder) : Z :=
  match kind d with
  | instruction_length_evaluator => length_ d
  | _ => zlen (instructions (enc_program d))
  end.

Definition do_should_evaluate_length (d : encoder) : bool :=
  match kind d with
  | instruction_length_evaluator => false
  | _ => true
  end.

(** [program_encoder::add_item] on the three side tables; the encoders
    below [program_encoder] return [immediate{0}]. *)
Definition has_tables (d : encoder) : bool :=
  match kind d with
  | program_encoder | rule_encoder => true
  | _ => false
  end.

Definition do_add_semantic_predicate (d : encoder) (f : semantic_predicate)
  : res (Z * encoder) :=
  if has_tables d then
    let q := enc_program d in
    _ <- assure_in_range resource_limit_error (zlen (predicates q)) 0
           (ushort_max - 1) ;;
    Ok (zlen (predicates q),
        set_enc_program d
          (mk_program (instructions q) (predicates q ++ [f]) (actions q)
             (captures q) (matches_eps q)))
  else Ok (0, d).

Definition do_add_semantic_action (d : encoder) (f : semantic_action)
  : res (Z * encoder) :=
  if has_tables d then
    let q := enc_program d in
    _ <- assure_in_range resource_limit_error (zlen (actions q)) 0
           (ushort_max - 1) ;;
    Ok (zlen (actions q),
        set_enc_program d
          (mk_program (instructions q) (predicates q) (actions q ++ [f])
             (captures q) (matches_eps q)))
  else Ok (0, d).

Definition do_add_semantic_capture_action (d : encoder)
    (f : semantic_capture) : res (Z * encoder) :=
  if has_tables d then
    let q := enc_program d in
    _ <- assure_in_range resource_limit_error (zlen (captures q)) 0
           (ushort_max - 1) ;;
    Ok (zlen (captures q),
        set_enc_program d
          (mk_program (instructions q) (predicates q) (actions q)
             (captures q ++ [f]) (matches_eps q)))
  else Ok (0, d).

(** [do_add_callee] *)
Definition do_add_callee (d : encoder) (c : callee) : encoder :=
  match kind d with
  | rule_encoder =>
      mk_encoder (kind d) (zero_length_ d) (length_ d) (enc_program d)
        (enc_callees d ++ [c])
  | _ => d
  end.

(** [zclr], [zpop], [zpsh], [zand] on the stack of empty-match flags *)
Definition zclr (c : bool) (d : encoder) : res encoder :=
  if c then
    match zero_length_ d with
    | [] => Undef
    | _ :: t => Ok (set_zero_length d (false :: t))
    end
  else Ok d.

Definition zpop (d : encoder) : res encoder :=
  match zero_length_ d with
  | [] => Undef
  | _ :: t => Ok (set_zero_length d t)
  end.

Definition zpsh (n : nat) (d : encoder) : res encoder :=
  match n with
  | O => Undef
  | S k =>
      match nth_error (zero_length_ d) k with
      | Some z => Ok (set_zero_length d (z :: zero_length_ d))
      | None => Undef
      end
  end.

Definition zand (n : nat) (d : encoder) : res encoder :=
  if (List.length (zero_length_ d) <=? n)%nat then Undef
  else
    let z := forallb (fun b => b) (firstn n (zero_length_ d)) in
    match skipn n (zero_length_ d) with
    | [] => Undef
    | _ :: t => Ok (set_zero_length d (z :: t))
    end.

Definition enc_matches_eps (d : encoder) : res bool :=
  match zero_length_ d with
  | [] => Undef
  | z :: _ => Ok z
  end.

(** [instruction(std::ptrdiff_t)] *)
Definition offset_word (o : Z) : res instruction :=
  if (int_min <=? o) && (o <=? int_max) then Ok (I_off o)
  else Raise (lug_exn program_limit_error).

(** [instruction(std::string_view)]: at most four characters, filled up
    with zeros. *)
Definition string_word (s : bytes) : instruction :=
  I_str (word_chars s).

(** [encode(op, imm)] and [encode(op, alt, imm)] *)
Definition encode (op : opcode) (alt imm : Z) (d : encoder) : res encoder :=
  do_append d (I_pf (mk_prefix (opcode_byte op) (to_operands alt) imm)).

(** [encode(op, off, imm)] and [encode(op, alt, off, imm)] *)
Definition encode_off (op : opcode) (alt off imm : Z) (d : encoder)
  : res encoder :=
  d <- do_append d
         (I_pf (mk_prefix (opcode_byte op)
                  (Z.lor operands_off (to_operands alt)) imm)) ;;
  w <- offset_word off ;;
  do_append d w.

(** The [do ... while] of [encode(op, val, subsequence)]. *)
Fixpoint append_string_words (fuel : nat) (s : bytes) (d : encoder)
  : res encoder :=
  match fuel with
  | O => Undef
  | S fuel' =>
      d <- do_append d (string_word s) ;;
      match skipn 4 s with
      | [] => Ok d
      | rest => append_string_words fuel' rest d
      end
  end.

(** [encode(op, val, subsequence)] *)
Definition encode_str (op : opcode) (val : Z) (s : bytes) (d : encoder)
  : res encoder :=
  if negb (is_nil s) then
    _ <- assure_in_range resource_limit_error val 1 maxstrlen ;;
    _ <- assure_in_range resource_limit_error (zlen s) 1 maxstrlen ;;
    d <- do_append d
           (I_pf (mk_prefix (opcode_byte op) operands_str
                    ((Z.lor (Z.shiftl (val - 1) 8) (zlen s - 1))
                       mod 2 ^ 16))) ;;
    append_string_words (List.length s) s d
  else Ok d.

(** The inner loops of [encoder::match] that trim a block of 256
    characters back to the start of its last rune. *)
Definition trim_block (s : bytes) : bytes :=
  let rev_s := rev s in
  let fix strip (l : bytes) : bytes :=
    match l with
    | [] => []
    | c :: t => if is_lead c then l else strip t
    end in
  rev (skipn 1 (strip rev_s)).

(** [encoder::match] *)
Fixpoint encoder_match_loop (fuel : nat) (s : bytes) (d : encoder)
  : res encoder :=
  if maxstrlen <? zlen s then
    match fuel with
    | O => Undef
    | S fuel' =>
        let sub := trim_block (firstn (Z.to_nat maxstrlen) s) in
        d <- encode_str opcode_match (count_runes sub) sub d ;;
        encoder_match_loop fuel' (skipn (List.length sub) s) d
    end
  else
    d <- encode_str opcode_match (count_runes s) s d ;;
    zclr (negb (is_nil s)) d.

Definition encoder_match (s : bytes) (d : encoder) : res encoder :=
  encoder_match_loop (List.length s) s d.

Definition bytes_eqb (a b : bytes) : bool := is_eq (traits_compare a b).

(** [encoder::match_range] *)
Definition encoder_match_range (first last : bytes) (d : encoder)
  : res encoder :=
  if bytes_eqb first last then encoder_match first d
  else
    d <- encode_str opcode_match_range (zlen first) (first ++ last) d ;;
    zclr true d.

(** ** Expressions *)

(** The expression objects of the DSL: each constructor stands for the
    closure over [encoder&] that the corresponding primitive or operator
    of [namespace language] returns. *)
Inductive expr : Type :=
  | chr (c : byte)
  | chr_range (s e : byte)
  | any
  | cut
  | ilr
  | eps
  | eoi
  | eol
  | space
  | e_not (x : expr)                       (* !e *)
  | e_and (x : expr)                       (* &e *)
  | e_star (x : expr)                      (* *e *)
  | e_alt (x1 x2 : expr)                   (* e1 | e2 *)
  | e_seq (x1 x2 : expr)                   (* e1 > e2 *)
  | e_action (x : expr) (a : semantic_action)      (* e < a *)
  | e_capture (x : expr) (a : semantic_capture)    (* e < a, with syntax *)
  | e_predicate (f : semantic_predicate)
  | e_rule (target : nat) (precedence : Z).        (* r, r[precedence] *)

Definition e_plus (x : expr) : expr := e_seq x (e_star x).      (* +e *)
Definition e_opt (x : expr) : expr := e_alt x eps.              (* ~e *)
Definition cut_before (x : expr) : expr := e_seq cut x.         (* --e *)
Definition cut_after (x : expr) : expr := e_seq x cut.          (* e-- *)

Definition new_encoder (k : encoder_kind) : encoder :=
  mk_encoder k [true] 0 empty_program [].

Definition eol_code (d : encoder) : res encoder :=
  d <- encode_off opcode_choice 0 4 0 d ;;
  d <- encoder_match [x0a] d ;;
  d <- encode_off opcode_commit 0 7 0 d ;;
  d <- encoder_match [x0d] d ;;
  d <- encode_off opcode_choice 0 3 0 d ;;
  d <- encoder_match [x0a] d ;;
  d <- encode opcode_commit 0 0 d ;;
  encode opcode_newline 0 0 d.

Definition eol_length : res Z :=
  d <- eol_code (new_encoder instruction_length_evaluator) ;;
  Ok (do_length d).

Section Evaluate.

(** The rules that exist when the expression is evaluated, and the rule
    under construction when it is one of them ([currently_encoding_]). *)
Variable rules : list rule.
Variable self : option nat.

Definition is_self (target : nat) : bool :=
  match self with
  | Some n => Nat.eqb n target
  | None => false
  end.

(** [encoder::add_callee] *)
Definition add_callee (target : nat) (eps_ : bool) (n : Z) (d : encoder)
  : res encoder :=
  match zero_length_ d with
  | [] => Undef
  | left_most :: t =>
      let d := set_zero_length d ((left_most && eps_) :: t) in
      Ok (do_add_callee d (mk_callee target n left_most))
  end.

(** [encoder::call(const rule&, prec, allow_inlining)] *)
Definition encoder_call (target : nat) (prec_ : Z) (allow_inlining : bool)
    (d : encoder) : res encoder :=
  r <- (if is_self target then Ok empty_rule
        else of_option (nth_error rules target)) ;;
  let q := program_ r in
  if allow_inlining && (prec_ <=? 0) && negb (is_self target)
     && is_nil (callees_ r) && negb (is_nil (instructions q))
     && (zlen (instructions q) <=? 8) && (zlen (predicates q) <=? 1)
     && (zlen (actions q) <=? 1) && (zlen (captures q) <=? 1)
  then
    d <- zclr (negb (matches_eps q)) d ;;
    do_append_program d q
  else
    d <- add_callee target (matches_eps q) (do_length d) d ;;
    encode_off opcode_call 0 0 prec_ d.

(** [make_expression(e)(d)], by cases on the expression. *)
Fixpoint evaluate (e : expr) (d : encoder) {struct e} : res encoder :=
  let evaluate_length (x : expr) : res Z :=
    if do_should_evaluate_length d then
      l <- evaluate x (new_encoder instruction_length_evaluator) ;;
      Ok (do_length l)
    else Ok 0 in
  match e with
  | chr c => encoder_match [c] d
  | chr_range s e => encoder_match_range [s] [e] d
  | any => d <- encode opcode_match_any 0 0 d ;; zclr true d
  | cut => encode opcode_accept 0 0 d
  | ilr => encode opcode_newline 0 0 d
  | eps => encode opcode_match 0 0 d
  | eoi =>
      d <- encode_off opcode_choice 0 2 0 d ;;
      d <- encode opcode_match_any 0 0 d ;;
      encode opcode_fail 0 1 d
  | eol => eol_code d
  | space =>
      n <- eol_length ;;
      d <- encode_off opcode_choice 0 4 0 d ;;
      d <- encoder_match (lit " ") d ;;
      d <- encode_off opcode_commit 0 (6 + n) 0 d ;;
      d <- encode_off opcode_choice 0 (2 + n) 0 d ;;
      d <- eol_code d ;;
      d <- encode_off opcode_commit 0 2 0 d ;;
      encoder_match_range [x09]
        [x0d] d
  | e_not x =>
      n <- evaluate_length x ;;
      d <- encode_off opcode_choice 0 (1 + n) 0 d ;;
      d <- zpsh 1 d ;;
      d <- evaluate x d ;;
      d <- zpop d ;;
      encode opcode_fail 0 1 d
  | e_and x =>
      n <- evaluate_length x ;;
      d <- encode_off opcode_choice 0 (2 + n) 0 d ;;
      d <- zpsh 1 d ;;
      d <- evaluate x d ;;
      d <- zpop d ;;
      d <- encode_off opcode_commit commit_back 1 0 d ;;
      encode opcode_fail 0 0 d
  | e_star x =>
      n <- evaluate_length x ;;
      d <- encode_off opcode_choice 0 (2 + n) 0 d ;;
      d <- zpsh 1 d ;;
      d <- evaluate x d ;;
      d <- zpop d ;;
      encode_off opcode_commit commit_partial (- (2 + n)) 0 d
  | e_alt x1 x2 =>
      n1 <- evaluate_length x1 ;;
      d <- encode_off opcode_choice 0 (2 + n1) 0 d ;;
      d <- zpsh 1 d ;;
      d <- evaluate x1 d ;;
      n2 <- evaluate_length x2 ;;
      d <- encode_off opcode_commit 0 n2 0 d ;;
      d <- zpsh 2 d ;;
      d <- evaluate x2 d ;;
      zand 2 d
  | e_seq x1 x2 =>
      d <- evaluate x1 d ;;
      evaluate x2 d
  | e_action x a =>
      d <- evaluate x d ;;
      ' (imm, d) <- do_add_semantic_action d a ;;
      encode opcode_action 0 imm d
  | e_capture x a =>
      d <- encode opcode_begin_capture 0 0 d ;;
      d <- evaluate x d ;;
      ' (imm, d) <- do_add_semantic_capture_action d a ;;
      encode opcode_end_capture 0 imm d
  | e_predicate f =>
      ' (imm, d) <- do_add_semantic_predicate d f ;;
      encode opcode_predicate 0 imm d
  | e_rule target precedence => encoder_call target precedence true d
  end.

(** [rule::rule(const E& e)]: a rule encoder run on [e]; the destructor
    of the program encoder stores [matches_eps]. *)
Definition make_rule (e : expr) : res rule :=
  d <- evaluate e (new_encoder rule_encoder) ;;
  z <- enc_matches_eps d ;;
  let q := enc_program d in
  Ok (mk_rule (mk_program (instructions q) (predicates q) (actions q)
                 (captures q) z)
        (enc_callees d)).

End Evaluate.

(** ** The linker *)

(** A [grammar] owns one linked program. *)
Definition grammar : Type := program.

Fixpoint lookup (k : nat) (m : list (nat * Z)) : option Z :=
  match m with
  | [] => None
  | (k', v) :: t => if Nat.eqb k k' then Some v else lookup k t
  end.

(** The scan of the caller frames for a left-most callee, newest frame
    first: does the callee reappear behind left-most frames only? *)
Fixpoint reappears (callee_ : nat) (callstack : list (nat * bool)) : bool :=
  match callstack with
  | [] => false
  | (caller, left_most) :: older =>
      if Nat.eqb caller callee_ then true
      else if negb left_most then false
      else reappears callee_ older
  end.

Record linker : Type := mk_linker {
  grprogram : program;
  addresses : list (nat * Z);
  calls : list (nat * Z);
  left_recursive : list nat;
  unprocessed : list (list (nat * bool) * nat) }.

(** The [for] loop of [start] over the callees of the rule on top of
    the call stack. *)
Fixpoint link_callees (callstack : list (nat * bool)) (address : Z)
    (cs : list callee) (k : linker) : linker :=
  match cs with
  | [] => k
  | c :: cs' =>
      let calls' := calls k ++ [(callee_rule c, address + callee_offset c)] in
      let found := callee_left_most c
                   && reappears (callee_rule c) callstack in
      let k' :=
        if found then
          mk_linker (grprogram k) (addresses k) calls'
            (callee_rule c :: left_recursive k) (unprocessed k)
        else
          mk_linker (grprogram k) (addresses k) calls' (left_recursive k)
            (((callee_rule c, callee_left_most c) :: callstack,
              callee_rule c) :: unprocessed k) in
      link_callees callstack address cs' k'
  end.

Section Start.

Variable rules : list rule.

(** The [do ... while (!unprocessed.empty())] loop of [start]. *)
Fixpoint link_loop (fuel : nat) (k : linker) : res linker :=
  match fuel with
  | O => Undef
  | S fuel' =>
      match unprocessed k with
      | [] => Undef
      | (callstack, subprogram) :: rest =>
          let k := mk_linker (grprogram k) (addresses k) (calls k)
                     (left_recursive k) rest in
          let address := zlen (instructions (grprogram k)) in
          k <-
            match lookup subprogram (addresses k) with
            | Some _ => Ok k
            | None =>
                r <- of_option (nth_error rules subprogram) ;;
                g <- concatenate (grprogram k) (program_ r) ;;
                let g := set_instructions g
                           (instructions g
                              ++ [I_pf (mk_prefix (opcode_byte opcode_ret)
                                          operands_none 0)]) in
                let k := mk_linker g ((subprogram, address) :: addresses k)
                           (calls k) (left_recursive k) (unprocessed k) in
                match callstack with
                | [] => Undef
                | (top_rule, _) :: _ =>
                    t <- of_option (nth_error rules top_rule) ;;
                    Ok (link_callees callstack address (callees_ t) k)
                end
            end ;;
          if is_nil (unprocessed k) then Ok k else link_loop fuel' k
      end
  end.

Definition set_nth {A} (l : list A) (i : Z) (a : A) : list A :=
  firstn (Z.to_nat i) l ++ a :: skipn (S (Z.to_nat i)) l.

(** The last loop of [start]: the precedence and the offset of every
    call site. *)
Fixpoint resolve_calls (k : linker) (cs : list (nat * Z))
    (code : list instruction) : res (list instruction) :=
  match cs with
  | [] => Ok code
  | (subprogram, instr_addr) :: cs' =>
      iprefix <- read_pf code instr_addr ;;
      let code :=
        if pf_op iprefix =? opcode_byte opcode_call then
          set_nth code instr_addr
            (I_pf (mk_prefix (pf_op iprefix) (pf_aux iprefix)
                     (if existsb (Nat.eqb subprogram) (left_recursive k)
                      then (if negb (pf_val iprefix =? 0)
                            then pf_val iprefix else 1)
                      else 0)))
        else code in
      ioffset <- read_off code (instr_addr + 1) ;;
      let rel_addr :=
        ioffset
        + match lookup subprogram (addresses k) with
          | Some a => a | None => 0 end
        - (instr_addr + 2) in
      _ <- assure_in_range program_limit_error rel_addr int_min int_max ;;
      resolve_calls k cs' (set_nth code (instr_addr + 1) (I_off rel_addr))
  end.

Definition link_bound : nat :=
  S (fold_right (fun r n => (List.length (callees_ r) + n)%nat) 0%nat rules).

(** [start(start_rule)], the start rule being [rules[root]]. *)
Definition start (root : nat) : res grammar :=
  r <- of_option (nth_error rules root) ;;
  d <- encoder_call rules None root 0 false (new_encoder program_encoder) ;;
  d <- encode opcode_accept accept_final 0 d ;;
  z <- enc_matches_eps d ;;
  let q := enc_program d in
  let g := mk_program (instructions q) (predicates q) (actions q)
             (captures q) z in
  k <- link_loop link_bound
         (mk_linker g [] [(root, 0)] [] [([(root, false)], root)]) ;;
  code <- resolve_calls k (calls k) (instructions (grprogram k)) ;;
  Ok (set_instructions (grprogram k) code).

End Start.

(** [start(e)] for an expression [e] that refers to no rule: the
    temporary start rule is the only rule. *)
Definition start_expr (e : expr) : res grammar :=
  r <- make_rule [] None e ;;
  start [r] 0.

Definition grammar_of (g : res grammar) : grammar :=
  match g with Ok q => q | _ => empty_program end.

(** ** Sample collaborators and claim vocabulary *)

(** A small stand-in for the Unicode collaborators, used to run the
    machine on concrete inputs: a rune is one byte; the ASCII letters
    have bit 1 in each of the three bit sets and script 1, all other
    runes have no bits and script 0. *)
Definition sample_unicode : unicode :=
  mk_unicode
    (fun s => match s with [] => (0, 0) | c :: _ => (byte_val c, 1) end)
    (fun rune =>
       if ((65 <=? rune) && (rune <=? 90)) || ((97 <=? rune) && (rune <=? 122))
       then mk_ucd_record 1 1 1 1
       else mk_ucd_record 0 0 0 0)
    8 4.

(** The four branches of the [switch (alt)] of [match_class]. *)
Inductive class_branch : Type :=
  | branch_ptype | branch_gctype | branch_sctype | branch_flags.

Definition branch_alt (b : class_branch) : Z :=
  match b with
  | branch_ptype => match_class_ptype
  | branch_gctype => match_class_gctype
  | branch_sctype => match_class_sctype
  | branch_flags => altcode_none
  end.

(** The registers after [match_class] has consumed a rune of [next]
    bytes. *)
Definition consumed (r : parser_registers) (next : Z) : parser_registers :=
  set_subject r (wadd (ir r) next) (wadd (cr r) 1) (lr r).

(** A branch has the plain polarity when [match_class] consumes the
    rune whenever the query of that branch matches. *)
Definition succeeds_on_match (U : unicode) (b : class_branch) : Prop :=
  forall prog d p r first,
    d_alt d = branch_alt b ->
    available 1 (ir r) p = Ok (true, p) ->
    input_from p (ir r) = Ok first ->
    class_query U d (query U (fst (decode_rune U first))) = Ok true ->
    exec_match_class U prog d p r
    = Ok (Running, p, consumed r (snd (decode_rune U first))).

(** A branch has the inverted polarity when [match_class] fails
    whenever the query matches and consumes the rune otherwise. *)
Definition inverted (U : unicode) (b : class_branch) : Prop :=
  forall prog d p r first m,
    d_alt d = branch_alt b ->
    available 1 (ir r) p = Ok (true, p) ->
    input_from p (ir r) = Ok first ->
    class_query U d (query U (fst (decode_rune U first))) = Ok m ->
    exec_match_class U prog d p r
    = if m : bool then goto_failure prog p r
      else Ok (Running, p, consumed r (snd (decode_rune U first))).

(** The polarity as the specification describes it: inverted in exactly
    one branch, plain in the others. *)
Definition inverted_in_exactly_one_branch (U : unicode) : Prop :=
  exists b, inverted U b /\ forall b', b' <> b -> succeeds_on_match U b'.

(** The scan of [call] as the specification words it: the memos are
    looked at from the newest backward while their seed is not before
    [i]; among those, the first with the same seed position and the
    same call target is the hit. *)
Fixpoint take_while {A} (f : A -> bool) (l : list A) : list A :=
  match l with
  | [] => []
  | a :: t => if f a then a :: take_while f t else []
  end.

Definition memo_hit (memos : list lrmemo) (i target : Z) : option lrmemo :=
  find (fun memo => (s_ir (sr memo) =? i) && (pca memo =? target))
    (take_while (fun memo => i <=? s_ir (sr memo)) memos).


(** ** Sample programs and states *)

(** The flags branch and the sctype branch on the letter [a]. *)
Definition class_flags_alpha : decoded :=
  mk_decoded (opcode_byte opcode_match_class) altcode_none 1 0 [] 1.
Definition class_sctype_latin : decoded :=
  mk_decoded (opcode_byte opcode_match_class) match_class_sctype 1 0 [] 1.

(** The program [begin_capture; accept_final] and the parser after its
    first instruction. *)
Definition capture_then_final : program :=
  mk_program
    [I_pf (mk_prefix (opcode_byte opcode_begin_capture) operands_none 0);
     I_pf (mk_prefix (opcode_byte opcode_accept) accept_final 0)]
    [] [] [] true.

Definition capture_open : parser :=
  set_capture_stack (set_stack_frames (new_parser []) [frame_capture])
    [mk_subject 0 1 1].

(** The code of [&chr('a')], [choice 4; match "a"; commit_back 1; fail], after its
    first two instructions on the input [a]. *)
Definition lookahead_a : program :=
  mk_program
    [I_pf (mk_prefix (opcode_byte opcode_choice) operands_off 0); I_off 4;
     I_pf (mk_prefix (opcode_byte opcode_match) operands_str 0);
     I_str (lit "a" ++ [x00; x00; x00]);
     I_pf (mk_prefix (opcode_byte opcode_commit)
             (Z.lor operands_off commit_back) 0); I_off 1;
     I_pf (mk_prefix (opcode_byte opcode_fail) operands_none 0)]
    [] [] [] true.

Definition inside_lookahead : parser :=
  set_backtrack_stack (set_stack_frames (new_parser (lit "a"))
                         [frame_backtrack])
    [mk_backtrack 0 1 1 0 6].

(** A [match] instruction fails at position [i] without reading more
    input: the characters are not available, or they differ. *)
Definition match_fails (dm : decoded) (p : parser) (i : Z) : Prop :=
  d_str dm <> []
  /\ (available (zlen (d_str dm)) i p = Ok (false, p)
      \/ (available (zlen (d_str dm)) i p = Ok (true, p)
          /\ exists c,
               string_compare (input_ p) i (zlen (d_str dm)) (d_str dm)
               = Ok c /\ c <> Eq)).

(** The frame on top of [stack_frames_] is not what the instruction
    needs. *)
Definition mismatched (d : decoded) (p : parser) : Prop :=
  (opcode_of_byte (d_op d) = Some opcode_commit
   /\ hd_error (stack_frames_ p) <> Some frame_backtrack)
  \/ (opcode_of_byte (d_op d) = Some opcode_ret
      /\ hd_error (stack_frames_ p) <> Some frame_call
      /\ hd_error (stack_frames_ p) <> Some frame_lrcall)
  \/ (opcode_of_byte (d_op d) = Some opcode_end_capture
      /\ hd_error (stack_frames_ p) <> Some frame_capture).

(** The program [ret], alone. *)
Definition lone_ret : program :=
  mk_program [I_pf (mk_prefix (opcode_byte opcode_ret) operands_none 0)]
    [] [] [] true.

(** A parser with one left-recursion memo: the seed of a call to
    address 5 made at input position 0, with the answer 1. *)
Definition memo_0_5 : lrmemo :=
  mk_lrmemo (mk_subject 0 1 1) (mk_subject 1 2 1) 0 2 5 [] 1.

Definition growing : parser :=
  set_lrmemo_stack (set_stack_frames (new_parser (lit "a+a"))
                      [frame_lrcall])
    [memo_0_5].

(** The program [call 3 (prec 1)] followed by filler. *)
Definition lr_call : program :=
  mk_program
    [I_pf (mk_prefix (opcode_byte opcode_call) operands_off 1); I_off 3;
     I_pf (mk_prefix (opcode_byte opcode_accept) accept_final 0)]
    [] [] [] true.

(** What the instructions of the loop of [parser::parse] can raise. *)
Definition loop_exception (x : exception) : Prop :=
  x = std_out_of_range
  \/ x = lug_exn reenterant_read_error
  \/ x = lug_exn bad_opcode.

(** The grammar of [chr('a') > &cut > chr('b')]. *)
Definition cut_in_lookahead : res grammar :=
  start_expr (e_seq (chr "a") (e_seq (e_and cut) (chr "b"))).

(** The rule [*eps] and the grammar [start] of [*eps], as the encoder
    and the linker produce them. *)
Definition star_eps_rule : rule :=
  mk_rule
    (mk_program
       [I_pf (mk_prefix 4 64 0); I_off 3; I_pf (mk_prefix 0 0 0);
        I_pf (mk_prefix 5 66 0); I_off (-3)] [] [] [] true) [].

Definition star_eps : grammar :=
  mk_program
    [I_pf (mk_prefix 7 64 0); I_off 1; I_pf (mk_prefix 10 1 0);
     I_pf (mk_prefix 4 64 0); I_off 3; I_pf (mk_prefix 0 0 0);
     I_pf (mk_prefix 5 66 0); I_off (-3); I_pf (mk_prefix 8 0 0)]
    [] [] [] true.

(** The parser of [star_eps] on the input [text] inside the loop, and
    the registers before the [match] and before the [commit] of the loop
    body. *)
Definition star_eps_parser (text : bytes) : parser :=
  mk_parser text (mk_registers 0 1 1 0 0 0) (mk_subject 0 1 1)
    true false false 0 [] [frame_backtrack; frame_call]
    [mk_backtrack 0 1 1 0 8] [2] [] [] new_semantics.
Definition star_eps_at_match : parser_registers := mk_registers 0 1 1 0 5 0.
Definition star_eps_at_commit : parser_registers := mk_registers 0 1 1 0 6 0.

(** A run that has come to an end: [parse] has returned or raised. *)
Definition finished (o : outcome) : Prop :=
  match o with
  | Returns _ _ _ | Throws _ => True
  | Undefined | Unfinished _ _ => False
  end.

(** The parser an outcome ends with, if it has one. *)
Definition parser_of (o : outcome) : option parser :=
  match o with
  | Returns _ p _ | Unfinished p _ => Some p
  | Throws _ | Undefined => None
  end.

Definition result_of (o : outcome) : option bool :=
  match o with
  | Returns b _ _ => Some b
  | _ => None
  end.

(** Positions are ordered by line, then by column. *)
Definition position_le (a b : syntax_position) : Prop :=
  line a < line b \/ (line a = line b /\ column a <= column b).

(** [(chr('a') > chr('b') > chr('c') > chr('X') | chr('a')) > cut
     > chr('b') > chr('z')] *)
Definition far_then_cut : expr :=
  e_seq
    (e_alt (e_seq (e_seq (e_seq (chr "a") (chr "b")) (chr "c")) (chr "X"))
       (chr "a"))
    (e_seq cut (e_seq (chr "b") (chr "z"))).

(** The capture action of the specification's round-trip scenario,
    [s.push_attribute(x.capture)]. *)
Definition push_capture : semantic_capture :=
  fun s x =>
    mk_semantics (match_ s) (prune_depth_ s) (call_depth_ s) (responses_ s)
      (captures_ s) (view_capture x :: attributes_ s).

(** [(chr('a') > cut > chr('b')) < push_capture] *)
Definition cut_in_capture : expr :=
  e_capture (e_seq (chr "a") (e_seq cut (chr "b"))) push_capture.

(** The semantics object in the middle of [semantics::accept], after the
    loop over the responses and before [clear()]. *)
Definition dispatched (g : grammar) (p : parser) : res semantics :=
  dispatch_all (actions g) (captures g) (responses_ (semantics_ p))
    (mk_semantics (input_ p) (prune_depth_ (semantics_ p))
       (call_depth_ (semantics_ p)) (responses_ (semantics_ p))
       (captures_ (semantics_ p)) (attributes_ (semantics_ p))).

(** ** The two lookaheads *)








Definition and_cut : grammar := grammar_of (start_expr (e_and cut)).
Definition not_not_cut : grammar :=
  grammar_of (start_expr (e_not (e_not cut))).



(** An action that pushes an empty attribute. *)
Definition push_empty : semantic_action :=
  fun s =>
    mk_semantics (match_ s) (prune_depth_ s) (call_depth_ s) (responses_ s)
      (captures_ s) ([] :: attributes_ s).

(** * Further definitions *)

(** The string words that [encode(op, val, subsequence)] appends for the
    characters [s], four characters to a word. *)
Fixpoint string_words (fuel : nat) (s : bytes) : list instruction :=
  match fuel with
  | O => []
  | S fuel' =>
      string_word s ::
      match skipn 4 s with
      | [] => []
      | rest => string_words fuel' rest
      end
  end.

(** The number of lead bytes of [s]. *)
Definition lead_bytes (s : bytes) : Z := zlen (filter is_lead s).

(** The instructions an encoder has emitted so far. *)
Definition code_of (d : encoder) : list instruction :=
  instructions (enc_program d).

(** An encoder that emits instructions (any but the length evaluator). *)
Definition emits (d : encoder) : Prop :=
  kind d <> instruction_length_evaluator.

(** The characters held by a sequence of string words. *)
Fixpoint chars_of_words (ws : list instruction) : bytes :=
  match ws with
  | [] => []
  | I_str s :: ws' => word_chars s ++ chars_of_words ws'
  | _ :: ws' => chars_of_words ws'
  end.

Definition is_string_word (w : instruction) : Prop :=
  match w with I_str _ => True | _ => False end.

(** A sequence of whole instructions: every prefix is followed by as
    many operand words as [instruction::length] counts for it. *)
Inductive whole_instructions : list instruction -> Prop :=
  | whole_nil : whole_instructions []
  | whole_cons (pf : prefix) (ws rest : list instruction) :
      zlen ws = instruction_length pf - 1 ->
      whole_instructions rest ->
      whole_instructions (I_pf pf :: ws ++ rest).

(** The encoder [d'] is [k] instructions longer than [d]. *)
Definition grows (d d' : encoder) (k : Z) : Prop :=
  do_length d' = do_length d + k.

(** Two runs of an encoding step, [d] to [d1] and [d'] to [d1'], add the
    same number of instructions. *)
Definition alike (d d1 d' d1' : encoder) : Prop :=
  do_length d1 - do_length d = do_length d1' - do_length d'.

(** The program that [start] builds for a start rule [r] that calls no
    other rule: the call of the rule, the final accept, the code of the
    rule and its return. *)
Definition leaf_grammar (r : rule) : grammar :=
  mk_program
    ([I_pf (mk_prefix (opcode_byte opcode_call) operands_off 0); I_off 1;
      I_pf (mk_prefix (opcode_byte opcode_accept) accept_final 0)]
     ++ instructions (program_ r)
     ++ [I_pf (mk_prefix (opcode_byte opcode_ret) operands_none 0)])
    (predicates (program_ r)) (actions (program_ r)) (captures (program_ r))
    (matches_eps (program_ r)).

(** The frames that a failure pops on its way to a backtrack frame. *)
Definition passed_over (f : stack_frame_type) : bool :=
  match f with
  | frame_call | frame_capture => true
  | _ => false
  end.

Definition frame_eqb (a b : stack_frame_type) : bool :=
  match a, b with
  | frame_backtrack, frame_backtrack => true
  | frame_call, frame_call => true
  | frame_capture, frame_capture => true
  | frame_lrcall, frame_lrcall => true
  | _, _ => false
  end.

(** The number of frames of type [k] among [fs]. *)
Definition count_frames (k : stack_frame_type) (fs : list stack_frame_type)
  : nat :=
  List.length (filter (frame_eqb k) fs).

(** Two parsers with the same five stacks. *)
Definition same_stacks (p q : parser) : Prop :=
  stack_frames_ p = stack_frames_ q
  /\ backtrack_stack_ p = backtrack_stack_ q
  /\ call_stack_ p = call_stack_ q
  /\ capture_stack_ p = capture_stack_ q
  /\ lrmemo_stack_ p = lrmemo_stack_ q.

(** Each of the four typed stacks holds one entry for every frame of its
    type on [stack_frames_]. *)
Definition stacks_agree (p : parser) : Prop :=
  count_frames frame_backtrack (stack_frames_ p)
  = List.length (backtrack_stack_ p)
  /\ count_frames frame_call (stack_frames_ p) = List.length (call_stack_ p)
  /\ count_frames frame_capture (stack_frames_ p)
     = List.length (capture_stack_ p)
  /\ count_frames frame_lrcall (stack_frames_ p)
     = List.length (lrmemo_stack_ p).

(** A semantic predicate that leaves the stacks of the parser alone. *)
Definition keeps_stacks (f : semantic_predicate) : Prop :=
  forall q, same_stacks (snd (f q)) q.

(** The grammar that [start] builds for [*chr(c)]: the call of the start
    rule, the final accept, and the loop [choice; match c;
    commit_partial] followed by the return. *)
Definition star_chr (c : byte) : grammar :=
  mk_program
    [I_pf (mk_prefix 7 64 0); I_off 1; I_pf (mk_prefix 10 1 0);
     I_pf (mk_prefix 4 64 0); I_off 4;
     I_pf (mk_prefix 0 128 0); I_str [c; x00; x00; x00];
     I_pf (mk_prefix 5 66 0); I_off (-4); I_pf (mk_prefix 8 0 0)]
    [] [] [] true.

(** The parser of [star_chr] inside the loop: the backtrack frame of the
    loop holds the position [i] and the column [col]; [far] is
    [max_input_]. *)
Definition star_chr_parser (text : bytes) (i col : Z) (far : subject)
  : parser :=
  mk_parser text (mk_registers 0 1 1 0 0 0) far true false false 0 []
    [frame_backtrack; frame_call] [mk_backtrack i col 1 0 9] [2] [] []
    new_semantics.

(** The grammar that [start] builds for [chr(c)]. *)
Definition chr_grammar (c : byte) : grammar :=
  mk_program
    [I_pf (mk_prefix 7 64 0); I_off 1; I_pf (mk_prefix 10 1 0);
     I_pf (mk_prefix 0 128 0); I_str [c; x00; x00; x00];
     I_pf (mk_prefix 8 0 0)]
    [] [] [] false.

(** The parser of [chr_grammar] inside the start rule. *)
Definition chr_parser (text : bytes) : parser :=
  mk_parser text (mk_registers 0 1 1 0 0 0) (mk_subject 0 1 1) true false
    false 0 [] [frame_call] [] [2] [] [] new_semantics.

(** The grammar that [start] builds for [chr(c) < a], [a] being a
    capture action. *)
Definition capture_chr (c : byte) (a : semantic_capture) : grammar :=
  mk_program
    [I_pf (mk_prefix 7 64 0); I_off 1; I_pf (mk_prefix 10 1 0);
     I_pf (mk_prefix 14 0 0);
     I_pf (mk_prefix 0 128 0); I_str [c; x00; x00; x00];
     I_pf (mk_prefix 15 0 0);
     I_pf (mk_prefix 8 0 0)]
    [] [] [a] false.

(** The parser of [capture_chr] between [begin_capture] and
    [end_capture]. *)
Definition capture_chr_parser (text : bytes) : parser :=
  mk_parser text (mk_registers 0 1 1 0 0 0) (mk_subject 0 1 1) true false
    false 0 [] [frame_capture; frame_call] [] [2] [mk_subject 0 1 1] []
    new_semantics.

(** The semantics object that the capture action of [capture_chr] is
    called with: the match is the whole input, the call depth is that of
    the start rule, and the log holds the one response. *)
Definition capture_chr_semantics (text : bytes) : semantics :=
  mk_semantics text ushort_max 1 [mk_response 1 0 0]
    [mk_range 0 1 (mk_position 1 1) (mk_position 2 1)] [].



(** The program that [start] builds for a start rule whose only callee
    is the rule itself, called left-most at the index [zlen pre] of its
    code [pre ++ call :: offset :: post] with the precedence [prec_]. *)
Definition left_recursive_grammar (r : rule) (pre post : list instruction)
    (prec_ : Z) : grammar :=
  mk_program
    ([I_pf (mk_prefix (opcode_byte opcode_call) operands_off 1); I_off 1;
      I_pf (mk_prefix (opcode_byte opcode_accept) accept_final 0)]
     ++ pre
     ++ [I_pf (mk_prefix (opcode_byte opcode_call) operands_off
                 (if prec_ =? 0 then 1 else prec_));
         I_off (- (zlen pre + 2))]
     ++ post
     ++ [I_pf (mk_prefix (opcode_byte opcode_ret) operands_none 0)])
    (predicates (program_ r)) (actions (program_ r)) (captures (program_ r))
    (matches_eps (program_ r)).

(** The grammar that [start] builds for the left-recursive rule
    [R = R chr(a) | chr(b)]. *)
Definition lr_grammar (a b : byte) : grammar :=
  mk_program
    [I_pf (mk_prefix 7 64 1); I_off 1; I_pf (mk_prefix 10 1 0);
     I_pf (mk_prefix 4 64 0); I_off 6;
     I_pf (mk_prefix 7 64 1); I_off (-4);
     I_pf (mk_prefix 0 128 0); I_str [a; x00; x00; x00];
     I_pf (mk_prefix 5 64 0); I_off 2;
     I_pf (mk_prefix 0 128 0); I_str [b; x00; x00; x00];
     I_pf (mk_prefix 8 0 0)]
    [] [] [] false.

(** The memo of the call of [R] at position 0 with the answer that ends
    at position [j] and column [col]. *)
Definition lr_memo (j col : Z) : lrmemo :=
  mk_lrmemo (mk_subject 0 1 1) (mk_subject j col 1) 0 2 3 [] 1.

(** The parser of [lr_grammar] at the start of a turn of the growing of
    the seed, and inside the first alternative; [far] is [max_input_]. *)
Definition lr_parser (text : bytes) (j col : Z) (far : subject) : parser :=
  mk_parser text (mk_registers 0 1 1 0 0 0) far true false false 0 []
    [frame_lrcall] [] [] [] [lr_memo j col] new_semantics.

Definition lr_parser_in (text : bytes) (j col : Z) (far : subject)
  : parser :=
  mk_parser text (mk_registers 0 1 1 0 0 0) far true false false 0 []
    [frame_backtrack; frame_lrcall] [mk_backtrack 0 1 1 0 11] [] []
    [lr_memo j col] new_semantics.

(** The parser of [lr_grammar] after the first call of [R]: the memo
    has no answer yet. *)
Definition lr_seed (text : bytes) : parser :=
  mk_parser text (mk_registers 0 1 1 0 0 0) (mk_subject 0 1 1) true false
    false 0 [] [frame_lrcall] [] [] []
    [mk_lrmemo (mk_subject 0 1 1) (mk_subject lrfailcode 0 0) 0 2 3 [] 1]
    new_semantics.

(** The grammar that [start] builds for [eoi]: [choice; match_any;
    fail 1] inside the start rule. *)
Definition eoi_grammar : grammar :=
  mk_program
    [I_pf (mk_prefix 7 64 0); I_off 1; I_pf (mk_prefix 10 1 0);
     I_pf (mk_prefix 4 64 0); I_off 2; I_pf (mk_prefix 1 0 0);
     I_pf (mk_prefix 9 0 1); I_pf (mk_prefix 8 0 0)]
    [] [] [] true.

(** The parser of [eoi_grammar] behind its [choice]. *)
Definition eoi_parser (text : bytes) : parser :=
  mk_parser text (mk_registers 0 1 1 0 0 0) (mk_subject 0 1 1) true false
    false 0 [] [frame_backtrack; frame_call] [mk_backtrack 0 1 1 0 7] [2]
    [] [] new_semantics.

(** From [d] to [d'] only the flag on top of [zero_length_] has
    changed, and it has not been set. *)
Definition clears_top (d d' : encoder) : Prop :=
  forall z0 rest,
    zero_length_ d = z0 :: rest ->
    exists z, zero_length_ d' = z :: rest /\ (z = true -> z0 = true).

(** The rule that is made from [~chr(c)], that is from [chr(c) | eps],
    and the grammar that [start] builds for it. *)
Definition optional_chr_rule (c : byte) : rule :=
  mk_rule
    (mk_program
       [I_pf (mk_prefix 4 64 0); I_off 4;
        I_pf (mk_prefix 0 128 0); I_str [c; x00; x00; x00];
        I_pf (mk_prefix 5 64 0); I_off 1;
        I_pf (mk_prefix 0 0 0)]
       [] [] [] false)
    [].

Definition optional_chr (c : byte) : grammar :=
  mk_program
    [I_pf (mk_prefix 7 64 0); I_off 1; I_pf (mk_prefix 10 1 0);
     I_pf (mk_prefix 4 64 0); I_off 4;
     I_pf (mk_prefix 0 128 0); I_str [c; x00; x00; x00];
     I_pf (mk_prefix 5 64 0); I_off 1;
     I_pf (mk_prefix 0 0 0);
     I_pf (mk_prefix 8 0 0)]
    [] [] [] false.

(** The grammar that [start] builds for
    [(chr(a) < f1) > chr(b) | (chr(a) < f2)], [f1] and [f2] being
    semantic actions. *)
Definition actions_grammar (a b : byte) (f1 f2 : semantic_action)
  : grammar :=
  mk_program
    [I_pf (mk_prefix 7 64 0); I_off 1; I_pf (mk_prefix 10 1 0);
     I_pf (mk_prefix 4 64 0); I_off 7;
     I_pf (mk_prefix 0 128 0); I_str [a; x00; x00; x00];
     I_pf (mk_prefix 13 0 0);
     I_pf (mk_prefix 0 128 0); I_str [b; x00; x00; x00];
     I_pf (mk_prefix 5 64 0); I_off 3;
     I_pf (mk_prefix 0 128 0); I_str [a; x00; x00; x00];
     I_pf (mk_prefix 13 0 1);
     I_pf (mk_prefix 8 0 0)]
    [] [f1; f2] [] false.

(** * Theorems *)

(** ** [match_class] *)

Lemma exec_match_class_eq (U : unicode) (prog : program) d p r p' first m :
  available 1 (ir r) p = Ok (true, p') ->
  input_from p' (ir r) = Ok first ->
  class_query U d (query U (fst (decode_rune U first))) = Ok m ->
  exec_match_class U prog d p r
  = if m : bool then goto_failure prog p' r
    else Ok (Running, p', consumed r (snd (decode_rune U first))).
Proof.
  intros Hav Hin Hq. unfold exec_match_class.
  rewrite Hav. cbn [bind negb]. rewrite Hin. cbn [bind].
  destruct (decode_rune U first) as [rune next]. cbn [fst snd] in *.
  rewrite Hq. cbn [bind]. destruct m; reflexivity.
Qed.

(** C1, as amended.  The test [if (match) goto failure] follows the
    [switch (alt)] and is shared by its four branches: in each of ptype,
    gctype, sctype and flags, [match_class] fails when the query of the
    decoded rune matches, and otherwise goes on with [ir] advanced by
    the byte size of the rune and [cr] by 1. *)
Theorem match_class_inverted_in_every_branch
    (U : unicode) (prog : program) (b : class_branch) d p r first m :
  d_alt d = branch_alt b ->
  available 1 (ir r) p = Ok (true, p) ->
  input_from p (ir r) = Ok first ->
  class_query U d (query U (fst (decode_rune U first))) = Ok m ->
  exec_match_class U prog d p r
  = (if m then goto_failure prog p r
     else Ok (Running, p,
              set_subject r (wadd (ir r) (snd (decode_rune U first)))
                (wadd (cr r) 1) (lr r))).
Proof.
  intros _ Hav Hin Hq. exact (exec_match_class_eq U prog d p r p first m Hav Hin Hq).
Qed.

Lemma match_class_inverted_in_every_branch_witness :
  exec_match_class sample_unicode empty_program class_flags_alpha
    (new_parser (lit "a")) (mk_registers 0 1 1 0 1 0)
  = goto_failure empty_program (new_parser (lit "a"))
      (mk_registers 0 1 1 0 1 0).
Proof.
  exact (match_class_inverted_in_every_branch sample_unicode empty_program
           branch_flags class_flags_alpha (new_parser (lit "a"))
           (mk_registers 0 1 1 0 1 0) (lit "a") true
           eq_refl eq_refl eq_refl eq_refl).
Defined.

(** C1, as stated, fails: with the sample collaborators both the flags
    branch and the sctype branch fail on a matching rune, so no choice
    of a single inverted branch leaves the others with the plain
    polarity. *)
Lemma match_class_not_inverted_in_exactly_one_branch :
  ~ inverted_in_exactly_one_branch sample_unicode.
Proof.
  intros [b [_ Hplain]].
  assert (H : succeeds_on_match sample_unicode branch_flags
              \/ succeeds_on_match sample_unicode branch_sctype).
  { destruct b; [left | left | left | right]; apply Hplain; discriminate. }
  destruct H as [H | H].
  - specialize (H empty_program class_flags_alpha (new_parser (lit "a"))
                  (mk_registers 0 1 1 0 1 0) (lit "a")
                  eq_refl eq_refl eq_refl eq_refl).
    vm_compute in H. discriminate H.
  - specialize (H empty_program class_sctype_latin (new_parser (lit "a"))
                  (mk_registers 0 1 1 0 1 0) (lit "a")
                  eq_refl eq_refl eq_refl eq_refl).
    vm_compute in H. discriminate H.
Qed.

(** ** Single instructions *)

Lemma step_decoded (U : unicode) (prog : program) p r d :
  decode (instructions prog) (pc r) = Ok d ->
  step U prog p r = exec U prog d p (set_pc r (d_pc d)).
Proof. intros H. unfold step. rewrite H. reflexivity. Qed.

Lemma is_nil_true {A} (l : list A) : is_nil l = true <-> l = [].
Proof. destruct l; simpl; split; intros H; congruence. Qed.

Lemma is_nil_false {A} (l : list A) : is_nil l = false <-> l <> [].
Proof. destruct l; simpl; split; intros H; congruence. Qed.


Lemma capture_open_reached :
  step sample_unicode capture_then_final (new_parser [])
    (mk_registers 0 1 1 0 0 0)
  = Ok (Running, capture_open, mk_registers 0 1 1 0 1 0).
Proof. reflexivity. Qed.



Lemma step_commit_back
    (U : unicode) (prog : program) p r d b bs fs :
  decode (instructions prog) (pc r) = Ok d ->
  opcode_of_byte (d_op d) = Some opcode_commit ->
  d_alt d = commit_back ->
  stack_frames_ p = frame_backtrack :: fs ->
  backtrack_stack_ p = b :: bs ->
  exists p',
    step U prog p r
    = Ok (Running, p',
          mk_registers (bt_ir b) (bt_cr b) (bt_lr b) (rc r)
            (d_pc d + d_off d) (fc r))
    /\ stack_frames_ p' = fs
    /\ backtrack_stack_ p' = bs
    /\ semantics_ p' = semantics_ p
    /\ input_ p' = input_ p
    /\ max_input_ p' = max_input_ p
    /\ call_stack_ p' = call_stack_ p
    /\ capture_stack_ p' = capture_stack_ p
    /\ lrmemo_stack_ p' = lrmemo_stack_ p
    /\ registers_ p' = registers_ p
    /\ cut_deferred_ p' = cut_deferred_ p.
Proof.
  intros Hd Hop Halt Hf Hb. rewrite (step_decoded U prog p r d Hd).
  unfold exec. rewrite Hop. unfold exec_commit. rewrite Hf, Halt, Hb.
  cbn [Z.eqb commit_back commit_partial Pos.eqb].
  unfold pop_stack_frame, pop_typed. rewrite Hb. cbn [bind].
  cbn [stack_frames_ set_backtrack_stack]. rewrite Hf.
  cbn [bind exec_jump]. eexists. split; [reflexivity |].
  cbn. repeat split; reflexivity.
Qed.

(** C7.  [commit] with altcode [commit_back] on a Backtrack frame takes
    [ir], [cr] and [lr] from that frame and pops it, then jumps; [rc],
    [fc] and the response log stay as they are, and so do the input and
    the other stacks. *)
Theorem commit_back_restores_subject_only
    (U : unicode) (prog : program) p r d b bs fs :
  decode (instructions prog) (pc r) = Ok d ->
  opcode_of_byte (d_op d) = Some opcode_commit ->
  d_alt d = commit_back ->
  stack_frames_ p = frame_backtrack :: fs ->
  backtrack_stack_ p = b :: bs ->
  exists p',
    step U prog p r
    = Ok (Running, p',
          mk_registers (bt_ir b) (bt_cr b) (bt_lr b) (rc r)
            (d_pc d + d_off d) (fc r))
    /\ stack_frames_ p' = fs
    /\ backtrack_stack_ p' = bs
    /\ semantics_ p' = semantics_ p
    /\ input_ p' = input_ p
    /\ max_input_ p' = max_input_ p
    /\ call_stack_ p' = call_stack_ p
    /\ capture_stack_ p' = capture_stack_ p
    /\ lrmemo_stack_ p' = lrmemo_stack_ p
    /\ registers_ p' = registers_ p
    /\ cut_deferred_ p' = cut_deferred_ p.
Proof. exact (step_commit_back U prog p r d b bs fs). Qed.

Lemma inside_lookahead_reached :
  run sample_unicode lookahead_a 2 (new_parser (lit "a"))
    (mk_registers 0 1 1 0 0 0)
  = Unfinished inside_lookahead (mk_registers 1 2 1 0 4 0).
Proof. reflexivity. Qed.

Lemma commit_back_restores_subject_only_witness :
  exists p',
    step sample_unicode lookahead_a inside_lookahead
      (mk_registers 1 2 1 0 4 0)
    = Ok (Running, p', mk_registers 0 1 1 0 7 0)
    /\ stack_frames_ p' = []
    /\ backtrack_stack_ p' = []
    /\ semantics_ p' = semantics_ inside_lookahead
    /\ input_ p' = input_ inside_lookahead
    /\ max_input_ p' = max_input_ inside_lookahead
    /\ call_stack_ p' = call_stack_ inside_lookahead
    /\ capture_stack_ p' = capture_stack_ inside_lookahead
    /\ lrmemo_stack_ p' = lrmemo_stack_ inside_lookahead
    /\ registers_ p' = registers_ inside_lookahead
    /\ cut_deferred_ p' = cut_deferred_ inside_lookahead.
Proof.
  exact (commit_back_restores_subject_only sample_unicode lookahead_a
           inside_lookahead (mk_registers 1 2 1 0 4 0)
           (mk_decoded 5 1 0 1 [] 6) (mk_backtrack 0 1 1 0 6) [] []
           eq_refl eq_refl eq_refl eq_refl eq_refl).
Defined.

(** C9.  A [commit], [ret] or [end_capture] that finds [stack_frames_]
    empty, or topped by a frame of another kind, touches no stack and
    raises nothing: the machine goes to the label [failure] with the
    parser as it was, which is what a [match] that fails at the same
    position does. *)
Theorem mismatched_frame_is_plain_failure
    (U : unicode) (prog : program) p r d :
  decode (instructions prog) (pc r) = Ok d ->
  mismatched d p ->
  step U prog p r = goto_failure prog p (set_pc r (d_pc d))
  /\ forall dm,
       match_fails dm p (ir r) ->
       exec_match prog dm p (set_pc r (d_pc d)) = step U prog p r.
Proof.
  intros Hd Hm.
  assert (E : step U prog p r = goto_failure prog p (set_pc r (d_pc d))).
  { rewrite (step_decoded U prog p r d Hd). unfold exec.
    destruct Hm as [[Hop Hf] | [[Hop [Hf1 Hf2]] | [Hop Hf]]]; rewrite Hop.
    - unfold exec_commit.
      destruct (stack_frames_ p) as [| [] fs]; try reflexivity.
      exfalso. apply Hf. reflexivity.
    - unfold exec_ret.
      destruct (stack_frames_ p) as [| [] fs]; try reflexivity.
      + exfalso. apply Hf1. reflexivity.
      + exfalso. apply Hf2. reflexivity.
    - unfold exec_end_capture.
      destruct (stack_frames_ p) as [| [] fs]; try reflexivity.
      exfalso. apply Hf. reflexivity. }
  split; [exact E |].
  intros dm [Hne Hfail]. rewrite E. unfold exec_match.
  apply is_nil_false in Hne. rewrite Hne. cbn [negb].
  cbn [ir set_pc].
  destruct Hfail as [Hav | [Hav [c [Hc Hneq]]]]; rewrite Hav; cbn [bind negb].
  - reflexivity.
  - cbn [ir set_pc] in *. rewrite Hc. cbn [bind].
    destruct c; try reflexivity. congruence.
Qed.

Lemma mismatched_frame_is_plain_failure_witness :
  step sample_unicode lone_ret (new_parser (lit "a"))
    (mk_registers 0 1 1 0 0 0)
  = goto_failure lone_ret (new_parser (lit "a")) (mk_registers 0 1 1 0 1 0)
  /\ exec_match lone_ret (mk_decoded 0 0 1 0 (lit "b") 3)
       (new_parser (lit "a")) (mk_registers 0 1 1 0 1 0)
     = step sample_unicode lone_ret (new_parser (lit "a"))
         (mk_registers 0 1 1 0 0 0).
Proof.
  pose proof (mismatched_frame_is_plain_failure sample_unicode lone_ret
                (new_parser (lit "a")) (mk_registers 0 1 1 0 0 0)
                (mk_decoded 8 0 0 0 [] 1) eq_refl) as H.
  assert (Hm : mismatched (mk_decoded 8 0 0 0 [] 1) (new_parser (lit "a"))).
  { right. left. repeat split; discriminate. }
  destruct (H Hm) as [H1 H2]. split; [exact H1 |].
  apply H2. split; [discriminate |]. right. split; [reflexivity |].
  exists Lt. split; [reflexivity | discriminate].
Defined.

(** ** The left-recursive [call] *)

Lemma find_memo_hit memos i target :
  find_memo memos i target = memo_hit memos i target.
Proof.
  unfold memo_hit. induction memos as [| memo older IH]; [reflexivity |].
  cbn [find_memo take_while]. rewrite Z.geb_leb.
  destruct (i <=? s_ir (sr memo)); [| reflexivity].
  cbn [find]. rewrite IH. reflexivity.
Qed.

Lemma restore_responses_after_log s n restore :
  responses_ (snd (restore_responses_after s n restore))
  = firstn (Z.to_nat n) (responses_ s) ++ restore
  /\ fst (restore_responses_after s n restore)
     = zlen (firstn (Z.to_nat n) (responses_ s) ++ restore).
Proof.
  unfold restore_responses_after, pop_responses_after. cbn [fst snd].
  destruct (n <? zlen (responses_ s)) eqn:E; cbn [responses_ set_responses].
  - split; reflexivity.
  - apply Z.ltb_ge in E. unfold zlen in E.
    rewrite firstn_all2 by lia. split; reflexivity.
Qed.

(** C5.  A [call] with a nonzero precedence looks at the memos from the
    newest backward while their seed position is not before [ir]; the
    first one with the seed position [ir] and the target [pc + off] is
    the hit.  On a hit whose answer is the fail code, or whose
    precedence exceeds [imm], the call fails; on any other hit [ir],
    [cr], [lr] are taken from the answer, the log is cut at [rc] and
    extended by the responses of the memo, and the machine goes on
    after the call.  Without a hit an LrCall frame is pushed with the
    seed memo and the machine jumps to the callee. *)
Theorem call_with_precedence
    (U : unicode) (prog : program) p r d :
  decode (instructions prog) (pc r) = Ok d ->
  opcode_of_byte (d_op d) = Some opcode_call ->
  d_imm d <> 0 ->
  match memo_hit (lrmemo_stack_ p) (ir r) (d_pc d + d_off d) with
  | Some memo =>
      if (s_ir (sa memo) =? lrfailcode) || (d_imm d <? prec memo) then
        step U prog p r = goto_failure prog p (set_pc r (d_pc d))
      else
        exists sem,
          step U prog p r
          = Ok (Running, set_semantics p sem,
                mk_registers (s_ir (sa memo)) (s_cr (sa memo))
                  (s_lr (sa memo)) (zlen (responses_ sem)) (d_pc d) (fc r))
          /\ responses_ sem
             = firstn (Z.to_nat (rc r)) (responses_ (semantics_ p))
               ++ responses memo
  | None =>
      step U prog p r
      = Ok (Running,
            set_lrmemo_stack
              (set_stack_frames p (frame_lrcall :: stack_frames_ p))
              (mk_lrmemo (mk_subject (ir r) (cr r) (lr r))
                 (mk_subject lrfailcode 0 0) (rc r) (d_pc d)
                 (d_pc d + d_off d) [] (d_imm d) :: lrmemo_stack_ p),
            set_pc r (d_pc d + d_off d))
  end.
Proof.
  intros Hd Hop Himm. rewrite (step_decoded U prog p r d Hd).
  unfold exec. rewrite Hop. unfold exec_call.
  apply Z.eqb_neq in Himm. rewrite Himm. cbn [negb].
  cbn [ir cr lr rc pc fc set_pc]. rewrite find_memo_hit.
  destruct (memo_hit (lrmemo_stack_ p) (ir r) (d_pc d + d_off d))
    as [memo |]; [| reflexivity].
  destruct ((s_ir (sa memo) =? lrfailcode) || (d_imm d <? prec memo));
    [reflexivity |].
  destruct (restore_responses_after_log (semantics_ p) (rc r)
              (responses memo)) as [Hlog Hn].
  destruct (restore_responses_after (semantics_ p) (rc r) (responses memo))
    as [n sem]. cbn [fst snd] in *.
  exists sem. split; [| exact Hlog]. rewrite Hn, Hlog. reflexivity.
Qed.

Lemma call_with_precedence_witness :
  step sample_unicode lr_call (new_parser (lit "a"))
    (mk_registers 0 1 1 0 0 0)
  = Ok (Running,
        set_lrmemo_stack
          (set_stack_frames (new_parser (lit "a")) [frame_lrcall])
          [mk_lrmemo (mk_subject 0 1 1) (mk_subject lrfailcode 0 0) 0 2 5
             [] 1],
        mk_registers 0 1 1 0 5 0)
  /\ exists sem,
       step sample_unicode lr_call growing (mk_registers 0 1 1 0 0 0)
       = Ok (Running, set_semantics growing sem,
             mk_registers 1 2 1 (zlen (responses_ sem)) 2 0)
       /\ responses_ sem = [].
Proof.
  split.
  - exact (call_with_precedence sample_unicode lr_call
             (new_parser (lit "a")) (mk_registers 0 1 1 0 0 0)
             (mk_decoded 7 0 1 3 [] 2) eq_refl eq_refl
             (fun H => Z.neq_succ_diag_l 0 H)).
  - exact (call_with_precedence sample_unicode lr_call
             growing (mk_registers 0 1 1 0 0 0)
             (mk_decoded 7 0 1 3 [] 2) eq_refl eq_refl
             (fun H => Z.neq_succ_diag_l 0 H)).
Defined.

(** ** What [parse] can raise *)

Lemma bind_raise {A B} (m : res A) (f : A -> res B) x :
  bind m f = Raise x ->
  m = Raise x \/ exists a, m = Ok a /\ f a = Raise x.
Proof.
  destruct m; cbn [bind]; intros H;
    [right; eauto | left; congruence | discriminate].
Qed.

Ltac raise_step :=
  match goal with
  | H : Raise _ = Raise _ |- _ => inversion H; subst; clear H
  | H : Ok _ = Raise _ |- _ => discriminate H
  | H : Undef = Raise _ |- _ => discriminate H
  | H : of_option ?o = Raise _ |- _ => destruct o; discriminate H
  | H : nth_z ?l ?i = Raise _ |- _ =>
      unfold nth_z in H; destruct (i <? 0)
  | H : bind ?m _ = Raise _ |- _ =>
      let E := fresh "E" in
      destruct m eqn:E; cbn [bind] in H
  | H : (let '(_, _) := ?m in _) = Raise _ |- _ =>
      destruct m
  | H : (if ?b then _ else _) = Raise _ |- _ =>
      let E := fresh "E" in destruct b eqn:E
  | H : match ?m with _ => _ end = Raise _ |- _ =>
      let E := fresh "E" in destruct m eqn:E
  end.

Ltac raise_cases := repeat raise_step.

Lemma read_more_raises p x :
  read_more p = Raise x -> x = lug_exn reenterant_read_error.
Proof.
  unfold read_more. intros H. raise_cases. reflexivity.
Qed.

Lemma available_loop_raises turns : forall n i p x,
  available_loop turns n i p = Raise x -> x = lug_exn reenterant_read_error.
Proof.
  induction turns as [| turns IH]; intros n i p x H; cbn [available_loop] in H.
  - destruct (n <=? wsub (zlen (input_ p)) i); [discriminate |].
    destruct (i <? zlen (input_ p)); [discriminate |].
    apply bind_raise in H. destruct H as [H | [[more p'] [_ H]]].
    + exact (read_more_raises p x H).
    + destruct more; discriminate.
  - destruct (n <=? wsub (zlen (input_ p)) i); [discriminate |].
    destruct (i <? zlen (input_ p)); [discriminate |].
    apply bind_raise in H. destruct H as [H | [[more p'] [_ H]]].
    + exact (read_more_raises p x H).
    + destruct more; [exact (IH _ _ _ _ H) | discriminate].
Qed.

Lemma available_raises n i p x :
  available n i p = Raise x -> x = lug_exn reenterant_read_error.
Proof. apply available_loop_raises. Qed.

Lemma string_compare_raises input pos len str x :
  string_compare input pos len str = Raise x -> x = std_out_of_range.
Proof. unfold string_compare. intros H. raise_cases. reflexivity. Qed.

Lemma dispatch_raises acts caps response s x :
  dispatch acts caps response s = Raise x -> x = std_out_of_range.
Proof. unfold dispatch. intros H. raise_cases. reflexivity. Qed.

Lemma dispatch_all_raises acts caps rs : forall s x,
  dispatch_all acts caps rs s = Raise x -> x = std_out_of_range.
Proof.
  induction rs as [| response rs IH]; intros s x H; cbn [dispatch_all] in H.
  - discriminate.
  - apply bind_raise in H. destruct H as [H | [s' [_ H]]].
    + exact (dispatch_raises _ _ _ _ _ H).
    + exact (IH _ _ H).
Qed.

Lemma semantics_accept_raises acts caps m s x :
  semantics_accept acts caps m s = Raise x -> x = std_out_of_range.
Proof.
  unfold semantics_accept. intros H.
  apply bind_raise in H. destruct H as [H | [s' [_ H]]].
  - exact (dispatch_all_raises _ _ _ _ _ H).
  - discriminate.
Qed.

Lemma parser_accept_raises prog p r x :
  parser_accept prog p r = Raise x -> x = std_out_of_range.
Proof.
  unfold parser_accept. intros H.
  apply bind_raise in H. destruct H as [H | [s' [_ H]]].
  - exact (semantics_accept_raises _ _ _ _ _ H).
  - discriminate.
Qed.

Lemma pop_typed_raises k p x : pop_typed k p <> Raise x.
Proof. unfold pop_typed. intros H. raise_cases. Qed.

Lemma pop_stack_frame_raises prog k p r x :
  pop_stack_frame prog k p r = Raise x -> x = std_out_of_range.
Proof.
  unfold pop_stack_frame. intros H.
  apply bind_raise in H. destruct H as [H | [p' [_ H]]].
  - exfalso. exact (pop_typed_raises _ _ _ H).
  - destruct (stack_frames_ p'); [discriminate |].
    destruct k; raise_cases;
      match goal with
      | H : parser_accept _ _ _ = Raise _ |- _ =>
          exact (parser_accept_raises _ _ _ _ H)
      end.
Qed.

Lemma unwind_frame_raises prog f p r x :
  unwind_frame prog f p r = Raise x -> x = std_out_of_range.
Proof.
  unfold unwind_frame. intros H.
  apply bind_raise in H. destruct H as [H | [[p' r'] [_ H]]];
    [| discriminate].
  destruct f; raise_cases;
    match goal with
    | H : pop_stack_frame _ _ _ _ = Raise _ |- _ =>
        exact (pop_stack_frame_raises _ _ _ _ _ H)
    end.
Qed.

Lemma unwind_raises prog turns : forall p r x,
  unwind prog turns p r = Raise x -> x = std_out_of_range.
Proof.
  induction turns as [| turns IH]; intros p r x H; cbn [unwind] in H.
  - raise_cases.
  - destruct (fc r <=? 0); [discriminate |].
    destruct (zlen (stack_frames_ p) <=? cut_frame_ p); [discriminate |].
    destruct (stack_frames_ p) as [| f fs]; [discriminate |].
    apply bind_raise in H. destruct H as [H | [[p' r'] [_ H]]].
    + exact (unwind_frame_raises _ _ _ _ _ H).
    + exact (IH _ _ _ H).
Qed.

Lemma failure_raises prog p r x :
  failure prog p r = Raise x -> x = std_out_of_range.
Proof.
  unfold failure. intros H.
  apply bind_raise in H. destruct H as [H | [[[done p'] r'] [_ H]]].
  - exact (unwind_raises _ _ _ _ _ H).
  - discriminate.
Qed.

Lemma goto_failure_raises prog p r x :
  goto_failure prog p r = Raise x -> x = std_out_of_range.
Proof.
  unfold goto_failure. intros H.
  apply bind_raise in H. destruct H as [H | [[[done p'] r'] [_ H]]].
  - exact (failure_raises _ _ _ _ H).
  - discriminate.
Qed.

Lemma goto_failure_result prog p r st p' r' :
  goto_failure prog p r = Ok (st, p', r') -> st = Running \/ st = Done false.
Proof.
  unfold goto_failure. destruct (failure prog p r) as [[[done q] s] | |];
    cbn [bind]; intros H; try discriminate.
  inversion H; subst. destruct done; [right | left]; reflexivity.
Qed.

Lemma read_pf_raises code pc x : read_pf code pc <> Raise x.
Proof. unfold read_pf. intros H. raise_cases. Qed.

Lemma read_off_raises code pc x : read_off code pc <> Raise x.
Proof. unfold read_off. intros H. raise_cases. Qed.

Lemma read_str_words_raises code n : forall pc x,
  read_str_words code pc n <> Raise x.
Proof.
  induction n as [| n IH]; intros pc x H; cbn [read_str_words] in H.
  - discriminate.
  - destruct (code_at code pc) as [[] |]; try discriminate.
    apply bind_raise in H. destruct H as [H | [a [_ H]]].
    + exact (IH _ _ H).
    + discriminate.
Qed.

Lemma decode_raises code pc x : decode code pc <> Raise x.
Proof.
  unfold decode. intros H.
  apply bind_raise in H. destruct H as [H | [pf [_ H]]].
  - exact (read_pf_raises _ _ _ H).
  - apply bind_raise in H. destruct H as [H | [[off pc'] [_ H]]].
    + destruct (negb (Z.land (pf_aux pf) operands_off =? operands_none));
        [| discriminate].
      apply bind_raise in H. destruct H as [H | [o [_ H]]];
        [exact (read_off_raises _ _ _ H) | discriminate].
    + destruct (negb (Z.land (pf_aux pf) operands_str =? operands_none));
        [| discriminate].
      apply bind_raise in H. destruct H as [H | [w [_ H]]];
        [exact (read_str_words_raises _ _ _ _ H) | discriminate].
Qed.

Ltac loop_exception_tac :=
  match goal with
  | H : goto_failure _ _ _ = Raise _ |- _ =>
      left; exact (goto_failure_raises _ _ _ _ H)
  | H : available _ _ _ = Raise _ |- _ =>
      right; left; exact (available_raises _ _ _ _ H)
  | H : string_compare _ _ _ _ = Raise _ |- _ =>
      left; exact (string_compare_raises _ _ _ _ _ H)
  | H : pop_stack_frame _ _ _ _ = Raise _ |- _ =>
      left; exact (pop_stack_frame_raises _ _ _ _ _ H)
  | H : parser_accept _ _ _ = Raise _ |- _ =>
      left; exact (parser_accept_raises _ _ _ _ H)
  | |- loop_exception std_out_of_range => left; reflexivity
  | |- loop_exception (lug_exn bad_opcode) => right; right; reflexivity
  end.

Lemma class_query_raises U d record x :
  class_query U d record = Raise x -> x = lug_exn bad_opcode.
Proof.
  unfold class_query, decode_constant. intros H. raise_cases; reflexivity.
Qed.

Lemma exec_raises U prog d p r x :
  exec U prog d p r = Raise x -> loop_exception x.
Proof.
  unfold exec. intros H.
  destruct (opcode_of_byte (d_op d)) as [[] |].
  - unfold exec_match in H. raise_cases; loop_exception_tac.
  - unfold exec_match_any, input_from in H. raise_cases; loop_exception_tac.
  - unfold exec_match_class, input_from in H. raise_cases;
      try loop_exception_tac.
    right; right.
    match goal with
    | H : class_query _ _ _ = Raise _ |- _ =>
        exact (class_query_raises _ _ _ _ H)
    end.
  - unfold exec_match_range, input_from in H. raise_cases; loop_exception_tac.
  - discriminate.
  - unfold exec_commit, exec_jump in H. raise_cases; loop_exception_tac.
  - discriminate.
  - unfold exec_call in H. raise_cases; loop_exception_tac.
  - unfold exec_ret in H. raise_cases; loop_exception_tac.
  - unfold exec_fail in H. loop_exception_tac.
  - unfold exec_accept in H. raise_cases; loop_exception_tac.
  - discriminate.
  - unfold exec_predicate in H. raise_cases; loop_exception_tac.
  - unfold exec_action in H. raise_cases.
  - discriminate.
  - unfold exec_end_capture in H. raise_cases; loop_exception_tac.
  - inversion H. loop_exception_tac.
Qed.

Lemma step_raises U prog p r x :
  step U prog p r = Raise x -> loop_exception x.
Proof.
  unfold step. intros H.
  apply bind_raise in H. destruct H as [H | [d [_ H]]].
  - exfalso. exact (decode_raises _ _ _ H).
  - exact (exec_raises _ _ _ _ _ _ H).
Qed.

Lemma run_throws U prog fuel : forall p r x,
  run U prog fuel p r = Throws x -> loop_exception x.
Proof.
  induction fuel as [| fuel IH]; intros p r x H; cbn [run] in H.
  - discriminate.
  - destruct (step U prog p r) as [[[[| result] p'] r'] | e |] eqn:E.
    + exact (IH _ _ _ H).
    + discriminate.
    + inversion H; subst. exact (step_raises _ _ _ _ _ E).
    + discriminate.
Qed.

(** C4, as amended.  Of the errors of the library, a call to
    [parser::parse] raises only the two reentrancy errors, [bad_opcode]
    and - when the program of the grammar is empty - [bad_grammar].
    The failure handler raises none of them, and when it ends the parse
    the result is false. *)
Theorem parse_raises_only_documented_errors (U : unicode) (prog : program) :
  (forall fuel p e,
     parse U prog fuel p = Throws (lug_exn e) ->
     e = reenterant_parse_error \/ e = reenterant_read_error
     \/ e = bad_opcode \/ (e = bad_grammar /\ instructions prog = []))
  /\ (forall p r e, goto_failure prog p r <> Raise (lug_exn e))
  /\ (forall p r st p' r',
        goto_failure prog p r = Ok (st, p', r') ->
        st = Running \/ st = Done false).
Proof.
  split; [| split].
  - intros fuel p e H. unfold parse, parse_entry in H.
    destruct (parsing_ p).
    + inversion H. left. reflexivity.
    + destruct (is_nil (instructions prog)) eqn:E.
      * inversion H. right. right. right. split; [reflexivity |].
        apply is_nil_true. exact E.
      * apply run_throws in H. destruct H as [H | [H | H]];
          inversion H; auto.
  - intros p r e H. apply goto_failure_raises in H. discriminate.
  - intros p r st p' r'. apply goto_failure_result.
Qed.

Lemma parse_raises_only_documented_errors_witness :
  bad_grammar = reenterant_parse_error \/ bad_grammar = reenterant_read_error
  \/ bad_grammar = bad_opcode
  \/ (bad_grammar = bad_grammar /\ instructions empty_program = []).
Proof.
  exact (proj1 (parse_raises_only_documented_errors sample_unicode
                  empty_program)
           0%nat (new_parser (lit "a")) bad_grammar eq_refl).
Defined.

(** C4, as stated, fails: on the default-constructed grammar, whose
    program is empty, [parse] raises [bad_grammar]. *)
Lemma parse_of_empty_grammar_raises_bad_grammar :
  parse sample_unicode empty_program 1 (new_parser (lit "a"))
  = Throws (lug_exn bad_grammar)
  /\ ~ (forall (prog : program) fuel p x,
          parse sample_unicode prog fuel p = Throws x ->
          x = lug_exn reenterant_parse_error
          \/ x = lug_exn reenterant_read_error
          \/ x = lug_exn bad_opcode).
Proof.
  split; [reflexivity |].
  intros H.
  destruct (H empty_program 1%nat (new_parser (lit "a"))
              (lug_exn bad_grammar) eq_refl) as [E | [E | E]];
    discriminate E.
Qed.

(** Beside the errors of the library, the string comparison of [match]
    can raise [std::out_of_range]: [commit_back] restores an [ir] saved
    before a cut erased the prefix of the input. *)
Lemma parse_can_raise_out_of_range :
  lug_parse sample_unicode 20 (lit "a") (grammar_of cut_in_lookahead)
  = Throws std_out_of_range.
Proof. vm_compute. reflexivity. Qed.

(** ** Termination *)

Lemma run_step U prog n p r p' r' :
  step U prog p r = Ok (Running, p', r') ->
  run U prog (S n) p r = run U prog n p' r'.
Proof. intros H. cbn [run]. rewrite H. reflexivity. Qed.

Lemma star_eps_rule_encoded :
  make_rule [] None (e_star eps) = Ok star_eps_rule.
Proof. vm_compute. reflexivity. Qed.

Lemma star_eps_linked : start [star_eps_rule] 0 = Ok star_eps.
Proof. vm_compute. reflexivity. Qed.

Lemma star_eps_match text :
  step sample_unicode star_eps (star_eps_parser text) star_eps_at_match
  = Ok (Running, star_eps_parser text, star_eps_at_commit).
Proof. vm_compute. reflexivity. Qed.

Lemma star_eps_commit text :
  step sample_unicode star_eps (star_eps_parser text) star_eps_at_commit
  = Ok (Running, star_eps_parser text, star_eps_at_match).
Proof. vm_compute. reflexivity. Qed.

Lemma star_eps_loops text n :
  (exists p r,
     run sample_unicode star_eps n (star_eps_parser text) star_eps_at_match
     = Unfinished p r)
  /\ (exists p r,
        run sample_unicode star_eps n (star_eps_parser text)
          star_eps_at_commit
        = Unfinished p r).
Proof.
  induction n as [| n [IHm IHc]].
  - split; eexists; eexists; reflexivity.
  - rewrite (run_step _ _ n _ _ _ _ (star_eps_match text)).
    rewrite (run_step _ _ n _ _ _ _ (star_eps_commit text)).
    split; assumption.
Qed.

Lemma star_eps_enters_loop text n :
  lug_parse sample_unicode (S (S n)) text star_eps
  = run sample_unicode star_eps n (star_eps_parser text) star_eps_at_match.
Proof.
  unfold lug_parse, parse.
  replace (parse_entry star_eps (new_parser text))
    with (Ok (set_parsing (new_parser text) true, mk_registers 0 1 1 0 0 0))
    by (vm_compute; reflexivity).
  rewrite (run_step _ _ (S n) _ _
             (set_call_stack
                (set_stack_frames (set_parsing (new_parser text) true)
                   [frame_call]) [2])
             (mk_registers 0 1 1 0 3 0)) by (vm_compute; reflexivity).
  rewrite (run_step _ _ n _ _ (star_eps_parser text) star_eps_at_match)
    by (vm_compute; reflexivity).
  reflexivity.
Qed.

Lemma star_eps_never_finishes text fuel :
  exists p r,
    lug_parse sample_unicode fuel text star_eps = Unfinished p r.
Proof.
  destruct fuel as [| [| n]].
  - eexists; eexists; vm_compute; reflexivity.
  - eexists; eexists; vm_compute; reflexivity.
  - rewrite star_eps_enters_loop.
    exact (proj1 (star_eps_loops text n)).
Qed.

(** C2, as stated, fails: [start] of [*eps] is a grammar produced by
    [start], and on it [parse] runs forever - the loop body consumes
    nothing, and [commit_partial] jumps back to it with the machine in
    the state it had one turn before. *)
Lemma parse_of_star_eps_diverges :
  ~ (forall rules root g text,
       start rules root = Ok g ->
       exists fuel, finished (lug_parse sample_unicode fuel text g)).
Proof.
  intros H.
  destruct (H [star_eps_rule] 0%nat star_eps (lit "a") star_eps_linked)
    as [fuel Hf].
  destruct (star_eps_never_finishes (lit "a") fuel) as [p [r E]].
  rewrite E in Hf. exact Hf.
Qed.

(** What [parser::accept] leaves behind. *)
Lemma parser_accept_effect prog p r p' r' :
  parser_accept prog p r = Ok (p', r') ->
  input_ p' = skipn (Z.to_nat (ir r)) (input_ p)
  /\ r' = mk_registers 0 (cr r) (lr r) 0 (pc r) (fc r)
  /\ max_input_ p'
     = mk_subject 0 (s_cr (max_input_ p)) (s_lr (max_input_ p))
  /\ cut_deferred_ p' = false
  /\ cut_frame_ p' = zlen (stack_frames_ p)
  /\ responses_ (semantics_ p') = []
  /\ stack_frames_ p' = stack_frames_ p
  /\ backtrack_stack_ p' = backtrack_stack_ p
  /\ call_stack_ p' = call_stack_ p
  /\ capture_stack_ p' = capture_stack_ p
  /\ lrmemo_stack_ p' = lrmemo_stack_ p.
Proof.
  unfold parser_accept.
  destruct (semantics_accept (actions prog) (captures prog)
              (input_ (set_registers p
                         (mk_registers (ir r) (cr r) (lr r) (rc r) (pc r) 0)))
              (semantics_ (set_registers p
                         (mk_registers (ir r) (cr r) (lr r) (rc r) (pc r) 0))))
    as [sem | |] eqn:E; cbn [bind]; intros H; try discriminate.
  inversion H; subst; clear H. cbn.
  unfold semantics_accept in E.
  destruct (dispatch_all _ _ _ _) as [s' | |]; cbn [bind] in E;
    try discriminate.
  inversion E; subst. cbn. repeat split; reflexivity.
Qed.

Lemma pop_lrcall_effect prog p r memo older fs :
  stack_frames_ p = frame_lrcall :: fs ->
  lrmemo_stack_ p = memo :: older ->
  match pop_stack_frame prog frame_lrcall p r with
  | Ok (p', r') =>
      stack_frames_ p' = fs /\ lrmemo_stack_ p' = older /\ pc r' = pc r
      /\ (cut_deferred_ p = false -> r' = r)
  | Raise x => x = std_out_of_range /\ cut_deferred_ p = true
  | Undef => cut_deferred_ p = true
  end.
Proof.
  intros Hf Hl. unfold pop_stack_frame, pop_typed. rewrite Hl.
  cbn [bind stack_frames_ set_lrmemo_stack]. rewrite Hf.
  cbn [cut_deferred_ set_cut_frame set_stack_frames set_lrmemo_stack
       capture_stack_ lrmemo_stack_].
  destruct (cut_deferred_ p) eqn:Ec; cbn [andb].
  - destruct (is_nil (capture_stack_ p) && is_nil older).
    + match goal with
      | |- match ?m with _ => _ end => destruct m as [[p' r'] | x |] eqn:E
      end.
      * apply parser_accept_effect in E. cbn in E.
        destruct E as (_ & Er & _ & _ & _ & _ & Ef & _ & _ & _ & El).
        subst r'. cbn. repeat split; try assumption. discriminate.
      * apply parser_accept_raises in E. split; [exact E | reflexivity].
      * reflexivity.
    + cbn. repeat split.
  - cbn. repeat split.
Qed.

(** C2, as amended.  [parse] need not terminate (on [start] of [*eps] it
    runs forever).  What holds for the growing of a left-recursive seed
    is this: a [ret] on an LrCall frame either finds [ir] strictly
    beyond the answer of the memo (or finds no answer yet), stores [ir]
    as the new answer and starts the callee again at [pca] from the
    seed position, or it pops the LrCall frame and goes on at [pcr],
    which ends the growing. *)
Theorem lr_grow_advances_or_stops
    (U : unicode) (prog : program) p r d memo older fs :
  decode (instructions prog) (pc r) = Ok d ->
  opcode_of_byte (d_op d) = Some opcode_ret ->
  stack_frames_ p = frame_lrcall :: fs ->
  lrmemo_stack_ p = memo :: older ->
  (s_ir (sa memo) = lrfailcode \/ s_ir (sa memo) < ir r ->
   exists memo' sem,
     step U prog p r
     = Ok (Running,
           set_semantics (set_lrmemo_stack p (memo' :: older)) sem,
           mk_registers (s_ir (sr memo)) (s_cr (sr memo)) (s_lr (sr memo))
             (rcr memo) (pca memo) (fc r))
     /\ sa memo' = mk_subject (ir r) (cr r) (lr r)
     /\ sr memo' = sr memo /\ pca memo' = pca memo /\ pcr memo' = pcr memo
     /\ rcr memo' = rcr memo /\ prec memo' = prec memo)
  /\ (s_ir (sa memo) <> lrfailcode -> ir r <= s_ir (sa memo) ->
      match step U prog p r with
      | Ok (st, p', r') =>
          st = Running /\ stack_frames_ p' = fs /\ lrmemo_stack_ p' = older
          /\ pc r' = pcr memo
          /\ (cut_deferred_ p = false ->
              ir r' = s_ir (sa memo) /\ cr r' = s_cr (sa memo)
              /\ lr r' = s_lr (sa memo))
      | Raise x => x = std_out_of_range /\ cut_deferred_ p = true
      | Undef => cut_deferred_ p = true
      end).
Proof.
  intros Hd Hop Hf Hl. rewrite (step_decoded U prog p r d Hd).
  unfold exec. rewrite Hop. unfold exec_ret. rewrite Hf, Hl.
  cbn [ir cr lr rc pc fc set_pc]. split.
  - intros Hgrow.
    assert (E : (s_ir (sa memo) =? lrfailcode) || (s_ir (sa memo) <? ir r)
                = true).
    { destruct Hgrow as [H | H].
      - apply Z.eqb_eq in H. rewrite H. reflexivity.
      - apply Z.ltb_lt in H. rewrite H. apply orb_true_r. }
    rewrite E.
    destruct (drop_responses_after (semantics_ p) (rcr memo))
      as [dropped sem].
    eexists. eexists. split; [reflexivity |]. cbn. repeat split.
  - intros Hans Hle.
    assert (E : (s_ir (sa memo) =? lrfailcode) || (s_ir (sa memo) <? ir r)
                = false).
    { apply Z.eqb_neq in Hans. rewrite Hans.
      apply Z.ltb_ge in Hle. rewrite Hle. reflexivity. }
    rewrite E.
    destruct (restore_responses_after (semantics_ p) (rcr memo)
                (responses memo)) as [n sem].
    pose proof (pop_lrcall_effect prog (set_semantics p sem)
                  (mk_registers (s_ir (sa memo)) (s_cr (sa memo))
                     (s_lr (sa memo)) n (pcr memo) (fc r))
                  memo older fs Hf Hl) as Hpop.
    destruct (pop_stack_frame prog frame_lrcall (set_semantics p sem) _)
      as [[p' r'] | x |]; cbn [bind].
    + destruct Hpop as (H1 & H2 & H3 & H4). cbn in H3, H4.
      split; [reflexivity |]. split; [exact H1 |]. split; [exact H2 |].
      split; [exact H3 |].
      intros Hc. rewrite (H4 Hc). repeat split.
    + exact Hpop.
    + exact Hpop.
Qed.

Lemma lr_grow_advances_or_stops_witness :
  (exists memo' sem,
     step sample_unicode lone_ret growing (mk_registers 3 4 1 0 0 0)
     = Ok (Running,
           set_semantics (set_lrmemo_stack growing [memo']) sem,
           mk_registers 0 1 1 0 5 0)
     /\ sa memo' = mk_subject 3 4 1
     /\ sr memo' = sr memo_0_5 /\ pca memo' = pca memo_0_5
     /\ pcr memo' = pcr memo_0_5
     /\ rcr memo' = rcr memo_0_5 /\ prec memo' = prec memo_0_5)
  /\ match step sample_unicode lone_ret growing (mk_registers 1 2 1 0 0 0)
     with
     | Ok (st, p', r') =>
         st = Running /\ stack_frames_ p' = [] /\ lrmemo_stack_ p' = []
         /\ pc r' = pcr memo_0_5
         /\ (cut_deferred_ growing = false ->
             ir r' = s_ir (sa memo_0_5) /\ cr r' = s_cr (sa memo_0_5)
             /\ lr r' = s_lr (sa memo_0_5))
     | Raise x => x = std_out_of_range /\ cut_deferred_ growing = true
     | Undef => cut_deferred_ growing = true
     end.
Proof.
  split.
  - apply (proj1 (lr_grow_advances_or_stops sample_unicode lone_ret growing
                    (mk_registers 3 4 1 0 0 0) (mk_decoded 8 0 0 0 [] 1)
                    memo_0_5 [] [] eq_refl eq_refl eq_refl eq_refl)).
    right. reflexivity.
  - apply (proj2 (lr_grow_advances_or_stops sample_unicode lone_ret growing
                    (mk_registers 1 2 1 0 0 0) (mk_decoded 8 0 0 0 [] 1)
                    memo_0_5 [] [] eq_refl eq_refl eq_refl eq_refl)).
    + discriminate.
    + discriminate.
Defined.

(** ** Cuts: the furthest position and the capture ranges *)

(** C8 fails on the code.  On the input [abcd] the first alternative of
    [far_then_cut] fails at column 4, which [max_input_] records; the
    cut after the second alternative sets [max_input_.ir] to 0 and keeps
    the column, so the next failure, at column 3, overwrites the record:
    [max_input_position()] goes from column 4 back to column 3. *)
Theorem max_input_position_moves_back :
  option_map max_input_position
    (parser_of (lug_parse sample_unicode 9 (lit "abcd")
                  (grammar_of (start_expr far_then_cut))))
  = Some (mk_position 4 1)
  /\ option_map max_input_position
       (parser_of (lug_parse sample_unicode 10 (lit "abcd")
                     (grammar_of (start_expr far_then_cut))))
     = Some (mk_position 3 1)
  /\ result_of (lug_parse sample_unicode 10 (lit "abcd")
                  (grammar_of (start_expr far_then_cut)))
     = Some false
  /\ ~ position_le (mk_position 4 1) (mk_position 3 1).
Proof.
  split; [vm_compute; reflexivity |].
  split; [vm_compute; reflexivity |].
  split; [vm_compute; reflexivity |].
  unfold position_le. cbn [line column]. lia.
Qed.

(** C10 fails on the code.  In [cut_in_capture] the cut is deferred to
    the [end_capture]; there the accept erases [ab] from the input, and
    the capture range, computed from the positions saved before, is
    pushed afterwards: index 0 and size 2 now denote [cd] in the
    truncated buffer, and that is the text the capture action
    receives. *)
Theorem capture_range_after_deferred_cut_is_stale :
  option_map input_
    (parser_of (lug_parse sample_unicode 7 (lit "abcd")
                  (grammar_of (start_expr cut_in_capture))))
  = Some (lit "cd")
  /\ option_map (fun p => captures_ (semantics_ p))
       (parser_of (lug_parse sample_unicode 7 (lit "abcd")
                     (grammar_of (start_expr cut_in_capture))))
     = Some [mk_range 0 2 (mk_position 1 1) (mk_position 3 1)]
  /\ option_map
       (fun p =>
          match dispatched (grammar_of (start_expr cut_in_capture)) p with
          | Ok s => attributes_ s
          | _ => []
          end)
       (parser_of (lug_parse sample_unicode 7 (lit "abcd")
                     (grammar_of (start_expr cut_in_capture))))
     = Some [lit "cd"]
  /\ result_of (lug_parse sample_unicode 8 (lit "abcd")
                  (grammar_of (start_expr cut_in_capture)))
     = Some true.
Proof.
  split; [vm_compute; reflexivity |].
  split; [vm_compute; reflexivity |].
  split; [vm_compute; reflexivity |].
  vm_compute; reflexivity.
Qed.

(** ** Lookahead *)







(** The response log after the two lookaheads, for an operand with an
    action: [&e] keeps the response, [!!e] drops it. *)
Lemma and_keeps_responses_not_not_drops_them :
  option_map (fun p => responses_ (semantics_ p))
    (parser_of (lug_parse sample_unicode 5 (lit "a")
                  (grammar_of (start_expr (e_and (e_action eps push_empty))))))
  = Some [mk_response 1 0 uint_max]
  /\ option_map (fun p => responses_ (semantics_ p))
       (parser_of (lug_parse sample_unicode 6 (lit "a")
                     (grammar_of
                        (start_expr
                           (e_not (e_not (e_action eps push_empty)))))))
     = Some [].
Proof. split; vm_compute; reflexivity. Qed.

(** * Further properties of the code *)

Lemma zlen_app {A} (l1 l2 : list A) : zlen (l1 ++ l2) = zlen l1 + zlen l2.
Proof. unfold zlen. rewrite length_app. lia. Qed.

Lemma zlen_cons {A} (a : A) (l : list A) : zlen (a :: l) = 1 + zlen l.
Proof. unfold zlen. cbn [List.length]. lia. Qed.

Lemma zlen_nonneg {A} (l : list A) : 0 <= zlen l.
Proof. unfold zlen. lia. Qed.

(** ** Instruction words *)

Lemma shiftr_add_4 x : Z.shiftr (x + 4) 2 = Z.shiftr x 2 + 1.
Proof.
  rewrite !Z.shiftr_div_pow2 by lia. change (2 ^ 2) with 4.
  replace (x + 4) with (x + 1 * 4) by lia.
  rewrite Z.div_add by lia. reflexivity.
Qed.

(** X1.  [instruction::decode] and [instruction::length] agree: decoding
    the instruction at [pc] moves the program counter by the length that
    [instruction::length] computes from its prefix. *)
Theorem decode_advances_by_instruction_length code pc pf d :
  read_pf code pc = Ok pf ->
  decode code pc = Ok d ->
  d_pc d = pc + instruction_length pf.
Proof.
  intros Hpf Hd. unfold decode in Hd. rewrite Hpf in Hd. cbn [bind] in Hd.
  unfold instruction_length.
  destruct (negb (Z.land (pf_aux pf) operands_off =? operands_none)).
  - destruct (read_off code (pc + 1)) as [o | |]; cbn [bind] in Hd;
      try discriminate.
    destruct (negb (Z.land (pf_aux pf) operands_str =? operands_none)).
    + destruct (read_str_words code (pc + 1 + 1) _) as [w | |];
        cbn [bind] in Hd; try discriminate.
      inversion Hd; subst; cbn [d_pc]. rewrite shiftr_add_4. lia.
    + inversion Hd; subst; cbn [d_pc]. lia.
  - cbn [bind] in Hd.
    destruct (negb (Z.land (pf_aux pf) operands_str =? operands_none)).
    + destruct (read_str_words code (pc + 1) _) as [w | |];
        cbn [bind] in Hd; try discriminate.
      inversion Hd; subst; cbn [d_pc]. rewrite shiftr_add_4. lia.
    + inversion Hd; subst; cbn [d_pc]. lia.
Qed.

Lemma decode_advances_by_instruction_length_witness :
  d_pc (mk_decoded 0 0 1 0 (lit "a") 4)
  = 2 + instruction_length (mk_prefix 0 128 0).
Proof.
  exact (decode_advances_by_instruction_length (instructions lookahead_a) 2
           (mk_prefix 0 128 0) (mk_decoded 0 0 1 0 (lit "a") 4)
           eq_refl eq_refl).
Defined.

(** ** The UTF-8 helpers *)

Lemma find_lead_spec t :
  (find_lead t <= List.length t)%nat
  /\ Forall (fun b => is_lead b = false) (firstn (find_lead t) t)
  /\ ((find_lead t < List.length t)%nat ->
      exists b, nth_error t (find_lead t) = Some b /\ is_lead b = true).
Proof.
  induction t as [| c t (IH1 & IH2 & IH3)]; cbn [find_lead].
  - split; [cbn; lia |]. split; [constructor |]. cbn. lia.
  - destruct (is_lead c) eqn:E.
    + split; [cbn; lia |]. split; [constructor |].
      intros _. exists c. split; [reflexivity | exact E].
    + cbn [List.length firstn nth_error]. split; [lia |].
      split; [constructor; assumption |].
      intros H. apply IH3. lia.
Qed.

(** X2.  [utf8::size_of_first_rune] on a non-empty range: the size is at
    least 1 and at most the size of the range; the bytes of the rune
    after its first are continuation bytes, and the byte that follows
    the rune, when there is one, is a lead byte. *)
Theorem size_of_first_rune_spec c t :
  let n := size_of_first_rune (c :: t) in
  1 <= n <= zlen (c :: t)
  /\ Forall (fun b => is_lead b = false) (firstn (Z.to_nat (n - 1)) t)
  /\ (n < zlen (c :: t) ->
      exists b, nth_error (c :: t) (Z.to_nat n) = Some b
                /\ is_lead b = true).
Proof.
  cbn zeta. unfold size_of_first_rune, zlen. cbn [List.length].
  destruct (find_lead_spec t) as (H1 & H2 & H3).
  replace (Z.to_nat (Z.of_nat (S (find_lead t)) - 1)) with (find_lead t)
    by lia.
  rewrite Nat2Z.id. split; [lia |]. split; [exact H2 |].
  intros H. cbn [nth_error]. apply H3. lia.
Qed.

Lemma count_runes_from acc s :
  fold_left (fun l c => l + (if is_lead c then 1 else 0)) s acc
  = acc + lead_bytes s.
Proof.
  revert acc. unfold lead_bytes. induction s as [| c s IH]; intros acc.
  - cbn. lia.
  - cbn [fold_left filter]. rewrite IH. destruct (is_lead c).
    + rewrite zlen_cons. lia.
    + lia.
Qed.

(** X3.  [utf8::count_runes] counts the lead bytes: it is additive over
    concatenation, lies between 0 and the number of bytes, and the first
    rune of a range that starts with a lead byte counts as one rune. *)
Theorem count_runes_spec (a b : bytes) :
  count_runes (a ++ b) = count_runes a + count_runes b
  /\ 0 <= count_runes a <= zlen a
  /\ (forall c t, a = c :: t -> is_lead c = true ->
      count_runes (firstn (Z.to_nat (size_of_first_rune a)) a) = 1).
Proof.
  unfold count_runes. rewrite !count_runes_from. unfold lead_bytes.
  split; [| split].
  - rewrite filter_app. unfold zlen. rewrite length_app. lia.
  - unfold zlen. pose proof (filter_length_le is_lead a). lia.
  - intros c t -> Hc.
    unfold size_of_first_rune. rewrite Nat2Z.id. cbn [firstn filter].
    rewrite Hc.
    destruct (find_lead_spec t) as (_ & H2 & _).
    assert (E : filter is_lead (firstn (find_lead t) t) = []).
    { induction H2 as [| x l Hx Hl IH]; [reflexivity |].
      cbn [filter]. rewrite Hx. exact IH. }
    rewrite E. reflexivity.
Qed.

(** ** The response log *)

(** X4.  [semantics::drop_responses_after] followed by
    [semantics::restore_responses_after] at the same position gives the
    log back: the responses that a growing left-recursive call sets
    aside are the ones it restores. *)
Theorem drop_then_restore_responses (s : semantics) (n : Z) :
  let dropped := fst (drop_responses_after s n) in
  let s1 := snd (drop_responses_after s n) in
  responses_ s1 ++ dropped = responses_ s
  /\ responses_ (snd (restore_responses_after s1 n dropped)) = responses_ s
  /\ fst (restore_responses_after s1 n dropped) = zlen (responses_ s)
  /\ (n < zlen (responses_ s) -> 0 <= n -> zlen (responses_ s1) = n).
Proof.
  cbn zeta. unfold drop_responses_after.
  destruct (n <? zlen (responses_ s)) eqn:E; cbn [fst snd].
  - destruct (restore_responses_after_log
                (set_responses s (firstn (Z.to_nat n) (responses_ s))) n
                (skipn (Z.to_nat n) (responses_ s))) as [H1 H2].
    rewrite H2, H1. cbn [responses_ set_responses].
    rewrite firstn_firstn, Nat.min_id, firstn_skipn.
    repeat split. intros Hn H0. apply Z.ltb_lt in E. unfold zlen in *.
    rewrite length_firstn. lia.
  - destruct (restore_responses_after_log s n []) as [H1 H2].
    rewrite H2, H1. apply Z.ltb_ge in E. unfold zlen in E.
    rewrite !app_nil_r, firstn_all2 by lia.
    repeat split. intros Hn. unfold zlen in Hn. lia.
Qed.

(** X5.  The pruning of [semantics::accept]: the responses whose call
    depth is not below [prune_depth_] are passed over without calling
    their actions - after an action has called [escape()], the responses
    of its own call depth and deeper that follow are discarded, up to
    the first response of a smaller depth. *)
Theorem pruned_responses_are_skipped acts caps skipped rest s :
  Forall (fun r => prune_depth_ s <= call_depth r) skipped ->
  dispatch_all acts caps (skipped ++ rest) s = dispatch_all acts caps rest s.
Proof.
  induction 1 as [| r skipped Hr _ IH]; [reflexivity |].
  cbn [app dispatch_all]. unfold dispatch at 1.
  apply Z.leb_le in Hr. rewrite Hr. cbn [bind]. exact IH.
Qed.

Lemma pruned_responses_are_skipped_witness :
  dispatch_all [escape] [] ([mk_response 2 0 uint_max] ++ [])
    (escape (mk_semantics [] ushort_max 1 [] [] []))
  = dispatch_all [escape] [] []
      (escape (mk_semantics [] ushort_max 1 [] [] [])).
Proof.
  apply pruned_responses_are_skipped.
  constructor; [cbn; lia | constructor].
Defined.

Lemma size_of_first_rune_spec_witness :
  exists b, nth_error (lit "ab") (Z.to_nat 1) = Some b /\ is_lead b = true.
Proof.
  apply (proj2 (proj2 (size_of_first_rune_spec "a"%byte (lit "b")))).
  vm_compute. reflexivity.
Defined.

Lemma count_runes_spec_witness :
  count_runes (firstn (Z.to_nat (size_of_first_rune (lit "ab"))) (lit "ab"))
  = 1.
Proof.
  exact (proj2 (proj2 (count_runes_spec (lit "ab") []))
           "a"%byte (lit "b") eq_refl eq_refl).
Defined.

Lemma drop_then_restore_responses_witness :
  zlen (responses_
          (snd (drop_responses_after
                  (mk_semantics [] ushort_max 0
                     [mk_response 0 0 uint_max; mk_response 0 1 uint_max]
                     [] []) 1)))
  = 1.
Proof.
  apply (proj2 (proj2 (proj2
           (drop_then_restore_responses
              (mk_semantics [] ushort_max 0
                 [mk_response 0 0 uint_max; mk_response 0 1 uint_max]
                 [] []) 1)))).
  - vm_compute. reflexivity.
  - lia.
Defined.

(** ** Encoding and decoding *)

Lemma code_at_app pre x rest :
  code_at (pre ++ x :: rest) (zlen pre) = Some x.
Proof.
  unfold code_at, zlen.
  destruct (Z.of_nat (List.length pre) <? 0) eqn:E;
    [apply Z.ltb_lt in E; lia |].
  rewrite Nat2Z.id, nth_error_app2 by lia.
  rewrite Nat.sub_diag. reflexivity.
Qed.

Lemma do_append_emits d i :
  emits d ->
  do_append d i
  = Ok (set_enc_program d
          (set_instructions (enc_program d) (code_of d ++ [i]))).
Proof.
  unfold emits, do_append, code_of. destruct (kind d); try reflexivity.
  intros H. contradiction.
Qed.

Lemma opcode_of_byte_opcode_byte op : opcode_of_byte (opcode_byte op) = Some op.
Proof. destruct op; reflexivity. Qed.

Lemma aux_plain alt :
  Z.land (to_operands alt) operands_off = 0
  /\ Z.land (to_operands alt) operands_str = 0
  /\ Z.land (to_operands alt) operands_altcode = Z.land alt 63.
Proof.
  unfold to_operands, operands_off, operands_str, operands_altcode.
  rewrite <- !Z.land_assoc.
  change (Z.land 63 64) with 0. change (Z.land 63 128) with 0.
  change (Z.land 63 63) with 63. rewrite Z.land_0_r. repeat split.
Qed.

Lemma aux_off alt :
  Z.land (Z.lor operands_off (to_operands alt)) operands_off = 64
  /\ Z.land (Z.lor operands_off (to_operands alt)) operands_str = 0
  /\ Z.land (Z.lor operands_off (to_operands alt)) operands_altcode
     = Z.land alt 63.
Proof.
  destruct (aux_plain alt) as (H1 & H2 & H3).
  rewrite !Z.land_lor_distr_l, H1, H2, H3. repeat split.
Qed.

(** X6.  What [encoder::encode] appends is what [instruction::decode]
    reads back.  An instruction without operands is one word, and it
    decodes to its opcode, the altcode (its low six bits) and the
    immediate.  An instruction with an offset is two words and decodes
    to the same with the offset - unless the offset does not fit an
    [int], in which case the encoder raises [program_limit_error]. *)
Theorem encode_then_decode (op : opcode) (alt imm off : Z) (d : encoder) :
  emits d ->
  (exists d1,
     encode op alt imm d = Ok d1
     /\ zlen (code_of d1) = zlen (code_of d) + 1
     /\ forall rest,
          decode (code_of d1 ++ rest) (zlen (code_of d))
          = Ok (mk_decoded (opcode_byte op) (Z.land alt 63) imm 0 []
                  (zlen (code_of d) + 1)))
  /\ (int_min <= off <= int_max ->
      exists d2,
        encode_off op alt off imm d = Ok d2
        /\ zlen (code_of d2) = zlen (code_of d) + 2
        /\ forall rest,
             decode (code_of d2 ++ rest) (zlen (code_of d))
             = Ok (mk_decoded (opcode_byte op) (Z.land alt 63) imm off []
                     (zlen (code_of d) + 2)))
  /\ (off < int_min \/ int_max < off ->
      encode_off op alt off imm d = Raise (lug_exn program_limit_error)).
Proof.
  intros He. split; [| split].
  - unfold encode. rewrite (do_append_emits d _ He).
    eexists. split; [reflexivity |].
    unfold code_of. cbn [enc_program set_enc_program instructions
                         set_instructions].
    split; [rewrite zlen_app; reflexivity |].
    intros rest. rewrite <- app_assoc. cbn [app].
    unfold decode, read_pf. rewrite code_at_app. cbn [bind pf_aux pf_val pf_op].
    destruct (aux_plain alt) as (H1 & H2 & H3).
    rewrite H1, H2, H3. reflexivity.
  - intros Hoff. unfold encode_off. rewrite (do_append_emits d _ He).
    cbn [bind]. unfold offset_word.
    assert (E : (int_min <=? off) && (off <=? int_max) = true).
    { apply andb_true_intro. split; apply Z.leb_le; lia. }
    rewrite E. cbn [bind].
    rewrite do_append_emits by exact He.
    eexists. split; [reflexivity |].
    unfold code_of. cbn [enc_program set_enc_program instructions
                         set_instructions].
    split; [rewrite !zlen_app; change (zlen [_]) with 1; lia |].
    intros rest. rewrite <- !app_assoc. cbn [app].
    unfold decode, read_pf. rewrite code_at_app.
    cbn [bind pf_aux pf_val pf_op].
    destruct (aux_off alt) as (H1 & H2 & H3).
    rewrite H1, H2, H3. change (negb (64 =? operands_none)) with true.
    cbv iota. unfold read_off.
    replace (instructions (enc_program d)
             ++ I_pf (mk_prefix (opcode_byte op)
                        (Z.lor operands_off (to_operands alt)) imm)
             :: I_off off :: rest)
      with ((instructions (enc_program d)
             ++ [I_pf (mk_prefix (opcode_byte op)
                         (Z.lor operands_off (to_operands alt)) imm)])
            ++ I_off off :: rest)
      by (rewrite <- app_assoc; reflexivity).
    replace (zlen (instructions (enc_program d)) + 1)
      with (zlen (instructions (enc_program d)
                  ++ [I_pf (mk_prefix (opcode_byte op)
                              (Z.lor operands_off (to_operands alt)) imm)]))
      by (rewrite zlen_app; reflexivity).
    rewrite code_at_app. cbn [bind]. rewrite zlen_app.
    change (zlen [_]) with 1.
    replace (zlen (instructions (enc_program d)) + 1 + 1)
      with (zlen (instructions (enc_program d)) + 2) by lia.
    reflexivity.
  - intros Hoff. unfold encode_off. rewrite (do_append_emits d _ He).
    cbn [bind]. unfold offset_word.
    assert (E : (int_min <=? off) && (off <=? int_max) = false).
    { apply andb_false_iff. destruct Hoff; [left | right]; apply Z.leb_gt; lia. }
    rewrite E. reflexivity.
Qed.

Lemma encode_then_decode_witness :
  (exists d2,
     encode_off opcode_commit commit_back 1 0 (new_encoder rule_encoder)
     = Ok d2
     /\ zlen (code_of d2) = zlen (code_of (new_encoder rule_encoder)) + 2
     /\ forall rest,
          decode (code_of d2 ++ rest)
            (zlen (code_of (new_encoder rule_encoder)))
          = Ok (mk_decoded (opcode_byte opcode_commit) (Z.land commit_back 63)
                  0 1 [] (zlen (code_of (new_encoder rule_encoder)) + 2)))
  /\ encode_off opcode_jump 0 (2 ^ 31) 0 (new_encoder rule_encoder)
     = Raise (lug_exn program_limit_error).
Proof.
  assert (He : emits (new_encoder rule_encoder)) by discriminate.
  destruct (encode_then_decode opcode_commit commit_back 0 1
              (new_encoder rule_encoder) He) as (_ & H2 & _).
  destruct (encode_then_decode opcode_jump 0 0 (2 ^ 31)
              (new_encoder rule_encoder) He) as (_ & _ & H3).
  split.
  - apply H2. unfold int_min, int_max. lia.
  - apply H3. right. unfold int_max. lia.
Defined.

Lemma word_chars_length s : List.length (word_chars s) = 4%nat.
Proof.
  unfold word_chars. rewrite length_firstn, length_app, repeat_length. lia.
Qed.

Lemma word_chars_short s :
  (List.length s <= 4)%nat -> firstn (List.length s) (word_chars s) = s.
Proof.
  intros H. unfold word_chars. rewrite firstn_firstn.
  rewrite Nat.min_l by lia. rewrite firstn_app, Nat.sub_diag.
  cbn [firstn]. rewrite app_nil_r. apply firstn_all.
Qed.

Lemma word_chars_long s :
  (4 <= List.length s)%nat -> word_chars s = firstn 4 s.
Proof.
  intros H. unfold word_chars. rewrite firstn_app.
  replace (4 - List.length s)%nat with 0%nat by lia.
  cbn [firstn]. apply app_nil_r.
Qed.

Lemma word_chars_idem s : word_chars (word_chars s) = word_chars s.
Proof.
  rewrite (word_chars_long (word_chars s)) by (rewrite word_chars_length; lia).
  rewrite <- (word_chars_length s) at 1. apply firstn_all.
Qed.

Lemma string_words_are_words fuel : forall s,
  Forall is_string_word (string_words fuel s).
Proof.
  induction fuel as [| fuel IH]; intros s; cbn [string_words].
  - constructor.
  - constructor; [exact I |]. destruct (skipn 4 s); [constructor | apply IH].
Qed.

Lemma skipn_4_nil (s : bytes) : skipn 4 s = [] -> (List.length s <= 4)%nat.
Proof.
  intros H. pose proof (length_skipn 4 s) as L. rewrite H in L.
  cbn [List.length] in L. lia.
Qed.

Lemma string_words_chars fuel : forall s,
  (List.length s <= 4 * fuel)%nat -> (1 <= fuel)%nat ->
  firstn (List.length s) (chars_of_words (string_words fuel s)) = s.
Proof.
  induction fuel as [| fuel IH]; intros s Hlen Hfuel; [lia |].
  cbn [string_words chars_of_words]. unfold string_word at 1.
  rewrite word_chars_idem.
  destruct (skipn 4 s) as [| c rest] eqn:E.
  - cbn [chars_of_words]. rewrite app_nil_r.
    apply word_chars_short. apply skipn_4_nil. exact E.
  - assert (L : List.length (skipn 4 s) = (List.length s - 4)%nat)
      by apply length_skipn.
    rewrite E in L. cbn [List.length] in L.
    rewrite word_chars_long by lia.
    rewrite firstn_app, length_firstn.
    rewrite (firstn_all2 (n := List.length s) (firstn 4 s))
      by (rewrite length_firstn; lia).
    replace (List.length s - Nat.min 4 (List.length s))%nat
      with (List.length (c :: rest)) by (cbn [List.length]; lia).
    rewrite IH by (cbn [List.length]; lia).
    rewrite <- E. apply firstn_skipn.
Qed.

Lemma string_words_length fuel : forall s,
  (List.length s <= 4 * fuel)%nat -> (1 <= fuel)%nat ->
  Z.of_nat (List.length (string_words fuel s))
  = Z.shiftr (Z.max (zlen s) 1 - 1 + 4) 2.
Proof.
  induction fuel as [| fuel IH]; intros s Hlen Hfuel; [lia |].
  cbn [string_words List.length].
  rewrite Z.shiftr_div_pow2 by lia. change (2 ^ 2) with 4.
  destruct (skipn 4 s) as [| c rest] eqn:E.
  - apply skipn_4_nil in E. cbn [List.length]. unfold zlen.
    apply Z.div_unique with (r := Z.max (Z.of_nat (List.length s)) 1 - 1);
      lia.
  - assert (L : List.length (skipn 4 s) = (List.length s - 4)%nat)
      by apply length_skipn.
    rewrite E in L. cbn [List.length] in L.
    rewrite Nat2Z.inj_succ, IH by (cbn [List.length]; lia).
    rewrite Z.shiftr_div_pow2 by lia. change (2 ^ 2) with 4.
    unfold zlen. cbn [List.length].
    replace (Z.max (Z.of_nat (List.length s)) 1 - 1 + 4)
      with (Z.max (Z.of_nat (S (List.length rest))) 1 - 1 + 4 + 1 * 4) by lia.
    rewrite Z.div_add by lia. lia.
Qed.

Lemma append_string_words_emits fuel : forall s d,
  emits d -> (List.length s <= 4 * fuel)%nat -> (1 <= fuel)%nat ->
  append_string_words fuel s d
  = Ok (set_enc_program d
          (set_instructions (enc_program d)
             (code_of d ++ string_words fuel s))).
Proof.
  induction fuel as [| fuel IH]; intros s d He Hlen Hfuel; [lia |].
  cbn [append_string_words string_words].
  rewrite (do_append_emits d _ He). cbn [bind].
  destruct (skipn 4 s) as [| c rest] eqn:E; [reflexivity |].
  assert (L : List.length (skipn 4 s) = (List.length s - 4)%nat)
    by apply length_skipn.
  rewrite E in L. cbn [List.length] in L.
  rewrite IH; [| exact He | cbn [List.length]; lia | lia].
  unfold code_of, set_enc_program, set_instructions.
  cbn [enc_program instructions predicates actions captures matches_eps
       kind zero_length_ length_ enc_callees].
  rewrite <- app_assoc. reflexivity.
Qed.

Lemma read_string_words ws : forall pre rest,
  Forall is_string_word ws ->
  read_str_words (pre ++ ws ++ rest) (zlen pre) (List.length ws)
  = Ok (chars_of_words ws).
Proof.
  induction ws as [| w ws IH]; intros pre rest Hw; [reflexivity |].
  inversion Hw as [| w' ws' Hw1 Hw2]; subst.
  destruct w as [pf | o | s]; try contradiction.
  cbn [List.length read_str_words app chars_of_words].
  rewrite code_at_app.
  replace (pre ++ I_str s :: ws ++ rest) with ((pre ++ [I_str s]) ++ ws ++ rest)
    by (rewrite <- app_assoc; reflexivity).
  replace (zlen pre + 1) with (zlen (pre ++ [I_str s]))
    by (rewrite zlen_app; reflexivity).
  rewrite IH by assumption. reflexivity.
Qed.

Lemma packed_immediate a b :
  0 <= a < 256 -> 0 <= b < 256 ->
  let imm := (Z.lor (Z.shiftl a 8) b) mod 2 ^ 16 in
  Z.land imm 255 = b /\ Z.shiftr imm 8 = a.
Proof.
  intros Ha Hb. cbn zeta.
  rewrite <- Z.land_ones by lia.
  assert (Lb : Z.land b 255 = b).
  { change 255 with (Z.ones 8). rewrite Z.land_ones by lia.
    apply Z.mod_small. change (2 ^ 8) with 256. lia. }
  assert (La : Z.land a 255 = a).
  { change 255 with (Z.ones 8). rewrite Z.land_ones by lia.
    apply Z.mod_small. change (2 ^ 8) with 256. lia. }
  split.
  - rewrite <- Z.land_assoc. change (Z.land (Z.ones 16) 255) with 255.
    rewrite Z.land_lor_distr_l, Lb.
    change 255 with (Z.ones 8) at 1. rewrite Z.land_ones by lia.
    rewrite Z.shiftl_mul_pow2 by lia. rewrite Z.mod_mul by lia.
    reflexivity.
  - rewrite Z.shiftr_land. change (Z.shiftr (Z.ones 16) 8) with 255.
    rewrite Z.shiftr_lor. rewrite Z.shiftr_shiftl_l by lia.
    change (8 - 8) with 0. rewrite Z.shiftl_0_r.
    rewrite (Z.shiftr_div_pow2 b) by lia. change (2 ^ 8) with 256.
    rewrite Z.div_small by lia. rewrite Z.lor_0_r. exact La.
Qed.

(** X7.  A string instruction round trip.  For a subsequence of 1 to 256
    characters and a value from 1 to 256, [encode(op, val, subsequence)]
    appends a prefix and one string word for every four characters, and
    [instruction::decode] reads back the opcode, the value as immediate
    and the very characters.  An empty subsequence appends nothing; a
    value or a size over 256 raises [resource_limit_error]. *)
Theorem encode_string_then_decode (op : opcode) (val : Z) (s : bytes)
    (d : encoder) :
  emits d ->
  (s = [] -> encode_str op val s d = Ok d)
  /\ (s <> [] -> 1 <= val <= 256 -> zlen s <= 256 ->
      exists d1,
        encode_str op val s d = Ok d1
        /\ zlen (code_of d1)
           = zlen (code_of d) + 1 + Z.shiftr (zlen s + 3) 2
        /\ forall rest,
             decode (code_of d1 ++ rest) (zlen (code_of d))
             = Ok (mk_decoded (opcode_byte op) 0 val 0 s (zlen (code_of d1))))
  /\ (s <> [] -> val < 1 \/ 256 < val \/ 256 < zlen s ->
      encode_str op val s d = Raise (lug_exn resource_limit_error)).
Proof.
  intros He. split; [| split].
  - intros ->. reflexivity.
  - intros Hs Hval Hlen. unfold encode_str.
    apply is_nil_false in Hs. rewrite Hs. cbn [negb].
    unfold assure_in_range, maxstrlen.
    assert (E1 : (1 <=? val) && (val <=? 256) = true)
      by (apply andb_true_intro; split; apply Z.leb_le; lia).
    assert (Hpos : 1 <= zlen s).
    { destruct s; [discriminate |]. rewrite zlen_cons.
      pose proof (zlen_nonneg s). lia. }
    assert (E2 : (1 <=? zlen s) && (zlen s <=? 256) = true)
      by (apply andb_true_intro; split; apply Z.leb_le; lia).
    rewrite E1, E2. cbn [bind].
    rewrite (do_append_emits d _ He). cbn [bind].
    set (imm := (Z.lor (Z.shiftl (val - 1) 8) (zlen s - 1)) mod 2 ^ 16).
    set (d0 := set_enc_program d _).
    assert (He0 : emits d0) by exact He.
    assert (Hfuel : (List.length s <= 4 * List.length s)%nat) by lia.
    assert (Hone : (1 <= List.length s)%nat) by (unfold zlen in Hpos; lia).
    rewrite (append_string_words_emits (List.length s) s d0 He0 Hfuel Hone).
    eexists. split; [reflexivity |].
    unfold code_of, d0.
    cbn [enc_program set_enc_program instructions set_instructions].
    pose proof (string_words_length (List.length s) s Hfuel Hone) as Hn.
    rewrite Z.max_l in Hn by lia.
    replace (zlen s - 1 + 4) with (zlen s + 3) in Hn by lia.
    assert (Hn' : zlen (string_words (List.length s) s)
                  = Z.shiftr (zlen s + 3) 2) by exact Hn.
    split.
    + rewrite !zlen_app. change (zlen [_]) with 1. rewrite Hn'.
      reflexivity.
    + intros rest. rewrite <- !app_assoc. cbn [app].
      unfold decode, read_pf. rewrite code_at_app.
      cbn [bind pf_aux pf_val pf_op]. unfold code_of.
      change (negb (Z.land operands_str operands_off =? operands_none))
        with false.
      change (negb (Z.land operands_str operands_str =? operands_none))
        with true.
      cbv iota. cbn [bind].
      destruct (packed_immediate (val - 1) (zlen s - 1)) as [Hlo Hhi];
        [lia | lia |].
      fold imm in Hlo, Hhi. rewrite Hlo, Hhi.
      replace (zlen s - 1 + 4) with (zlen s + 3) by lia.
      rewrite <- Hn, Nat2Z.id.
      replace (instructions (enc_program d)
               ++ I_pf (mk_prefix (opcode_byte op) operands_str imm)
               :: string_words (List.length s) s ++ rest)
        with ((instructions (enc_program d)
               ++ [I_pf (mk_prefix (opcode_byte op) operands_str imm)])
              ++ string_words (List.length s) s ++ rest)
        by (rewrite <- app_assoc; reflexivity).
      replace (zlen (instructions (enc_program d)) + 1)
        with (zlen (instructions (enc_program d)
                    ++ [I_pf (mk_prefix (opcode_byte op) operands_str imm)]))
        by (rewrite zlen_app; reflexivity).
      rewrite read_string_words by apply string_words_are_words.
      cbn [bind].
      replace (Z.to_nat (zlen s - 1 + 1)) with (List.length s)
        by (unfold zlen; lia).
      rewrite string_words_chars by assumption.
      replace (val - 1 + 1) with val by lia.
      change (Z.land operands_str operands_altcode) with 0.
      do 2 f_equal.
      change (instructions (enc_program d)
              ++ I_pf (mk_prefix (opcode_byte op) operands_str imm)
              :: string_words (List.length s) s)
        with (instructions (enc_program d)
              ++ [I_pf (mk_prefix (opcode_byte op) operands_str imm)]
              ++ string_words (List.length s) s).
      rewrite !zlen_app. unfold zlen. lia.
  - intros Hs Hbad. unfold encode_str.
    apply is_nil_false in Hs. rewrite Hs. cbn [negb].
    unfold assure_in_range, maxstrlen.
    destruct ((1 <=? val) && (val <=? 256)) eqn:E1; [| reflexivity].
    cbn [bind].
    destruct ((1 <=? zlen s) && (zlen s <=? 256)) eqn:E2; [| reflexivity].
    apply andb_prop in E1. apply andb_prop in E2.
    destruct E1 as [A1 A2]. destruct E2 as [B1 B2].
    apply Z.leb_le in A1, A2, B1, B2. lia.
Qed.

Lemma encode_string_then_decode_witness :
  exists d1,
    encode_str opcode_match 5 (lit "hello") (new_encoder rule_encoder) = Ok d1
    /\ zlen (code_of d1)
       = zlen (code_of (new_encoder rule_encoder)) + 1
         + Z.shiftr (zlen (lit "hello") + 3) 2
    /\ forall rest,
         decode (code_of d1 ++ rest)
           (zlen (code_of (new_encoder rule_encoder)))
         = Ok (mk_decoded (opcode_byte opcode_match) 0 5 0 (lit "hello")
                 (zlen (code_of d1))).
Proof.
  assert (He : emits (new_encoder rule_encoder)) by discriminate.
  apply (proj1 (proj2 (encode_string_then_decode opcode_match 5
                         (lit "hello") (new_encoder rule_encoder) He))).
  - discriminate.
  - lia.
  - vm_compute. discriminate.
Defined.

(** ** [program::concatenate] *)

Lemma bind_ok {A B} (m : res A) (f : A -> res B) (b : B) :
  bind m f = Ok b -> exists a, m = Ok a /\ f a = Ok b.
Proof. destruct m; cbn; intros H; try discriminate. eauto. Qed.

Lemma instruction_length_pos pf : 1 <= instruction_length pf.
Proof.
  unfold instruction_length.
  assert (0 <= Z.shiftr (Z.land (pf_val pf) 255) 2).
  { apply Z.shiftr_nonneg, Z.land_nonneg. right. lia. }
  destruct (negb _); destruct (negb _); lia.
Qed.

Lemma concatenate_loop_appends fuel :
  forall npred nact ncap src acc code,
    concatenate_loop fuel npred nact ncap src acc = Ok code ->
    exists tail,
      code = acc ++ tail
      /\ List.length tail = List.length src
      /\ (npred = 0 -> nact = 0 -> ncap = 0 -> tail = src).
Proof.
  induction fuel as [| fuel IH]; intros np na nc src acc code H.
  - destruct src as [| [pf | o | s] rest]; cbn in H; try discriminate.
    inversion H. exists []. rewrite app_nil_r. auto.
  - destruct src as [| [pf | o | s] rest]; cbn [concatenate_loop] in H;
      try discriminate.
    + inversion H. exists []. rewrite app_nil_r. auto.
    + apply bind_ok in H. destruct H as (pf' & Hpf & H).
      pose proof (instruction_length_pos pf) as Hpos.
      destruct (Z.to_nat (instruction_length pf)) as [| m] eqn:En; [lia |].
      destruct (Nat.ltb (List.length (I_pf pf :: rest)) (S m)) eqn:E;
        try discriminate.
      apply Nat.ltb_ge in E. cbn [List.length] in E.
      apply IH in H. destruct H as (tail & -> & Hlen & Hsame).
      cbn [firstn skipn] in *.
      exists (I_pf pf' :: firstn m rest ++ tail).
      split; [rewrite <- app_assoc; reflexivity |]. split.
      * cbn [List.length]. rewrite length_app, Hlen, length_firstn,
          length_skipn. lia.
      * intros -> -> ->. rewrite (Hsame eq_refl eq_refl eq_refl).
        rewrite firstn_skipn.
        assert (Hv : pf' = pf).
        { destruct (opcode_of_byte (pf_op pf)) as [[] |];
            cbn in Hpf; congruence. }
        rewrite Hv. reflexivity.
Qed.

Lemma concatenate_code dst src q :
  concatenate dst src = Ok q ->
  exists tail,
    instructions q = instructions dst ++ tail
    /\ zlen tail = zlen (instructions src).
Proof.
  unfold concatenate. intros H.
  apply bind_ok in H. destruct H as (n & _ & H).
  apply bind_ok in H. destruct H as (code & Hcode & H).
  inversion H; subst q; clear H. cbn [instructions].
  apply concatenate_loop_appends in Hcode.
  destruct Hcode as (tail & -> & Hlen & _).
  exists tail. split; [reflexivity |]. unfold zlen. rewrite Hlen.
  reflexivity.
Qed.

(** X8.  [program::concatenate] only appends: the instructions of the
    destination stay in front, exactly as many instructions as the
    source has are added, the three side tables of the source go behind
    those of the destination, and the result matches the empty string
    only if both do.  When the side tables of the destination are empty
    the added instructions are those of the source, unchanged. *)
Theorem concatenate_appends dst src q :
  concatenate dst src = Ok q ->
  (exists tail,
     instructions q = instructions dst ++ tail
     /\ zlen tail = zlen (instructions src)
     /\ (predicates dst = [] -> actions dst = [] -> captures dst = [] ->
         tail = instructions src))
  /\ predicates q = predicates dst ++ predicates src
  /\ actions q = actions dst ++ actions src
  /\ captures q = captures dst ++ captures src
  /\ matches_eps q = matches_eps dst && matches_eps src.
Proof.
  unfold concatenate. intros H.
  apply bind_ok in H. destruct H as (n & _ & H).
  apply bind_ok in H. destruct H as (code & Hcode & H).
  inversion H; subst q; clear H. cbn [instructions predicates actions
    captures matches_eps].
  apply concatenate_loop_appends in Hcode.
  destruct Hcode as (tail & -> & Hlen & Hsame).
  split; [| repeat split].
  exists tail. split; [reflexivity |]. split.
  - unfold zlen. rewrite Hlen. reflexivity.
  - intros Hp Ha Hc. apply Hsame; [rewrite Hp | rewrite Ha | rewrite Hc];
      reflexivity.
Qed.

Lemma concatenate_appends_witness :
  actions (mk_program
             [I_pf (mk_prefix 13 0 0); I_pf (mk_prefix 0 128 0);
              I_str (lit "a"); I_pf (mk_prefix 13 0 1)]
             [] [escape; clear] [] false)
  = actions (mk_program [I_pf (mk_prefix 13 0 0)] [] [escape] [] true)
    ++ actions (mk_program [I_pf (mk_prefix 0 128 0); I_str (lit "a");
                            I_pf (mk_prefix 13 0 0)] [] [clear] [] false).
Proof.
  apply (concatenate_appends
           (mk_program [I_pf (mk_prefix 13 0 0)] [] [escape] [] true)
           (mk_program [I_pf (mk_prefix 0 128 0); I_str (lit "a");
                        I_pf (mk_prefix 13 0 0)] [] [clear] [] false)).
  vm_compute. reflexivity.
Defined.

Lemma skipn_length_app {A} (l1 l2 : list A) :
  skipn (List.length l1) (l1 ++ l2) = l2.
Proof. induction l1 as [| a l1 IH]; [reflexivity | exact IH]. Qed.

Lemma firstn_length_app {A} (l1 l2 : list A) :
  firstn (List.length l1) (l1 ++ l2) = l1.
Proof.
  induction l1 as [| a l1 IH]; [reflexivity |]. cbn. rewrite IH. reflexivity.
Qed.




(** ** The length evaluator *)

Lemma checked_add_ok e max x y n : checked_add e max x y = Ok n -> n = x + y.
Proof.
  unfold checked_add. destruct (max - x <? y); intros H; inversion H.
  reflexivity.
Qed.

Lemma do_append_grows d i d' : do_append d i = Ok d' -> grows d d' 1.
Proof.
  unfold do_append, grows, do_length. destruct (kind d) eqn:K; intros H.
  - apply bind_ok in H. destruct H as (n & Hn & H).
    apply checked_add_ok in Hn. inversion H; subst d'. cbn. rewrite ?K.
    exact Hn.
  - inversion H; subst d'. cbn. rewrite ?K, zlen_app. reflexivity.
  - inversion H; subst d'. cbn. rewrite ?K, zlen_app. reflexivity.
  - inversion H; subst d'. cbn. rewrite ?K, zlen_app. reflexivity.
Qed.

Lemma do_append_program_grows d q d' :
  do_append_program d q = Ok d' -> grows d d' (zlen (instructions q)).
Proof.
  unfold do_append_program, grows, do_length.
  destruct (kind d) eqn:K; intros H; try discriminate.
  - apply bind_ok in H. destruct H as (n & Hn & H).
    apply checked_add_ok in Hn. inversion H; subst d'. cbn. rewrite ?K.
    exact Hn.
  - apply bind_ok in H. destruct H as (g & Hg & H).
    inversion H; subst d'. cbn. rewrite ?K.
    apply concatenate_code in Hg.
    destruct Hg as (tail & -> & Hlen).
    rewrite zlen_app, Hlen. reflexivity.
  - apply bind_ok in H. destruct H as (g & Hg & H).
    inversion H; subst d'. cbn. rewrite ?K.
    apply concatenate_code in Hg.
    destruct Hg as (tail & -> & Hlen).
    rewrite zlen_app, Hlen. reflexivity.
Qed.

Lemma set_zero_length_grows d z : grows d (set_zero_length d z) 0.
Proof. unfold grows, do_length. cbn. lia. Qed.

Lemma zclr_grows c d d' : zclr c d = Ok d' -> grows d d' 0.
Proof.
  unfold zclr. destruct c.
  - destruct (zero_length_ d); intros H; inversion H.
    apply set_zero_length_grows.
  - intros H; inversion H. unfold grows. lia.
Qed.

Lemma zpop_grows d d' : zpop d = Ok d' -> grows d d' 0.
Proof.
  unfold zpop. destruct (zero_length_ d); intros H; inversion H.
  apply set_zero_length_grows.
Qed.

Lemma zpsh_grows n d d' : zpsh n d = Ok d' -> grows d d' 0.
Proof.
  unfold zpsh. destruct n; [discriminate |].
  destruct (nth_error _ _); intros H; inversion H.
  apply set_zero_length_grows.
Qed.

Lemma zand_grows n d d' : zand n d = Ok d' -> grows d d' 0.
Proof.
  unfold zand. destruct (Nat.leb _ _); [discriminate |].
  destruct (skipn _ _); intros H; inversion H.
  apply set_zero_length_grows.
Qed.

Lemma add_callee_grows target e n d d' :
  add_callee target e n d = Ok d' -> grows d d' 0.
Proof.
  unfold add_callee. destruct (zero_length_ d); intros H; inversion H.
  unfold grows, do_add_callee, do_length. cbn.
  destruct (kind d) eqn:K; cbn; rewrite ?K; lia.
Qed.

Lemma do_add_semantic_predicate_grows d f imm d' :
  do_add_semantic_predicate d f = Ok (imm, d') -> grows d d' 0.
Proof.
  unfold do_add_semantic_predicate, grows.
  destruct (has_tables d); intros H.
  - apply bind_ok in H. destruct H as (u & _ & H). inversion H.
    unfold do_length. cbn. lia.
  - inversion H. lia.
Qed.

Lemma do_add_semantic_action_grows d f imm d' :
  do_add_semantic_action d f = Ok (imm, d') -> grows d d' 0.
Proof.
  unfold do_add_semantic_action, grows.
  destruct (has_tables d); intros H.
  - apply bind_ok in H. destruct H as (u & _ & H). inversion H.
    unfold do_length. cbn. lia.
  - inversion H. lia.
Qed.

Lemma do_add_semantic_capture_action_grows d f imm d' :
  do_add_semantic_capture_action d f = Ok (imm, d') -> grows d d' 0.
Proof.
  unfold do_add_semantic_capture_action, grows.
  destruct (has_tables d); intros H.
  - apply bind_ok in H. destruct H as (u & _ & H). inversion H.
    unfold do_length. cbn. lia.
  - inversion H. lia.
Qed.

Lemma encode_grows op alt imm d d' :
  encode op alt imm d = Ok d' -> grows d d' 1.
Proof. apply do_append_grows. Qed.

Lemma encode_off_grows op alt off imm d d' :
  encode_off op alt off imm d = Ok d' -> grows d d' 2.
Proof.
  unfold encode_off. intros H.
  apply bind_ok in H. destruct H as (d0 & H0 & H).
  apply bind_ok in H. destruct H as (w & _ & H).
  apply do_append_grows in H0, H. unfold grows in *. lia.
Qed.

Lemma append_string_words_grows fuel :
  forall s d d',
    append_string_words fuel s d = Ok d' ->
    grows d d' (zlen (string_words fuel s)).
Proof.
  induction fuel as [| fuel IH]; intros s d d' H; [discriminate |].
  cbn [append_string_words string_words] in *.
  apply bind_ok in H. destruct H as (d0 & H0 & H).
  apply do_append_grows in H0. rewrite zlen_cons.
  destruct (skipn 4 s) as [| c rest].
  - inversion H; subst d'. unfold grows in *. cbn. lia.
  - apply IH in H. unfold grows in *. lia.
Qed.

Lemma encode_str_grows op val s d d' :
  encode_str op val s d = Ok d' ->
  grows d d' (if is_nil s then 0
              else 1 + zlen (string_words (List.length s) s)).
Proof.
  unfold encode_str. destruct (is_nil s); cbn [negb]; intros H.
  - inversion H. unfold grows. lia.
  - apply bind_ok in H. destruct H as (u1 & _ & H).
    apply bind_ok in H. destruct H as (u2 & _ & H).
    apply bind_ok in H. destruct H as (d0 & H0 & H).
    apply do_append_grows in H0. apply append_string_words_grows in H.
    unfold grows in *. lia.
Qed.

Lemma encoder_match_loop_alike fuel :
  forall s d d1 d' d1',
    encoder_match_loop fuel s d = Ok d1 ->
    encoder_match_loop fuel s d' = Ok d1' ->
    alike d d1 d' d1'.
Proof.
  induction fuel as [| fuel IH]; intros s d d1 d' d1' H H';
    cbn [encoder_match_loop] in H, H'.
  - destruct (maxstrlen <? zlen s); [discriminate |].
    apply bind_ok in H. destruct H as (d0 & H0 & H).
    apply bind_ok in H'. destruct H' as (d0' & H0' & H').
    apply encode_str_grows in H0, H0'. apply zclr_grows in H, H'.
    unfold alike, grows in *. lia.
  - destruct (maxstrlen <? zlen s).
    + apply bind_ok in H. destruct H as (d0 & H0 & H).
      apply bind_ok in H'. destruct H' as (d0' & H0' & H').
      apply encode_str_grows in H0, H0'.
      pose proof (IH _ _ _ _ _ H H') as HI.
      unfold alike, grows in *. lia.
    + apply bind_ok in H. destruct H as (d0 & H0 & H).
      apply bind_ok in H'. destruct H' as (d0' & H0' & H').
      apply encode_str_grows in H0, H0'. apply zclr_grows in H, H'.
      unfold alike, grows in *. lia.
Qed.

Lemma encoder_match_alike s d d1 d' d1' :
  encoder_match s d = Ok d1 -> encoder_match s d' = Ok d1' ->
  alike d d1 d' d1'.
Proof. apply encoder_match_loop_alike. Qed.

Lemma encoder_match_range_alike a b d d1 d' d1' :
  encoder_match_range a b d = Ok d1 ->
  encoder_match_range a b d' = Ok d1' ->
  alike d d1 d' d1'.
Proof.
  unfold encoder_match_range. destruct (bytes_eqb a b).
  - apply encoder_match_alike.
  - intros H H'.
    apply bind_ok in H. destruct H as (d0 & H0 & H).
    apply bind_ok in H'. destruct H' as (d0' & H0' & H').
    apply encode_str_grows in H0, H0'. apply zclr_grows in H, H'.
    unfold alike, grows in *. lia.
Qed.

Ltac step_in H :=
  let d0 := fresh "d0" in
  let H0 := fresh "H0" in
  apply bind_ok in H; destruct H as (d0 & H0 & H).

Ltac grow_facts :=
  repeat match goal with
    | H : encode_off _ _ _ _ _ = Ok _ |- _ => apply encode_off_grows in H
    | H : encode _ _ _ _ = Ok _ |- _ => apply encode_grows in H
    | H : zclr _ _ = Ok _ |- _ => apply zclr_grows in H
    | H : zpop _ = Ok _ |- _ => apply zpop_grows in H
    | H : zpsh _ _ = Ok _ |- _ => apply zpsh_grows in H
    | H : zand _ _ = Ok _ |- _ => apply zand_grows in H
    | H : do_add_semantic_predicate _ _ = Ok _ |- _ =>
        apply do_add_semantic_predicate_grows in H
    | H : do_add_semantic_action _ _ = Ok _ |- _ =>
        apply do_add_semantic_action_grows in H
    | H : do_add_semantic_capture_action _ _ = Ok _ |- _ =>
        apply do_add_semantic_capture_action_grows in H
    | H : add_callee _ _ _ _ = Ok _ |- _ => apply add_callee_grows in H
    | H : do_append_program _ _ = Ok _ |- _ =>
        apply do_append_program_grows in H
    end.

Ltac step_as H d0 H0 :=
  apply bind_ok in H; destruct H as (d0 & H0 & H).

Lemma eol_code_alike d d1 d' d1' :
  eol_code d = Ok d1 -> eol_code d' = Ok d1' -> alike d d1 d' d1'.
Proof.
  unfold eol_code. intros H H'.
  step_as H a1 A1. step_as H a2 A2. step_as H a3 A3. step_as H a4 A4.
  step_as H a5 A5. step_as H a6 A6. step_as H a7 A7.
  step_as H' b1 B1. step_as H' b2 B2. step_as H' b3 B3. step_as H' b4 B4.
  step_as H' b5 B5. step_as H' b6 B6. step_as H' b7 B7.
  pose proof (encoder_match_alike _ _ _ _ _ A2 B2).
  pose proof (encoder_match_alike _ _ _ _ _ A4 B4).
  pose proof (encoder_match_alike _ _ _ _ _ A6 B6).
  clear A2 A4 A6 B2 B4 B6.
  grow_facts. unfold alike, grows in *. lia.
Qed.

Ltac pair_alike A B :=
  first
    [ pose proof (encoder_match_alike _ _ _ _ _ A B); clear A B
    | pose proof (encoder_match_range_alike _ _ _ _ _ _ A B); clear A B
    | pose proof (eol_code_alike _ _ _ _ A B); clear A B
    | match goal with
      | IHx : forall d d1 d' d1', _ -> _ -> alike d d1 d' d1' |- _ =>
          pose proof (IHx _ _ _ _ A B); clear A B
      end
    | idtac ].

Ltac split_pair a :=
  lazymatch type of a with
  | (_ * _)%type => destruct a
  | _ => idtac
  end.

Ltac both H H' :=
  lazymatch type of H with
  | bind _ _ = Ok _ =>
      let a := fresh "a" in
      let A := fresh "A" in
      let b := fresh "b" in
      let B := fresh "B" in
      apply bind_ok in H; destruct H as (a & A & H);
      apply bind_ok in H'; destruct H' as (b & B & H');
      split_pair a; split_pair b; pair_alike A B
  end.

Ltac alike_tac H H' :=
  repeat both H H'; pair_alike H H'; grow_facts;
  unfold alike, grows in *; lia.

Lemma encoder_call_alike rules self target prec_ inl d d1 d' d1' :
  encoder_call rules self target prec_ inl d = Ok d1 ->
  encoder_call rules self target prec_ inl d' = Ok d1' ->
  alike d d1 d' d1'.
Proof.
  unfold encoder_call. intros H H'.
  step_as H r Hr. step_as H' r' Hr'.
  rewrite Hr in Hr'. inversion Hr'; subst r'. clear Hr'.
  match type of H with (if ?c then _ else _) = _ => destruct c end;
    alike_tac H H'.
Qed.

Lemma evaluate_alike rules self e :
  forall d d1 d' d1',
    evaluate rules self e d = Ok d1 ->
    evaluate rules self e d' = Ok d1' ->
    alike d d1 d' d1'.
Proof.
  induction e; intros d d1 d' d1' H H'; cbn [evaluate] in H, H';
    try (alike_tac H H').
  eapply encoder_call_alike; eassumption.
Qed.

(** X10.  The length evaluator predicts the encoders: the length that
    [evaluate_length] computes for an expression, by running it on an
    [instruction_length_evaluator], is the number of instructions that
    evaluating the same expression appends to any encoder.  The jump
    offsets of the operators are computed from that length. *)
Theorem evaluate_length_is_emitted_length rules self e l d d1 :
  evaluate rules self e (new_encoder instruction_length_evaluator) = Ok l ->
  evaluate rules self e d = Ok d1 ->
  do_length d1 = do_length d + do_length l.
Proof.
  intros Hl Hd. pose proof (evaluate_alike _ _ _ _ _ _ _ Hl Hd) as H.
  unfold alike in H.
  change (do_length (new_encoder instruction_length_evaluator)) with 0 in H.
  lia.
Qed.

Lemma evaluate_length_is_emitted_length_witness :
  exists l d1,
    evaluate [] None (e_alt (e_star (chr "a")) (e_not eol))
      (new_encoder instruction_length_evaluator) = Ok l
    /\ evaluate [] None (e_alt (e_star (chr "a")) (e_not eol))
         (new_encoder rule_encoder) = Ok d1
    /\ do_length d1 = do_length (new_encoder rule_encoder) + do_length l.
Proof.
  eexists. eexists. split; [vm_compute; reflexivity |].
  split; [vm_compute; reflexivity |].
  apply (evaluate_length_is_emitted_length [] None
           (e_alt (e_star (chr "a")) (e_not eol)));
    vm_compute; reflexivity.
Defined.

(** ** The linker *)

Lemma concatenate_loop_whole src :
  whole_instructions src ->
  forall fuel acc,
    (List.length src <= fuel)%nat ->
    concatenate_loop fuel 0 0 0 src acc = Ok (acc ++ src).
Proof.
  induction 1 as [| pf ws rest Hws _ IH]; intros fuel acc Hfuel.
  - destruct fuel; cbn; rewrite app_nil_r; reflexivity.
  - destruct fuel as [| fuel]; [cbn in Hfuel; lia |].
    cbn [concatenate_loop].
    replace (negb (match opcode_of_byte (pf_op pf) with
                   | Some opcode_predicate => 0
                   | Some opcode_action => 0
                   | Some opcode_end_capture => 0
                   | _ => 0
                   end =? 0)) with false
      by (destruct (opcode_of_byte (pf_op pf)) as [[] |]; reflexivity).
    cbn [bind].
    pose proof (instruction_length_pos pf) as Hpos.
    assert (En : Z.to_nat (instruction_length pf) = S (List.length ws))
      by (unfold zlen in Hws; lia).
    rewrite En.
    replace (Nat.ltb (List.length (I_pf pf :: ws ++ rest))
               (S (List.length ws))) with false
      by (symmetry; apply Nat.ltb_ge; cbn [List.length];
          rewrite length_app; lia).
    cbn [firstn skipn]. rewrite skipn_length_app, firstn_length_app.
    rewrite IH.
    + rewrite <- app_assoc. reflexivity.
    + cbn [List.length] in Hfuel. rewrite length_app in Hfuel. lia.
Qed.

(** X11.  [start] on a start rule that calls no other rule: the linked
    program is the call of the rule with offset 1 and precedence 0, the
    final accept, the code of the rule unchanged, and a return; the side
    tables and the empty-match flag are those of the rule. *)
Theorem start_of_leaf_rule rules root r :
  nth_error rules root = Some r ->
  callees_ r = [] ->
  whole_instructions (instructions (program_ r)) ->
  zlen (instructions (program_ r)) <= size_max - 3 ->
  start rules root = Ok (leaf_grammar r).
Proof.
  intros Hr Hc Hw Hsz. unfold start, encoder_call. rewrite Hr.
  cbn [of_option bind is_self andb].
  unfold add_callee, new_encoder. cbn.
  unfold link_bound. cbn [link_loop unprocessed lookup addresses bind].
  rewrite ?Hr. cbn [of_option bind].
  unfold concatenate.
  cbn [instructions predicates actions captures grprogram matches_eps].
  unfold checked_add.
  assert (E : (size_max - 3 <? zlen (instructions (program_ r))) = false)
    by (apply Z.ltb_ge; lia).
  change (zlen [_; _; _]) with 3. rewrite E.
  cbn [bind]. change (zlen (@nil semantic_predicate)) with 0.
  change (zlen (@nil semantic_action)) with 0.
  change (zlen (@nil semantic_capture)) with 0.
  rewrite (concatenate_loop_whole _ Hw) by lia.
  cbn [bind]. rewrite Hc. cbn.
  change (read_off _ 1) with (@Ok Z 0). rewrite Nat.eqb_refl.
  change (Pos.to_nat 1) with 1%nat. cbn.
  unfold leaf_grammar. rewrite Bool.andb_diag. reflexivity.
Qed.

Lemma start_of_leaf_rule_witness :
  start [mk_rule (mk_program [I_pf (mk_prefix 0 128 0); I_str (lit "a")]
                    [] [] [] false) []] 0
  = Ok (leaf_grammar
          (mk_rule (mk_program [I_pf (mk_prefix 0 128 0); I_str (lit "a")]
                      [] [] [] false) [])).
Proof.
  apply start_of_leaf_rule.
  - reflexivity.
  - reflexivity.
  - apply (whole_cons (mk_prefix 0 128 0) [I_str (lit "a")] []);
      [vm_compute; reflexivity | constructor].
  - vm_compute. discriminate.
Defined.

(** ** Reading input *)

Lemma wsub_small a b :
  0 <= b <= a -> a <= size_max -> wsub a b = a - b.
Proof.
  intros H1 H2. unfold wsub, wrap. unfold size_max in H2.
  apply Z.mod_small. lia.
Qed.

Lemma read_sources_empty srcs srcs' :
  read_sources srcs = ([], srcs') -> srcs' = [].
Proof.
  induction srcs as [| s srcs IH]; cbn [read_sources]; intros H.
  - inversion H. reflexivity.
  - destruct (call_source s) as [[| c text] [s' |]];
      try (apply IH; exact H); discriminate.
Qed.

Lemma available_loop_sound turns :
  forall n i p b p',
    available_loop turns n i p = Ok (b, p') ->
    0 <= i <= zlen (input_ p) ->
    zlen (input_ p') <= size_max ->
    (exists text, input_ p' = input_ p ++ text)
    /\ (b = true -> n <= zlen (input_ p') - i)
    /\ (b = false ->
        zlen (input_ p') - i < n
        /\ (i < zlen (input_ p') \/ sources_ p' = []))
    /\ (i < zlen (input_ p) -> p' = p).
Proof.
  induction turns as [| turns IH]; intros n i p b p' H Hi Hmax;
    cbn [available_loop] in H.
  - destruct (n <=? wsub (zlen (input_ p)) i) eqn:E1.
    { inversion H; subst b p'. rewrite wsub_small in E1 by lia.
      apply Z.leb_le in E1.
      split; [exists []; rewrite app_nil_r; reflexivity |].
      split; [intros _; exact E1 |]. split; [discriminate | reflexivity]. }
    destruct (i <? zlen (input_ p)) eqn:E2.
    { inversion H; subst b p'. rewrite wsub_small in E1 by lia.
      apply Z.leb_gt in E1. apply Z.ltb_lt in E2.
      split; [exists []; rewrite app_nil_r; reflexivity |].
      split; [discriminate |]. split; [intros _; split; [lia | left; lia] |].
      reflexivity. }
    apply Z.ltb_ge in E2.
    apply bind_ok in H. destruct H as ([more p1] & Hread & H).
    unfold read_more in Hread. destruct (reading_ p); [discriminate |].
    destruct (read_sources (sources_ p)) as [text srcs] eqn:Es.
    inversion Hread; subst more p1; clear Hread.
    destruct text as [| c text]; cbn [negb] in H; [| discriminate].
    inversion H; subst b p'; clear H. apply read_sources_empty in Es.
    cbn [input_ sources_ set_sources set_input] in *.
    rewrite app_nil_r in *. rewrite wsub_small in E1 by lia.
    apply Z.leb_gt in E1.
    split; [exists []; rewrite app_nil_r; reflexivity |].
    split; [discriminate |].
    split; [intros _; split; [lia | right; exact Es] | lia].
  - destruct (n <=? wsub (zlen (input_ p)) i) eqn:E1.
    { inversion H; subst b p'. rewrite wsub_small in E1 by lia.
      apply Z.leb_le in E1.
      split; [exists []; rewrite app_nil_r; reflexivity |].
      split; [intros _; exact E1 |]. split; [discriminate | reflexivity]. }
    destruct (i <? zlen (input_ p)) eqn:E2.
    { inversion H; subst b p'. rewrite wsub_small in E1 by lia.
      apply Z.leb_gt in E1. apply Z.ltb_lt in E2.
      split; [exists []; rewrite app_nil_r; reflexivity |].
      split; [discriminate |]. split; [intros _; split; [lia | left; lia] |].
      reflexivity. }
    apply Z.ltb_ge in E2.
    apply bind_ok in H. destruct H as ([more p1] & Hread & H).
    unfold read_more in Hread. destruct (reading_ p); [discriminate |].
    destruct (read_sources (sources_ p)) as [text srcs] eqn:Es.
    inversion Hread; subst more p1; clear Hread.
    destruct text as [| c text]; cbn [negb] in H.
    + inversion H; subst b p'; clear H. apply read_sources_empty in Es.
      cbn [input_ sources_ set_sources set_input] in *.
      rewrite app_nil_r in *. rewrite wsub_small in E1 by lia.
      apply Z.leb_gt in E1.
      split; [exists []; rewrite app_nil_r; reflexivity |].
      split; [discriminate |].
      split; [intros _; split; [lia | right; exact Es] | lia].
    + apply IH in H; [| | exact Hmax].
      * cbn [input_ set_sources set_input] in H.
        destruct H as ((more & Hin) & Ht & Hf & _).
        split; [exists ((c :: text) ++ more); rewrite Hin, app_assoc;
                reflexivity |].
        split; [exact Ht |]. split; [exact Hf | lia].
      * cbn [input_ set_sources set_input]. rewrite zlen_app.
        pose proof (zlen_nonneg (c :: text)). lia.
Qed.

(** X12.  [parser::available(n, ir)] for a position inside the input or
    at its end: the input only grows at its end; the answer [true] means
    that [n] more characters are there from [ir]; the answer [false]
    means that they are not, and that either [ir] is before the end of
    the input or no source is left; and when [ir] is before the end of
    the input nothing is read at all. *)
Theorem available_is_sound n i p b p' :
  available n i p = Ok (b, p') ->
  0 <= i <= zlen (input_ p) ->
  zlen (input_ p') <= size_max ->
  (exists text, input_ p' = input_ p ++ text)
  /\ (b = true -> n <= zlen (input_ p') - i)
  /\ (b = false ->
      zlen (input_ p') - i < n
      /\ (i < zlen (input_ p') \/ sources_ p' = []))
  /\ (i < zlen (input_ p) -> p' = p).
Proof. apply available_loop_sound. Qed.

Lemma available_is_sound_witness :
  (exists text,
     lit "abcd"
     = input_ (set_sources (new_parser (lit "ab")) [[(lit "cd", false)]])
       ++ text)
  /\ (true = true -> 2 <= zlen (lit "abcd") - 2)
  /\ (true = false ->
      zlen (lit "abcd") - 2 < 2
      /\ (2 < zlen (lit "abcd") \/ @nil source = []))
  /\ (2 < zlen (input_ (set_sources (new_parser (lit "ab"))
                          [[(lit "cd", false)]])) ->
      set_sources (set_input (new_parser (lit "ab")) (lit "abcd")) []
      = set_sources (new_parser (lit "ab")) [[(lit "cd", false)]]).
Proof.
  apply (available_is_sound 2 2
           (set_sources (new_parser (lit "ab")) [[(lit "cd", false)]])
           true
           (set_sources (set_input (new_parser (lit "ab")) (lit "abcd")) [])).
  - vm_compute. reflexivity.
  - vm_compute. split; discriminate.
  - vm_compute. discriminate.
Defined.

(** ** Matching *)

Lemma byte_val_inj x y : byte_val x = byte_val y -> x = y.
Proof.
  unfold byte_val. intros H. apply N2Z.inj in H.
  pose proof (Byte.of_to_N x) as Hx. rewrite H, Byte.of_to_N in Hx.
  congruence.
Qed.

Lemma traits_compare_eq a : forall b, traits_compare a b = Eq <-> a = b.
Proof.
  induction a as [| x a IH]; intros [| y b]; cbn [traits_compare];
    try (split; [reflexivity || discriminate | reflexivity || discriminate]).
  destruct (Z.compare_spec (byte_val x) (byte_val y)) as [E | E | E].
  - apply byte_val_inj in E. subst y. rewrite IH.
    split; [intros -> | intros H; inversion H]; reflexivity.
  - split; [discriminate | intros H; inversion H; subst; lia].
  - split; [discriminate | intros H; inversion H; subst; lia].
Qed.

Lemma substr_length s pos len :
  0 <= pos <= zlen s -> zlen (substr s pos len) <= zlen s - pos.
Proof.
  intros H. unfold substr, zlen in *.
  rewrite length_firstn, length_skipn. lia.
Qed.

Lemma available_at_end_without_sources n p :
  sources_ p = [] -> reading_ p = false ->
  wsub (zlen (input_ p)) (zlen (input_ p)) < n ->
  available n (zlen (input_ p)) p = Ok (false, p).
Proof.
  intros Hs Hr Hn. unfold available. rewrite Hs. cbn [pending fold_right].
  cbn [available_loop].
  apply Z.leb_gt in Hn. rewrite Hn, Z.ltb_irrefl.
  unfold read_more. rewrite Hr, Hs. cbn [read_sources bind negb].
  rewrite app_nil_r. destruct p. cbn in *. subst. reflexivity.
Qed.

(** X13.  The [match] instruction on a parser without input sources, at
    a position inside the input or at its end: when the input has the
    string of the instruction at [ir], the instruction moves [ir] behind
    it (without wrap-around) and adds its immediate to the column; in
    every other case, too little input included, it goes to the failure
    handler with the parser and the registers unchanged. *)
Theorem match_consumes_its_string prog d p r :
  d_str d <> [] ->
  sources_ p = [] -> reading_ p = false ->
  0 <= ir r <= zlen (input_ p) -> zlen (input_ p) <= size_max ->
  (substr (input_ p) (ir r) (zlen (d_str d)) = d_str d ->
   exec_match prog d p r
   = Ok (Running, p,
         set_subject r (ir r + zlen (d_str d)) (wadd (cr r) (d_imm d))
           (lr r)))
  /\ (substr (input_ p) (ir r) (zlen (d_str d)) <> d_str d ->
      exec_match prog d p r = goto_failure prog p r).
Proof.
  intros Hstr Hs Hr Hi Hmax.
  pose proof (substr_length (input_ p) (ir r) (zlen (d_str d)) Hi) as Hlen.
  unfold exec_match. apply is_nil_false in Hstr. rewrite Hstr. cbn [negb].
  unfold available. rewrite Hs. cbn [pending fold_right available_loop].
  rewrite wsub_small by lia.
  destruct (zlen (d_str d) <=? zlen (input_ p) - ir r) eqn:E1.
  - cbn [bind negb]. unfold string_compare.
    replace (zlen (input_ p) <? ir r) with false
      by (symmetry; apply Z.ltb_ge; lia).
    cbn [bind]. apply Z.leb_le in E1. split.
    + intros Heq. rewrite Heq.
      replace (traits_compare (d_str d) (d_str d)) with Eq
        by (symmetry; apply traits_compare_eq; reflexivity).
      cbn [is_eq negb]. unfold wadd, wrap.
      rewrite (Z.mod_small (ir r + zlen (d_str d)))
        by (unfold size_max in Hmax; pose proof (zlen_nonneg (d_str d));
            lia).
      reflexivity.
    + intros Hne.
      destruct (traits_compare _ (d_str d)) eqn:Ec; try reflexivity.
      apply traits_compare_eq in Ec. contradiction.
  - apply Z.leb_gt in E1.
    assert (Hne : substr (input_ p) (ir r) (zlen (d_str d)) <> d_str d)
      by (intros Heq; rewrite Heq in Hlen; lia).
    split; [intros Heq; contradiction |]. intros _.
    destruct (ir r <? zlen (input_ p)) eqn:E2; [reflexivity |].
    apply Z.ltb_ge in E2.
    unfold read_more. rewrite Hr, Hs. cbn [read_sources bind negb].
    rewrite app_nil_r.
    replace (set_sources (set_input p (input_ p)) []) with p
      by (destruct p; cbn in *; subst; reflexivity).
    reflexivity.
Qed.

Lemma match_consumes_its_string_witness :
  exec_match empty_program (mk_decoded 0 0 2 0 (lit "bc") 3)
    (new_parser (lit "abcd")) (mk_registers 1 2 1 0 3 0)
  = Ok (Running, new_parser (lit "abcd"),
        set_subject (mk_registers 1 2 1 0 3 0) (1 + zlen (lit "bc"))
          (wadd 2 2) 1).
Proof.
  apply (match_consumes_its_string empty_program
           (mk_decoded 0 0 2 0 (lit "bc") 3) (new_parser (lit "abcd"))
           (mk_registers 1 2 1 0 3 0)).
  - discriminate.
  - reflexivity.
  - reflexivity.
  - vm_compute. split; discriminate.
  - vm_compute. discriminate.
  - reflexivity.
Defined.

(** X14.  A position behind the end of the input is not noticed by
    [parser::available]: its unsigned subtraction wraps around and it
    answers [true].  The [match] instruction then raises
    [std::out_of_range] from [input_.compare] instead of failing, and
    [match_any] reads behind the end of the input. *)
Theorem stale_position_is_not_a_failure prog d p r :
  zlen (input_ p) < ir r <= size_max ->
  available 1 (ir r) p = Ok (true, p)
  /\ (d_str d <> [] -> zlen (d_str d) <= maxstrlen ->
      ir r - zlen (input_ p) <= size_max - maxstrlen ->
      exec_match prog d p r = Raise std_out_of_range)
  /\ exec_match_any prog d p r = Undef.
Proof.
  intros Hi. pose proof (zlen_nonneg (input_ p)) as H0.
  assert (Hw : wsub (zlen (input_ p)) (ir r)
               = 2 ^ 64 - (ir r - zlen (input_ p))).
  { unfold wsub, wrap. unfold size_max in Hi.
    replace (zlen (input_ p) - ir r)
      with (2 ^ 64 - (ir r - zlen (input_ p)) + (-1) * 2 ^ 64) by lia.
    rewrite Z.mod_add by lia. apply Z.mod_small. lia. }
  assert (Ha : forall n, n <= 2 ^ 64 - (ir r - zlen (input_ p)) ->
               available n (ir r) p = Ok (true, p)).
  { intros n Hn. unfold available.
    destruct (pending (sources_ p)); cbn [available_loop]; rewrite Hw;
      apply Z.leb_le in Hn; rewrite Hn; reflexivity. }
  assert (Hlt : (zlen (input_ p) <? ir r) = true) by (apply Z.ltb_lt; lia).
  split; [apply Ha; unfold size_max in Hi; lia |]. split.
  - intros Hstr Hlen Hfar. unfold exec_match.
    apply is_nil_false in Hstr. rewrite Hstr. cbn [negb].
    rewrite Ha by (unfold size_max, maxstrlen in *; lia).
    cbn [bind negb]. unfold string_compare. rewrite Hlt. reflexivity.
  - unfold exec_match_any.
    rewrite Ha by (unfold size_max in Hi; lia).
    cbn [bind negb]. unfold input_from. rewrite Hlt. reflexivity.
Qed.

Lemma stale_position_is_not_a_failure_witness :
  available 1 3 (new_parser (lit "a")) = Ok (true, new_parser (lit "a"))
  /\ (lit "a" <> [] -> zlen (lit "a") <= maxstrlen ->
      3 - zlen (lit "a") <= size_max - maxstrlen ->
      exec_match empty_program (mk_decoded 0 0 1 0 (lit "a") 2)
        (new_parser (lit "a")) (mk_registers 3 1 1 0 2 0)
      = Raise std_out_of_range)
  /\ exec_match_any empty_program (mk_decoded 0 0 1 0 (lit "a") 2)
       (new_parser (lit "a")) (mk_registers 3 1 1 0 2 0)
     = Undef.
Proof.
  apply (stale_position_is_not_a_failure empty_program
           (mk_decoded 0 0 1 0 (lit "a") 2) (new_parser (lit "a"))
           (mk_registers 3 1 1 0 2 0)).
  vm_compute. split; [reflexivity | discriminate].
Defined.

(** ** The failure handler *)

Lemma unwind_passes prog fs b bs skipped :
  forall p r turns,
    stack_frames_ p = skipped ++ frame_backtrack :: fs ->
    forallb passed_over skipped = true ->
    (count_frames frame_call skipped <= List.length (call_stack_ p))%nat ->
    (count_frames frame_capture skipped
     <= List.length (capture_stack_ p))%nat ->
    backtrack_stack_ p = b :: bs ->
    cut_frame_ p <= zlen fs -> cut_deferred_ p = false -> fc r = 1 ->
    (List.length (stack_frames_ p) <= turns)%nat ->
    exists p',
      unwind prog turns p r
      = Ok (false, p',
            mk_registers (bt_ir b) (bt_cr b) (bt_lr b) (bt_rc b) (bt_pc b) 0)
      /\ stack_frames_ p' = fs /\ backtrack_stack_ p' = bs
      /\ call_stack_ p'
         = skipn (count_frames frame_call skipped) (call_stack_ p)
      /\ capture_stack_ p'
         = skipn (count_frames frame_capture skipped) (capture_stack_ p)
      /\ lrmemo_stack_ p' = lrmemo_stack_ p
      /\ input_ p' = input_ p /\ semantics_ p' = semantics_ p
      /\ max_input_ p' = max_input_ p /\ cut_frame_ p' = cut_frame_ p.
Proof.
  induction skipped as [| f skipped IH];
    intros p r turns Hfs Hall Hcall Hcap Hbt Hcut Hdef Hfc Hturns.
  - cbn [app] in Hfs. rewrite Hfs in Hturns.
    destruct turns as [| turns]; [cbn in Hturns; lia |].
    cbn [unwind]. rewrite Hfc. cbn [Z.leb Z.compare].
    rewrite Hfs.
    replace (zlen (frame_backtrack :: fs) <=? cut_frame_ p) with false
      by (symmetry; apply Z.leb_gt; rewrite zlen_cons; lia).
    unfold unwind_frame. rewrite Hbt. unfold pop_stack_frame.
    cbn [pop_typed]. rewrite Hbt. cbn [bind stack_frames_ set_backtrack_stack].
    rewrite Hfs. cbn [bind fc set_fc]. rewrite Hfc.
    change (wsub 1 1) with 0. cbn [ir cr lr rc pc].
    destruct turns; cbn [unwind fc Z.leb Z.compare];
      (eexists; split; [reflexivity |]);
      cbn; rewrite ?Z.min_l by lia; repeat split; reflexivity.
  - cbn [app] in Hfs. rewrite Hfs in Hturns.
    destruct turns as [| turns]; [cbn in Hturns; lia |].
    cbn [forallb] in Hall. apply andb_prop in Hall.
    destruct Hall as [Hf Hall].
    cbn [unwind]. rewrite Hfc. cbn [Z.leb Z.compare]. rewrite Hfs.
    replace (zlen (f :: skipped ++ frame_backtrack :: fs) <=? cut_frame_ p)
      with false
      by (symmetry; apply Z.leb_gt; rewrite zlen_cons, zlen_app, zlen_cons;
          pose proof (zlen_nonneg skipped); lia).
    destruct f; try discriminate; unfold count_frames in Hcall, Hcap;
      cbn [filter frame_eqb List.length] in Hcall, Hcap.
    + destruct (call_stack_ p) as [| ra cs] eqn:Ecs;
        [cbn in Hcall; lia |].
      unfold unwind_frame, pop_stack_frame. cbn [pop_typed]. rewrite Ecs.
      cbn [bind stack_frames_ set_call_stack]. rewrite Hfs.
      cbn [bind fc set_fc]. rewrite Hfc.
      change (wsub (wadd 1 1) 1) with 1.
      match goal with
      | |- exists p', unwind prog turns ?p1 ?r1 = _ /\ _ =>
          destruct (IH p1 r1 turns) as (p' & Hun & H1 & H2 & H3 & H4 & H5
                                        & H6 & H7 & H8 & H9)
      end; cbn; try assumption; try reflexivity.
      * cbn [List.length] in Hcall. unfold count_frames. lia.
      * rewrite Z.min_l; [exact Hcut |].
        rewrite zlen_app, zlen_cons. pose proof (zlen_nonneg skipped). lia.
      * cbn [List.length] in Hturns. lia.
      * exists p'. split; [exact Hun |]. cbn in H3, H4, H5, H6, H7, H8, H9.
        unfold count_frames. cbn [filter frame_eqb List.length skipn].
        rewrite H9, Z.min_l
          by (rewrite zlen_app, zlen_cons; pose proof (zlen_nonneg skipped);
              lia).
        repeat split; assumption.
    + destruct (capture_stack_ p) as [| s0 ks] eqn:Eks;
        [cbn in Hcap; lia |].
      unfold unwind_frame, pop_stack_frame. cbn [pop_typed]. rewrite Eks.
      cbn [bind stack_frames_ set_capture_stack]. rewrite Hfs.
      cbn [cut_deferred_ set_cut_frame set_stack_frames set_capture_stack].
      rewrite Hdef. cbn [andb bind fc set_fc]. rewrite Hfc.
      change (wsub (wadd 1 1) 1) with 1.
      match goal with
      | |- exists p', unwind prog turns ?p1 ?r1 = _ /\ _ =>
          destruct (IH p1 r1 turns) as (p' & Hun & H1 & H2 & H3 & H4 & H5
                                        & H6 & H7 & H8 & H9)
      end; cbn; try assumption; try reflexivity.
      * cbn [List.length] in Hcap. unfold count_frames. lia.
      * rewrite Z.min_l; [exact Hcut |].
        rewrite zlen_app, zlen_cons. pose proof (zlen_nonneg skipped). lia.
      * cbn [List.length] in Hturns. lia.
      * exists p'. split; [exact Hun |]. cbn in H3, H4, H5, H6, H7, H8, H9.
        unfold count_frames. cbn [filter frame_eqb List.length skipn].
        rewrite H9, Z.min_l
          by (rewrite zlen_app, zlen_cons; pose proof (zlen_nonneg skipped);
              lia).
        repeat split; assumption.
Qed.

(** X15.  A failure under call and capture frames: when the frames above
    the newest backtrack frame are call and capture frames, all of them
    above the cut, and no accept is deferred, the failure handler pops
    them with their entries on the call and the capture stack, pops the
    backtrack frame, and goes on at the alternative that the frame
    recorded, with the subject and the response count of the frame; the
    response log is cut back to that count and the input is kept. *)
Theorem failure_resumes_at_newest_backtrack prog p r skipped fs b bs :
  stack_frames_ p = skipped ++ frame_backtrack :: fs ->
  forallb passed_over skipped = true ->
  (count_frames frame_call skipped <= List.length (call_stack_ p))%nat ->
  (count_frames frame_capture skipped <= List.length (capture_stack_ p))%nat ->
  backtrack_stack_ p = b :: bs ->
  cut_frame_ p <= zlen fs -> cut_deferred_ p = false -> fc r = 0 ->
  exists p',
    goto_failure prog p r
    = Ok (Running, p',
          mk_registers (bt_ir b) (bt_cr b) (bt_lr b) (bt_rc b) (bt_pc b) 0)
    /\ stack_frames_ p' = fs /\ backtrack_stack_ p' = bs
    /\ call_stack_ p'
       = skipn (count_frames frame_call skipped) (call_stack_ p)
    /\ capture_stack_ p'
       = skipn (count_frames frame_capture skipped) (capture_stack_ p)
    /\ lrmemo_stack_ p' = lrmemo_stack_ p
    /\ input_ p' = input_ p
    /\ semantics_ p' = pop_responses_after (semantics_ p) (bt_rc b)
    /\ max_input_ p'
       = (if s_ir (max_input_ p) <? ir r
          then mk_subject (ir r) (cr r) (lr r) else max_input_ p)
    /\ cut_frame_ p' = cut_frame_ p.
Proof.
  intros Hfs Hall Hcall Hcap Hbt Hcut Hdef Hfc.
  unfold goto_failure, failure.
  set (p0 := if s_ir (max_input_ p) <? ir r
             then set_max_input p (mk_subject (ir r) (cr r) (lr r)) else p).
  assert (Hp0 : stack_frames_ p0 = stack_frames_ p
                /\ call_stack_ p0 = call_stack_ p
                /\ capture_stack_ p0 = capture_stack_ p
                /\ backtrack_stack_ p0 = backtrack_stack_ p
                /\ cut_frame_ p0 = cut_frame_ p
                /\ cut_deferred_ p0 = cut_deferred_ p
                /\ lrmemo_stack_ p0 = lrmemo_stack_ p
                /\ input_ p0 = input_ p /\ semantics_ p0 = semantics_ p
                /\ max_input_ p0
                   = (if s_ir (max_input_ p) <? ir r
                      then mk_subject (ir r) (cr r) (lr r)
                      else max_input_ p)).
  { unfold p0. destruct (s_ir (max_input_ p) <? ir r); cbn;
      repeat split; reflexivity. }
  destruct Hp0 as (E1 & E2 & E3 & E4 & E5 & E6 & E7 & E8 & E9 & E10).
  destruct (unwind_passes prog fs b bs skipped p0
              (set_fc r (wadd (fc r) 1)) (List.length (stack_frames_ p0)))
    as (p' & Hun & H1 & H2 & H3 & H4 & H5 & H6 & H7 & H8 & H9);
    try congruence.
  - cbn [fc set_fc]. rewrite Hfc. reflexivity.
  - lia.
  - rewrite Hun. cbn [bind rc].
    eexists. split; [reflexivity |]. cbn.
    rewrite H1, H2, H3, H4, H5, H6, H7, H8, H9.
    repeat split; congruence.
Qed.

Lemma failure_resumes_at_newest_backtrack_witness :
  exists p',
    goto_failure empty_program
      (set_call_stack
         (set_backtrack_stack
            (set_stack_frames (new_parser (lit "ab"))
               [frame_call; frame_backtrack])
            [mk_backtrack 0 1 1 0 7])
         [5])
      (mk_registers 1 2 1 0 9 0)
    = Ok (Running, p', mk_registers 0 1 1 0 7 0)
    /\ stack_frames_ p' = [] /\ backtrack_stack_ p' = []
    /\ call_stack_ p' = skipn (count_frames frame_call [frame_call]) [5]
    /\ capture_stack_ p' = skipn (count_frames frame_capture [frame_call]) []
    /\ lrmemo_stack_ p' = []
    /\ input_ p' = lit "ab"
    /\ semantics_ p' = pop_responses_after new_semantics 0
    /\ max_input_ p'
       = (if 0 <? 1 then mk_subject 1 2 1 else mk_subject 0 1 1)
    /\ cut_frame_ p' = 0.
Proof.
  apply (failure_resumes_at_newest_backtrack empty_program
           (set_call_stack
              (set_backtrack_stack
                 (set_stack_frames (new_parser (lit "ab"))
                    [frame_call; frame_backtrack])
                 [mk_backtrack 0 1 1 0 7])
              [5])
           (mk_registers 1 2 1 0 9 0)
           [frame_call] [] (mk_backtrack 0 1 1 0 7) []).
  - reflexivity.
  - reflexivity.
  - cbn. lia.
  - cbn. lia.
  - reflexivity.
  - cbn. lia.
  - reflexivity.
  - reflexivity.
Defined.

(** ** The stacks of the parser *)

Lemma same_stacks_agree p q : same_stacks p q -> stacks_agree q -> stacks_agree p.
Proof.
  unfold same_stacks, stacks_agree. intros (H1 & H2 & H3 & H4 & H5).
  rewrite H1, H2, H3, H4, H5. exact (fun H => H).
Qed.

Lemma same_stacks_refl p : same_stacks p p.
Proof. unfold same_stacks. repeat split. Qed.

Lemma same_stacks_trans p q s :
  same_stacks p q -> same_stacks q s -> same_stacks p s.
Proof.
  unfold same_stacks. intros (H1 & H2 & H3 & H4 & H5) (G1 & G2 & G3 & G4 & G5).
  repeat split; congruence.
Qed.

Lemma available_loop_same_stacks turns :
  forall n i p b p',
    available_loop turns n i p = Ok (b, p') -> same_stacks p' p.
Proof.
  induction turns as [| turns IH]; intros n i p b p' H;
    cbn [available_loop] in H;
    (destruct (n <=? wsub (zlen (input_ p)) i);
     [inversion H; apply same_stacks_refl |]);
    (destruct (i <? zlen (input_ p));
     [inversion H; apply same_stacks_refl |]);
    apply bind_ok in H; destruct H as ([more p1] & Hread & H);
    unfold read_more in Hread; (destruct (reading_ p); [discriminate |]);
    destruct (read_sources (sources_ p)) as [text srcs];
    inversion Hread; subst more p1; clear Hread;
    destruct text as [| c text]; cbn [negb] in H; try discriminate.
  - inversion H; subst. unfold same_stacks. cbn. repeat split.
  - inversion H; subst. unfold same_stacks. cbn. repeat split.
  - apply IH in H. eapply same_stacks_trans; [exact H |].
    unfold same_stacks. cbn. repeat split.
Qed.

Lemma available_same_stacks n i p b p' :
  available n i p = Ok (b, p') -> same_stacks p' p.
Proof. apply available_loop_same_stacks. Qed.

Lemma parser_accept_same_stacks prog p r p' r' :
  parser_accept prog p r = Ok (p', r') -> same_stacks p' p.
Proof.
  unfold parser_accept. intros H.
  apply bind_ok in H. destruct H as (sem & _ & H).
  inversion H; subst. unfold same_stacks. cbn. repeat split.
Qed.

Lemma pop_stack_frame_agrees prog k p r p' r' fs :
  stacks_agree p -> stack_frames_ p = k :: fs ->
  pop_stack_frame prog k p r = Ok (p', r') ->
  stacks_agree p' /\ stack_frames_ p' = fs.
Proof.
  intros (A1 & A2 & A3 & A4) Hfs H. unfold pop_stack_frame in H.
  apply bind_ok in H. destruct H as (p1 & Hpop & H).
  rewrite Hfs in A1, A2, A3, A4. unfold count_frames in *.
  destruct k; cbn [pop_typed] in Hpop;
    cbn [filter frame_eqb List.length] in A1, A2, A3, A4.
  - destruct (backtrack_stack_ p) as [| x t] eqn:E; [discriminate |].
    inversion Hpop; subst p1; clear Hpop.
    cbn [stack_frames_ set_backtrack_stack] in H. rewrite Hfs in H.
    inversion H; subst. unfold stacks_agree, count_frames. cbn.
    cbn [List.length] in A1. repeat split; try lia; congruence.
  - destruct (call_stack_ p) as [| x t] eqn:E; [discriminate |].
    inversion Hpop; subst p1; clear Hpop.
    cbn [stack_frames_ set_call_stack] in H. rewrite Hfs in H.
    inversion H; subst. unfold stacks_agree, count_frames. cbn.
    cbn [List.length] in A2. repeat split; try lia; congruence.
  - destruct (capture_stack_ p) as [| x t] eqn:E; [discriminate |].
    inversion Hpop; subst p1; clear Hpop.
    cbn [stack_frames_ set_capture_stack] in H. rewrite Hfs in H.
    cbn [List.length] in A3.
    match type of H with
    | (if ?c then _ else _) = _ => destruct c
    end.
    + apply parser_accept_same_stacks in H.
      destruct H as (H1 & H2 & H3 & H4 & H5). cbn in H1, H2, H3, H4, H5.
      unfold stacks_agree, count_frames.
      rewrite H1, H2, H3, H4, H5. repeat split; try lia; congruence.
    + inversion H; subst. unfold stacks_agree, count_frames. cbn.
      repeat split; try lia; congruence.
  - destruct (lrmemo_stack_ p) as [| x t] eqn:E; [discriminate |].
    inversion Hpop; subst p1; clear Hpop.
    cbn [stack_frames_ set_lrmemo_stack] in H. rewrite Hfs in H.
    cbn [List.length] in A4.
    match type of H with
    | (if ?c then _ else _) = _ => destruct c
    end.
    + apply parser_accept_same_stacks in H.
      destruct H as (H1 & H2 & H3 & H4 & H5). cbn in H1, H2, H3, H4, H5.
      unfold stacks_agree, count_frames.
      rewrite H1, H2, H3, H4, H5. repeat split; try lia; congruence.
    + inversion H; subst. unfold stacks_agree, count_frames. cbn.
      repeat split; try lia; congruence.
Qed.

Ltac agree_by p :=
  apply (same_stacks_agree _ p);
  [unfold same_stacks; cbn; repeat split | assumption].

Lemma unwind_frame_agrees prog f p r p' r' fs :
  stacks_agree p -> stack_frames_ p = f :: fs ->
  unwind_frame prog f p r = Ok (p', r') -> stacks_agree p'.
Proof.
  intros Ha Hfs H. unfold unwind_frame in H.
  apply bind_ok in H. destruct H as ([p1 r1] & H1 & H).
  inversion H; subst p' r'; clear H.
  destruct f.
  - destruct (backtrack_stack_ p) as [| b t] eqn:E; [discriminate |].
    eapply pop_stack_frame_agrees in H1; [apply H1 | exact Ha | exact Hfs].
  - apply bind_ok in H1. destruct H1 as ([p2 r2] & H2 & H1).
    inversion H1; subst.
    eapply pop_stack_frame_agrees in H2; [apply H2 | exact Ha | exact Hfs].
  - apply bind_ok in H1. destruct H1 as ([p2 r2] & H2 & H1).
    inversion H1; subst.
    eapply pop_stack_frame_agrees in H2; [apply H2 | exact Ha | exact Hfs].
  - destruct (lrmemo_stack_ p) as [| memo t] eqn:E; [discriminate |].
    destruct (negb (s_ir (sa memo) =? lrfailcode)).
    + destruct (restore_responses_after _ _ _) as [n sem].
      eapply pop_stack_frame_agrees in H1; [apply H1 | | exact Hfs].
      agree_by p.
    + eapply pop_stack_frame_agrees in H1; [apply H1 | exact Ha | exact Hfs].
Qed.

Lemma unwind_agrees prog turns :
  forall p r done p' r',
    stacks_agree p ->
    unwind prog turns p r = Ok (done, p', r') -> stacks_agree p'.
Proof.
  induction turns as [| turns IH]; intros p r done p' r' Ha H;
    cbn [unwind] in H;
    (destruct (fc r <=? 0); [inversion H; subst; exact Ha |]);
    (destruct (zlen (stack_frames_ p) <=? cut_frame_ p);
     [inversion H; subst; exact Ha |]);
    destruct (stack_frames_ p) as [| f fs] eqn:Hfs; try discriminate.
  apply bind_ok in H. destruct H as ([p1 r1] & H1 & H).
  eapply IH; [| exact H].
  eapply unwind_frame_agrees; [exact Ha | exact Hfs | exact H1].
Qed.

Lemma goto_failure_agrees prog p r st p' r' :
  stacks_agree p ->
  goto_failure prog p r = Ok (st, p', r') -> stacks_agree p'.
Proof.
  intros Ha H. unfold goto_failure, failure in H.
  apply bind_ok in H. destruct H as ([[done p1] r1] & H1 & H).
  apply bind_ok in H1. destruct H1 as ([[done2 p2] r2] & H2 & H1).
  inversion H1; subst; clear H1. inversion H; subst; clear H.
  apply unwind_agrees in H2.
  - agree_by p2.
  - destruct (s_ir (max_input_ p) <? ir r); [agree_by p | exact Ha].
Qed.

Ltac fail_case :=
  match goal with
  | Ha : stacks_agree ?p, H : goto_failure _ ?p _ = Ok _ |- _ =>
      exact (goto_failure_agrees _ _ _ _ _ _ Ha H)
  end.

Lemma exec_agrees U prog d p r st p' r' :
  Forall keeps_stacks (predicates prog) ->
  stacks_agree p ->
  exec U prog d p r = Ok (st, p', r') -> stacks_agree p'.
Proof.
  intros Hpred Ha H. unfold exec in H.
  destruct (opcode_of_byte (d_op d)) as [[] |]; try discriminate.
  - (* match *)
    unfold exec_match in H. destruct (negb (is_nil (d_str d))).
    + apply bind_ok in H. destruct H as ([av p1] & Hav & H).
      apply available_same_stacks in Hav.
      pose proof (same_stacks_agree _ _ Hav Ha) as Ha1.
      destruct (negb av); [fail_case |].
      apply bind_ok in H. destruct H as (c & _ & H).
      destruct (negb (is_eq c)); [fail_case |].
      inversion H; subst. exact Ha1.
    + inversion H; subst. exact Ha.
  - (* match_any *)
    unfold exec_match_any in H.
    apply bind_ok in H. destruct H as ([av p1] & Hav & H).
    apply available_same_stacks in Hav.
    pose proof (same_stacks_agree _ _ Hav Ha) as Ha1.
    destruct (negb av); [fail_case |].
    apply bind_ok in H. destruct H as (rest & _ & H).
    inversion H; subst. exact Ha1.
  - (* match_class *)
    unfold exec_match_class in H.
    apply bind_ok in H. destruct H as ([av p1] & Hav & H).
    apply available_same_stacks in Hav.
    pose proof (same_stacks_agree _ _ Hav Ha) as Ha1.
    destruct (negb av); [fail_case |].
    apply bind_ok in H. destruct H as (first & _ & H).
    destruct (decode_rune U first) as [rune next].
    apply bind_ok in H. destruct H as (matched & _ & H).
    destruct matched; [fail_case |].
    inversion H; subst. exact Ha1.
  - (* match_range *)
    unfold exec_match_range in H.
    destruct (zlen (d_str d) <? d_imm d); [discriminate |].
    apply bind_ok in H. destruct H as ([av p1] & Hav & H).
    apply available_same_stacks in Hav.
    pose proof (same_stacks_agree _ _ Hav Ha) as Ha1.
    destruct (negb av); [fail_case |].
    apply bind_ok in H. destruct H as (rest & _ & H).
    apply bind_ok in H. destruct H as (c1 & _ & H).
    destruct (is_lt c1); [fail_case |].
    apply bind_ok in H. destruct H as (c2 & _ & H).
    destruct (is_gt c2); [fail_case |].
    inversion H; subst. exact Ha1.
  - (* choice *)
    unfold exec_choice in H. inversion H; subst.
    destruct Ha as (A1 & A2 & A3 & A4).
    unfold stacks_agree, count_frames in *. cbn. repeat split; lia.
  - (* commit *)
    unfold exec_commit in H.
    destruct (stack_frames_ p) as [| [] fs] eqn:Hfs; try fail_case.
    apply bind_ok in H. destruct H as ([p1 r1] & H1 & H).
    unfold exec_jump in H. inversion H; subst; clear H.
    destruct (d_alt d =? commit_partial).
    + destruct (backtrack_stack_ p) as [| b t] eqn:E; [discriminate |].
      inversion H1; subst.
      destruct Ha as (A1 & A2 & A3 & A4).
      unfold stacks_agree. cbn. rewrite Hfs, E in *. cbn in *.
      repeat split; assumption.
    + destruct (d_alt d =? commit_back).
      * destruct (backtrack_stack_ p) as [| b t] eqn:E; [discriminate |].
        eapply pop_stack_frame_agrees in H1;
          [apply H1 | exact Ha | exact Hfs].
      * eapply pop_stack_frame_agrees in H1;
          [apply H1 | exact Ha | exact Hfs].
  - (* jump *)
    unfold exec_jump in H. inversion H; subst. exact Ha.
  - (* call *)
    unfold exec_call in H.
    destruct Ha as (A1 & A2 & A3 & A4).
    destruct (negb (d_imm d =? 0)).
    + destruct (find_memo _ _ _) as [memo |].
      * destruct (_ || _);
          [exact (goto_failure_agrees _ _ _ _ _ _
                    (conj A1 (conj A2 (conj A3 A4))) H) |].
        destruct (restore_responses_after _ _ _) as [n sem].
        inversion H; subst. unfold stacks_agree. cbn.
        repeat split; assumption.
      * inversion H; subst.
        unfold stacks_agree, count_frames in *. cbn. repeat split; lia.
    + inversion H; subst.
      unfold stacks_agree, count_frames in *. cbn. repeat split; lia.
  - (* ret *)
    unfold exec_ret in H.
    destruct (stack_frames_ p) as [| [] fs] eqn:Hfs; try fail_case.
    + destruct (call_stack_ p) as [| ra t] eqn:E; [discriminate |].
      apply bind_ok in H. destruct H as ([p1 r1] & H1 & H).
      inversion H; subst.
      eapply pop_stack_frame_agrees in H1; [apply H1 | exact Ha | exact Hfs].
    + destruct (lrmemo_stack_ p) as [| memo older] eqn:E; [discriminate |].
      destruct (_ || _).
      * destruct (drop_responses_after _ _) as [dropped sem].
        inversion H; subst.
        destruct Ha as (A1 & A2 & A3 & A4).
        unfold stacks_agree. cbn. rewrite Hfs, E in *. cbn in *.
        repeat split; assumption.
      * destruct (restore_responses_after _ _ _) as [n sem].
        apply bind_ok in H. destruct H as ([p1 r1] & H1 & H).
        inversion H; subst.
        eapply pop_stack_frame_agrees in H1; [apply H1 | | exact Hfs].
        agree_by p.
  - (* fail *)
    unfold exec_fail in H. fail_case.
  - (* accept *)
    unfold exec_accept in H.
    destruct (negb (negb (is_nil (capture_stack_ p))
                    || negb (is_nil (lrmemo_stack_ p)))).
    + apply bind_ok in H. destruct H as ([p1 r1] & H1 & H).
      apply parser_accept_same_stacks in H1.
      assert (Ha1 : stacks_agree p1).
      { apply (same_stacks_agree _ _ H1). agree_by p. }
      destruct (d_alt d =? accept_final); inversion H; subst; exact Ha1.
    + inversion H; subst. agree_by p.
  - (* newline *)
    unfold exec_newline in H. inversion H; subst. exact Ha.
  - (* predicate *)
    unfold exec_predicate in H.
    apply bind_ok in H. destruct H as (f & Hf & H).
    assert (Hk : keeps_stacks f).
    { unfold nth_z in Hf. destruct (d_imm d <? 0); [discriminate |].
      destruct (nth_error (predicates prog) (Z.to_nat (d_imm d))) as [g |]
        eqn:E; [| discriminate].
      inversion Hf; subst g. apply nth_error_In in E.
      rewrite Forall_forall in Hpred. apply Hpred. exact E. }
    match type of H with
    | (let '(_, _) := f ?q in _) = _ =>
        pose proof (Hk q) as Hq; destruct (f q) as [accepted p1]
    end.
    cbn [snd] in Hq.
    assert (Ha1 : stacks_agree
                    (set_semantics p1
                       (pop_responses_after (semantics_ p1)
                          (rc (registers_ p1))))).
    { apply (same_stacks_agree _ p1);
        [unfold same_stacks; cbn; repeat split |].
      apply (same_stacks_agree _ _ Hq).
      destruct (s_ir (max_input_ _) <? ir r); agree_by p. }
    destruct (negb accepted).
    + exact (goto_failure_agrees _ _ _ _ _ _ Ha1 H).
    + inversion H; subst. exact Ha1.
  - (* action *)
    unfold exec_action in H.
    destruct (push_response _ _ _ _) as [n sem].
    inversion H; subst. agree_by p.
  - (* begin_capture *)
    unfold exec_begin_capture in H. inversion H; subst.
    destruct Ha as (A1 & A2 & A3 & A4).
    unfold stacks_agree, count_frames in *. cbn. repeat split; lia.
  - (* end_capture *)
    unfold exec_end_capture in H.
    destruct (stack_frames_ p) as [| [] fs] eqn:Hfs; try fail_case.
    destruct (capture_stack_ p) as [| s0 t] eqn:E; [discriminate |].
    apply bind_ok in H. destruct H as ([p1 r1] & H1 & H).
    eapply pop_stack_frame_agrees in H1; [| exact Ha | exact Hfs].
    destruct H1 as [Ha1 _].
    destruct (ir r <? s_ir s0); [fail_case |].
    destruct (push_capture_response _ _ _ _) as [n sem].
    inversion H; subst. agree_by p1.
Qed.

Lemma step_agrees U prog p r st p' r' :
  Forall keeps_stacks (predicates prog) ->
  stacks_agree p ->
  step U prog p r = Ok (st, p', r') -> stacks_agree p'.
Proof.
  intros Hpred Ha H. unfold step in H.
  apply bind_ok in H. destruct H as (d & _ & H).
  exact (exec_agrees _ _ _ _ _ _ _ _ Hpred Ha H).
Qed.

Lemma run_agrees U prog fuel :
  forall p r p',
    Forall keeps_stacks (predicates prog) ->
    stacks_agree p ->
    parser_of (run U prog fuel p r) = Some p' -> stacks_agree p'.
Proof.
  induction fuel as [| fuel IH]; intros p r p' Hpred Ha H; cbn [run] in H.
  - inversion H; subst. exact Ha.
  - destruct (step U prog p r) as [[[[| result] p1] r1] | |] eqn:Hs;
      try discriminate.
    + apply (IH p1 r1 p' Hpred); [| exact H].
      exact (step_agrees _ _ _ _ _ _ _ Hpred Ha Hs).
    + inversion H; subst.
      apply (same_stacks_agree _ p1);
        [unfold same_stacks; cbn; repeat split |].
      exact (step_agrees _ _ _ _ _ _ _ Hpred Ha Hs).
Qed.

Lemma pop_typed_defined k p fs :
  stacks_agree p -> stack_frames_ p = k :: fs ->
  exists q, pop_typed k p = Ok q.
Proof.
  intros (A1 & A2 & A3 & A4) Hfs. rewrite Hfs in A1, A2, A3, A4.
  unfold count_frames in *.
  destruct k; cbn [filter frame_eqb List.length] in A1, A2, A3, A4;
    cbn [pop_typed].
  - destruct (backtrack_stack_ p); [discriminate | eauto].
  - destruct (call_stack_ p); [discriminate | eauto].
  - destruct (capture_stack_ p); [discriminate | eauto].
  - destruct (lrmemo_stack_ p); [discriminate | eauto].
Qed.

(** X16.  The four typed stacks stay in step with [stack_frames_]: when
    each of them holds one entry for every frame of its type before
    [parser::parse] is called, and the semantic predicates of the
    grammar leave the stacks alone, the same holds in every state that
    the loop of [parse] reaches and in the state it returns with; in
    such a state the typed stack of the frame on top of [stack_frames_]
    is not empty, so that its [pop_back] is defined. *)
Theorem parse_keeps_stacks_agreeing U prog fuel p p' :
  Forall keeps_stacks (predicates prog) ->
  stacks_agree p ->
  parser_of (parse U prog fuel p) = Some p' ->
  stacks_agree p'
  /\ forall k fs, stack_frames_ p' = k :: fs ->
       exists q, pop_typed k p' = Ok q.
Proof.
  intros Hpred Ha H.
  assert (Ha' : stacks_agree p').
  { unfold parse in H.
    destruct (parse_entry prog p) as [[p0 r0] | |] eqn:He; try discriminate.
    apply (run_agrees U prog fuel p0 r0 p' Hpred); [| exact H].
    unfold parse_entry in He.
    destruct (parsing_ p); [discriminate |].
    destruct (is_nil (instructions prog)); [discriminate |].
    inversion He; subst. agree_by p. }
  split; [exact Ha' |]. intros k fs Hfs.
  exact (pop_typed_defined k p' fs Ha' Hfs).
Qed.

Lemma parse_keeps_stacks_agreeing_witness :
  exists p',
    parser_of (parse sample_unicode star_eps 4 (new_parser (lit "a")))
    = Some p'
    /\ stacks_agree p'
    /\ forall k fs, stack_frames_ p' = k :: fs ->
         exists q, pop_typed k p' = Ok q.
Proof.
  eexists. split; [vm_compute; reflexivity |].
  apply (parse_keeps_stacks_agreeing sample_unicode star_eps 4
           (new_parser (lit "a"))).
  - constructor.
  - unfold stacks_agree. cbn. repeat split.
  - vm_compute. reflexivity.
Defined.

(** ** A compiled loop, run *)

Lemma run_done U prog n p r b p' r' :
  step U prog p r = Ok (Done b, p', r') ->
  run U prog (S n) p r = Returns b (set_parsing p' false) r'.
Proof. intros H. cbn [run]. rewrite H. reflexivity. Qed.

Lemma substr_one text i c :
  0 <= i -> nth_error text (Z.to_nat i) = Some c -> substr text i 1 = [c].
Proof.
  intros Hi H. unfold substr. change (Z.to_nat 1) with 1%nat.
  revert H. generalize (Z.to_nat i). intros k. revert text.
  induction k as [| k IH]; intros [| x text] H; try discriminate.
  - inversion H. reflexivity.
  - exact (IH text H).
Qed.

Lemma substr_not_one text i c :
  0 <= i -> nth_error text (Z.to_nat i) <> Some c -> substr text i 1 <> [c].
Proof.
  intros Hi H. unfold substr. change (Z.to_nat 1) with 1%nat.
  revert H. generalize (Z.to_nat i). intros k. revert text.
  induction k as [| k IH]; intros [| x text] H.
  - discriminate.
  - cbn. intros E. apply H. inversion E. reflexivity.
  - discriminate.
  - exact (IH text H).
Qed.

Lemma exec_match_hit prog d p r :
  d_str d <> [] ->
  0 <= ir r <= zlen (input_ p) -> zlen (input_ p) <= size_max ->
  substr (input_ p) (ir r) (zlen (d_str d)) = d_str d ->
  exec_match prog d p r
  = Ok (Running, p,
        set_subject r (ir r + zlen (d_str d)) (wadd (cr r) (d_imm d)) (lr r)).
Proof.
  intros Hstr Hi Hmax Heq.
  pose proof (substr_length (input_ p) (ir r) (zlen (d_str d)) Hi) as Hlen.
  rewrite Heq in Hlen.
  unfold exec_match. apply is_nil_false in Hstr. rewrite Hstr. cbn [negb].
  unfold available.
  destruct (pending (sources_ p)); cbn [available_loop];
    rewrite wsub_small by lia;
    (replace (zlen (d_str d) <=? zlen (input_ p) - ir r) with true
       by (symmetry; apply Z.leb_le; lia));
    cbn [bind negb]; unfold string_compare;
    (replace (zlen (input_ p) <? ir r) with false
       by (symmetry; apply Z.ltb_ge; lia));
    cbn [bind]; rewrite Heq;
    (replace (traits_compare (d_str d) (d_str d)) with Eq
       by (symmetry; apply traits_compare_eq; reflexivity));
    cbn [is_eq negb]; unfold wadd at 1, wrap;
    rewrite (Z.mod_small (ir r + zlen (d_str d)))
      by (unfold size_max in Hmax; pose proof (zlen_nonneg (d_str d)); lia);
    reflexivity.
Qed.

Lemma exec_match_miss prog d p r :
  d_str d <> [] ->
  sources_ p = [] -> reading_ p = false ->
  0 <= ir r <= zlen (input_ p) -> zlen (input_ p) <= size_max ->
  substr (input_ p) (ir r) (zlen (d_str d)) <> d_str d ->
  exec_match prog d p r = goto_failure prog p r.
Proof.
  intros Hstr Hs Hr Hi Hmax Hne.
  unfold exec_match. apply is_nil_false in Hstr. rewrite Hstr. cbn [negb].
  unfold available. rewrite Hs. cbn [pending fold_right available_loop].
  rewrite wsub_small by lia.
  destruct (zlen (d_str d) <=? zlen (input_ p) - ir r) eqn:E1.
  - cbn [bind negb]. unfold string_compare.
    replace (zlen (input_ p) <? ir r) with false
      by (symmetry; apply Z.ltb_ge; lia).
    cbn [bind].
    destruct (traits_compare _ (d_str d)) eqn:Ec; try reflexivity.
    apply traits_compare_eq in Ec. contradiction.
  - destruct (ir r <? zlen (input_ p)) eqn:E2; [reflexivity |].
    unfold read_more. rewrite Hr, Hs. cbn [read_sources bind negb].
    rewrite app_nil_r.
    replace (set_sources (set_input p (input_ p)) []) with p
      by (destruct p; cbn in *; subst; reflexivity).
    reflexivity.
Qed.

Lemma star_chr_linked c :
  is_lead c = true -> start_expr (e_star (chr c)) = Ok (star_chr c).
Proof.
  intros Hc. unfold start_expr, make_rule. cbn [evaluate].
  unfold encoder_match. cbn [encoder_match_loop List.length].
  unfold count_runes. cbn [fold_left]. rewrite Hc.
  vm_compute. reflexivity.
Qed.

Lemma star_chr_at_match U c text i col far :
  step U (star_chr c) (star_chr_parser text i col far)
    (mk_registers i col 1 0 5 0)
  = exec_match (star_chr c) (mk_decoded 0 0 1 0 [c] 7)
      (star_chr_parser text i col far) (mk_registers i col 1 0 7 0).
Proof.
  rewrite (step_decoded U (star_chr c) _ _ (mk_decoded 0 0 1 0 [c] 7))
    by reflexivity.
  reflexivity.
Qed.

Lemma star_chr_match U c text i col far :
  0 <= i -> zlen text <= size_max ->
  nth_error text (Z.to_nat i) = Some c ->
  step U (star_chr c) (star_chr_parser text i col far)
    (mk_registers i col 1 0 5 0)
  = Ok (Running, star_chr_parser text i col far,
        mk_registers (i + 1) (wadd col 1) 1 0 7 0).
Proof.
  intros Hi Hmax Hc. rewrite star_chr_at_match.
  apply exec_match_hit.
  - discriminate.
  - cbn [ir input_ star_chr_parser]. split; [exact Hi |].
    assert (Z.to_nat i < List.length text)%nat
      by (apply nth_error_Some; congruence).
    unfold zlen. lia.
  - exact Hmax.
  - apply substr_one; assumption.
Qed.

Lemma star_chr_commit U c text i0 col0 i col far :
  step U (star_chr c) (star_chr_parser text i0 col0 far)
    (mk_registers i col 1 0 7 0)
  = Ok (Running, star_chr_parser text i col far, mk_registers i col 1 0 5 0).
Proof. vm_compute. reflexivity. Qed.

Lemma star_chr_leaves U c text i col far n :
  0 <= i <= zlen text -> zlen text <= size_max ->
  nth_error text (Z.to_nat i) <> Some c ->
  exists p r,
    run U (star_chr c) (3 + n) (star_chr_parser text i col far)
      (mk_registers i col 1 0 5 0)
    = Returns true p r
    /\ input_ p = skipn (Z.to_nat i) text.
Proof.
  intros Hi Hmax Hc. change (3 + n)%nat with (S (S (S n))).
  assert (H1 : exists far',
             step U (star_chr c) (star_chr_parser text i col far)
               (mk_registers i col 1 0 5 0)
             = Ok (Running,
                   mk_parser text (mk_registers 0 1 1 0 0 0) far' true
                     false false 0 [] [frame_call] [] [2] [] []
                     new_semantics,
                   mk_registers i col 1 0 9 0)).
  { rewrite star_chr_at_match.
    rewrite exec_match_miss;
      [| discriminate | reflexivity | reflexivity | exact Hi | exact Hmax
       | apply substr_not_one; [exact (proj1 Hi) | exact Hc]].
    unfold goto_failure, failure.
    cbn [max_input_ star_chr_parser ir cr lr].
    destruct (s_ir far <? i);
      eexists; vm_compute; reflexivity. }
  destruct H1 as (far' & H1).
  rewrite (run_step _ _ _ _ _ _ _ H1).
  rewrite (run_step U (star_chr c) (S n) _ _
             (mk_parser text (mk_registers 0 1 1 0 0 0) far' true
                false false 0 [] [] [] [] [] [] new_semantics)
             (mk_registers i col 1 0 2 0)) by (vm_compute; reflexivity).
  eexists. eexists. split.
  - apply run_done. vm_compute. reflexivity.
  - reflexivity.
Qed.

Lemma star_chr_loop U c k :
  forall pre rest col far n,
    hd_error rest <> Some c ->
    zlen (pre ++ repeat c k ++ rest) <= size_max ->
    exists p r,
      run U (star_chr c) (2 * k + 3 + n)
        (star_chr_parser (pre ++ repeat c k ++ rest) (zlen pre) col far)
        (mk_registers (zlen pre) col 1 0 5 0)
      = Returns true p r
      /\ input_ p = rest.
Proof.
  induction k as [| k IH]; intros pre rest col far n Hrest Hmax.
  - cbn [repeat app Nat.mul Nat.add] in *.
    destruct (star_chr_leaves U c (pre ++ rest) (zlen pre) col far n)
      as (p & r & Hrun & Hin).
    + rewrite zlen_app. pose proof (zlen_nonneg pre).
      pose proof (zlen_nonneg rest). lia.
    + exact Hmax.
    + unfold zlen. rewrite Nat2Z.id, nth_error_app2 by lia.
      rewrite Nat.sub_diag. destruct rest; exact Hrest.
    + exists p, r. split; [exact Hrun |]. rewrite Hin.
      unfold zlen. rewrite Nat2Z.id. apply skipn_length_app.
  - replace (2 * S k + 3 + n)%nat with (S (S (2 * k + 3 + n))) by lia.
    assert (Hc : nth_error (pre ++ repeat c (S k) ++ rest)
                   (Z.to_nat (zlen pre)) = Some c).
    { unfold zlen. rewrite Nat2Z.id, nth_error_app2 by lia.
      rewrite Nat.sub_diag. reflexivity. }
    rewrite (run_step _ _ _ _ _ _ _
               (star_chr_match U c _ (zlen pre) col far (zlen_nonneg pre)
                  Hmax Hc)).
    rewrite (run_step _ _ _ _ _ _ _
               (star_chr_commit U c _ (zlen pre) col (zlen pre + 1)
                  (wadd col 1) far)).
    replace (pre ++ repeat c (S k) ++ rest)
      with ((pre ++ [c]) ++ repeat c k ++ rest) in *
      by (rewrite <- app_assoc; reflexivity).
    replace (zlen pre + 1) with (zlen (pre ++ [c]))
      by (rewrite zlen_app; reflexivity).
    apply IH; assumption.
Qed.

Lemma star_chr_enters U c text n :
  lug_parse U (S (S n)) text (star_chr c)
  = run U (star_chr c) n (star_chr_parser text 0 1 (mk_subject 0 1 1))
      (mk_registers 0 1 1 0 5 0).
Proof.
  unfold lug_parse, parse.
  replace (parse_entry (star_chr c) (new_parser text))
    with (Ok (set_parsing (new_parser text) true, mk_registers 0 1 1 0 0 0))
    by (vm_compute; reflexivity).
  rewrite (run_step _ _ (S n) _ _
             (set_call_stack
                (set_stack_frames (set_parsing (new_parser text) true)
                   [frame_call]) [2])
             (mk_registers 0 1 1 0 3 0)) by (vm_compute; reflexivity).
  rewrite (run_step _ _ n _ _ (star_chr_parser text 0 1 (mk_subject 0 1 1))
             (mk_registers 0 1 1 0 5 0))
    by (vm_compute; reflexivity).
  reflexivity.
Qed.

(** X17.  The compiled loop [*chr(c)], linked by [start] and run by
    [parse]: on an input that starts with [k] characters [c] followed by
    something else (or by nothing), the parse returns [true] after
    [2k + 5] instructions, and what is left of the input is the part
    behind the [k] characters - the loop takes every [c] it can, and
    the failure that ends it is not a failure of the parse. *)
Theorem star_chr_takes_the_longest_run U c k rest n :
  is_lead c = true ->
  hd_error rest <> Some c ->
  zlen (repeat c k ++ rest) <= size_max ->
  exists p r,
    lug_parse U (2 * k + 5 + n) (repeat c k ++ rest)
      (grammar_of (start_expr (e_star (chr c))))
    = Returns true p r
    /\ input_ p = rest.
Proof.
  intros Hc Hrest Hmax. rewrite (star_chr_linked c Hc). cbn [grammar_of].
  replace (2 * k + 5 + n)%nat with (S (S (2 * k + 3 + n))) by lia.
  rewrite star_chr_enters.
  exact (star_chr_loop U c k [] rest 1 (mk_subject 0 1 1) n Hrest Hmax).
Qed.

Lemma star_chr_takes_the_longest_run_witness :
  exists p r,
    lug_parse sample_unicode (2 * 2 + 5 + 0) (repeat "a"%byte 2 ++ lit "b")
      (grammar_of (start_expr (e_star (chr "a"))))
    = Returns true p r
    /\ input_ p = lit "b".
Proof.
  apply (star_chr_takes_the_longest_run sample_unicode "a"%byte 2 (lit "b")
           0%nat).
  - reflexivity.
  - discriminate.
  - vm_compute. discriminate.
Defined.

(** ** A compiled character, run *)

Lemma chr_linked c :
  is_lead c = true -> start_expr (chr c) = Ok (chr_grammar c).
Proof.
  intros Hc. unfold start_expr, make_rule. cbn [evaluate].
  unfold encoder_match. cbn [encoder_match_loop List.length].
  unfold count_runes. cbn [fold_left]. rewrite Hc.
  vm_compute. reflexivity.
Qed.

Lemma chr_not_encoded c :
  is_lead c = false ->
  start_expr (chr c) = Raise (lug_exn resource_limit_error).
Proof.
  intros Hc. unfold start_expr, make_rule. cbn [evaluate].
  unfold encoder_match. cbn [encoder_match_loop List.length].
  unfold count_runes. cbn [fold_left]. rewrite Hc.
  vm_compute. reflexivity.
Qed.

Lemma chr_enters U c text n :
  lug_parse U (S n) text (chr_grammar c)
  = run U (chr_grammar c) n (chr_parser text) (mk_registers 0 1 1 0 3 0).
Proof.
  unfold lug_parse, parse.
  replace (parse_entry (chr_grammar c) (new_parser text))
    with (Ok (set_parsing (new_parser text) true, mk_registers 0 1 1 0 0 0))
    by (vm_compute; reflexivity).
  rewrite (run_step _ _ n _ _ (chr_parser text) (mk_registers 0 1 1 0 3 0))
    by (vm_compute; reflexivity).
  reflexivity.
Qed.

Lemma chr_at_match U c text :
  step U (chr_grammar c) (chr_parser text) (mk_registers 0 1 1 0 3 0)
  = exec_match (chr_grammar c) (mk_decoded 0 0 1 0 [c] 5)
      (chr_parser text) (mk_registers 0 1 1 0 5 0).
Proof.
  rewrite (step_decoded U (chr_grammar c) _ _ (mk_decoded 0 0 1 0 [c] 5))
    by reflexivity.
  reflexivity.
Qed.

(** X18.  The expression [chr(c)], compiled, linked by [start] and run
    by [parse].  A character that is a UTF-8 continuation byte cannot be
    compiled: the rune count 0 of its one-character string is rejected
    with [resource_limit_error].  For any other character the parse of
    an input that starts with [c] returns [true] and leaves the rest of
    the input behind; on every other input, the empty one included, it
    returns [false] and leaves the input as it was. *)
Theorem chr_accepts_its_character U c text n :
  zlen text <= size_max ->
  (is_lead c = false ->
   start_expr (chr c) = Raise (lug_exn resource_limit_error))
  /\ (is_lead c = true ->
      (forall rest, text = c :: rest ->
         exists p r,
           lug_parse U (4 + n) text (grammar_of (start_expr (chr c)))
           = Returns true p r
           /\ input_ p = rest)
      /\ (hd_error text <> Some c ->
          exists p r,
            lug_parse U (4 + n) text (grammar_of (start_expr (chr c)))
            = Returns false p r
            /\ input_ p = text)).
Proof.
  intros Hmax. split; [apply chr_not_encoded |].
  intros Hc. rewrite (chr_linked c Hc). cbn [grammar_of].
  change (4 + n)%nat with (S (S (S (S n)))). rewrite chr_enters.
  split.
  - intros rest ->.
    assert (H1 : step U (chr_grammar c) (chr_parser (c :: rest))
                   (mk_registers 0 1 1 0 3 0)
                 = Ok (Running, chr_parser (c :: rest),
                       mk_registers (0 + 1) (wadd 1 1) 1 0 5 0)).
    { rewrite chr_at_match. apply exec_match_hit.
      - discriminate.
      - cbn [ir input_ chr_parser]. rewrite zlen_cons.
        pose proof (zlen_nonneg rest). lia.
      - exact Hmax.
      - reflexivity. }
    rewrite (run_step _ _ _ _ _ _ _ H1).
    rewrite (run_step U (chr_grammar c) (S n) _ _
               (mk_parser (c :: rest) (mk_registers 0 1 1 0 0 0)
                  (mk_subject 0 1 1) true false false 0 [] [] [] [] [] []
                  new_semantics)
               (mk_registers 1 2 1 0 2 0)) by (vm_compute; reflexivity).
    eexists. eexists. split.
    + apply run_done. vm_compute. reflexivity.
    + reflexivity.
  - intros Hhd. eexists. eexists. split.
    + apply run_done. rewrite chr_at_match.
      rewrite exec_match_miss.
      * vm_compute. reflexivity.
      * discriminate.
      * reflexivity.
      * reflexivity.
      * cbn [ir input_ chr_parser]. pose proof (zlen_nonneg text). lia.
      * exact Hmax.
      * apply substr_not_one; [cbn; lia |]. destruct text; exact Hhd.
    + reflexivity.
Qed.

Lemma chr_accepts_its_character_witness :
  exists p r,
    lug_parse sample_unicode (4 + 0) (lit "ab")
      (grammar_of (start_expr (chr "a")))
    = Returns true p r
    /\ input_ p = lit "b".
Proof.
  assert (Hmax : zlen (lit "ab") <= size_max) by (vm_compute; discriminate).
  apply (proj1 (proj2 (chr_accepts_its_character sample_unicode "a"%byte
                         (lit "ab") 0%nat Hmax) eq_refl)).
  reflexivity.
Defined.

(** ** A compiled capture, run *)

Lemma capture_chr_linked c a :
  is_lead c = true ->
  start_expr (e_capture (chr c) a) = Ok (capture_chr c a).
Proof.
  intros Hc. unfold start_expr, make_rule. cbn [evaluate].
  unfold encoder_match. cbn [encoder_match_loop List.length].
  unfold count_runes. cbn [fold_left]. rewrite Hc.
  vm_compute. reflexivity.
Qed.

Lemma capture_chr_enters U c a text n :
  lug_parse U (S (S n)) text (capture_chr c a)
  = run U (capture_chr c a) n (capture_chr_parser text)
      (mk_registers 0 1 1 0 4 0).
Proof.
  unfold lug_parse, parse.
  replace (parse_entry (capture_chr c a) (new_parser text))
    with (Ok (set_parsing (new_parser text) true, mk_registers 0 1 1 0 0 0))
    by (vm_compute; reflexivity).
  rewrite (run_step _ _ (S n) _ _
             (set_call_stack
                (set_stack_frames (set_parsing (new_parser text) true)
                   [frame_call]) [2])
             (mk_registers 0 1 1 0 3 0)) by (vm_compute; reflexivity).
  rewrite (run_step _ _ n _ _ (capture_chr_parser text)
             (mk_registers 0 1 1 0 4 0)) by (vm_compute; reflexivity).
  reflexivity.
Qed.

(** X19.  A capture, compiled, linked and run: for [chr(c) < a] with a
    capture action [a], on an input that starts with [c], the parse
    returns [true], and the final accept calls [a] exactly once - with
    a view of the one character [c] that starts at column 1 and ends at
    column 2 of line 1, on a semantics object whose match is the whole
    input and whose call depth is 1; afterwards the object is cleared
    and the matched character is removed from the input. *)
Theorem capture_receives_the_matched_text U c a rest n :
  is_lead c = true ->
  zlen (c :: rest) <= size_max ->
  exists p r,
    lug_parse U (6 + n) (c :: rest)
      (grammar_of (start_expr (e_capture (chr c) a)))
    = Returns true p r
    /\ semantics_ p
       = clear (a (capture_chr_semantics (c :: rest))
                  (mk_view [c] (mk_position 1 1) (mk_position 2 1)))
    /\ input_ p = rest.
Proof.
  intros Hc Hmax. rewrite (capture_chr_linked c a Hc). cbn [grammar_of].
  change (6 + n)%nat with (S (S (S (S (S (S n)))))).
  rewrite capture_chr_enters.
  assert (H1 : step U (capture_chr c a) (capture_chr_parser (c :: rest))
                 (mk_registers 0 1 1 0 4 0)
               = Ok (Running, capture_chr_parser (c :: rest),
                     mk_registers (0 + 1) (wadd 1 1) 1 0 6 0)).
  { rewrite (step_decoded U (capture_chr c a) _ _
               (mk_decoded 0 0 1 0 [c] 6)) by reflexivity.
    change (exec U (capture_chr c a) (mk_decoded 0 0 1 0 [c] 6)
              (capture_chr_parser (c :: rest))
              (set_pc (mk_registers 0 1 1 0 4 0) 6))
      with (exec_match (capture_chr c a) (mk_decoded 0 0 1 0 [c] 6)
              (capture_chr_parser (c :: rest)) (mk_registers 0 1 1 0 6 0)).
    apply exec_match_hit.
    - discriminate.
    - cbn [ir input_ capture_chr_parser set_pc d_pc]. rewrite zlen_cons.
      pose proof (zlen_nonneg rest). lia.
    - exact Hmax.
    - reflexivity. }
  rewrite (run_step _ _ _ _ _ _ _ H1).
  rewrite (run_step U (capture_chr c a) (S (S n)) _ _
             (mk_parser (c :: rest) (mk_registers 0 1 1 0 0 0)
                (mk_subject 0 1 1) true false false 0 [] [frame_call] []
                [2] [] []
                (mk_semantics [] ushort_max 0 [mk_response 1 0 0]
                   [mk_range 0 1 (mk_position 1 1) (mk_position 2 1)] []))
             (mk_registers 1 2 1 1 7 0)) by (vm_compute; reflexivity).
  rewrite (run_step U (capture_chr c a) (S n) _ _
             (mk_parser (c :: rest) (mk_registers 0 1 1 0 0 0)
                (mk_subject 0 1 1) true false false 0 [] [] []
                [] [] []
                (mk_semantics [] ushort_max 0 [mk_response 1 0 0]
                   [mk_range 0 1 (mk_position 1 1) (mk_position 2 1)] []))
             (mk_registers 1 2 1 1 2 0)) by (vm_compute; reflexivity).
  eexists. eexists. split; [| split].
  - apply run_done. vm_compute. reflexivity.
  - reflexivity.
  - reflexivity.
Qed.

Lemma capture_receives_the_matched_text_witness :
  exists p r,
    lug_parse sample_unicode (6 + 0) ("a"%byte :: lit "b")
      (grammar_of
         (start_expr
            (e_capture (chr "a")
               (fun s v => mk_semantics (match_ s) (prune_depth_ s)
                             (call_depth_ s) (responses_ s) (captures_ s)
                             [view_capture v]))))
    = Returns true p r
    /\ semantics_ p
       = clear
           ((fun s v => mk_semantics (match_ s) (prune_depth_ s)
                          (call_depth_ s) (responses_ s) (captures_ s)
                          [view_capture v])
              (capture_chr_semantics ("a"%byte :: lit "b"))
              (mk_view ["a"%byte] (mk_position 1 1) (mk_position 2 1)))
    /\ input_ p = lit "b".
Proof.
  apply (capture_receives_the_matched_text sample_unicode "a"%byte).
  - reflexivity.
  - vm_compute. discriminate.
Defined.

(** ** The scan for left recursion *)

(** X20.  The scan of the caller frames in [start], newest frame first:
    a callee is found among its callers exactly when it occurs in the
    call stack and every frame that is newer than its newest occurrence
    is a left-most call of another rule. *)
Theorem reappears_spec callee_ callstack :
  reappears callee_ callstack = true
  <-> exists front lm back,
        callstack = front ++ (callee_, lm) :: back
        /\ Forall (fun f => fst f <> callee_ /\ snd f = true) front.
Proof.
  induction callstack as [| [caller left_most] older IH];
    cbn [reappears].
  - split; [discriminate |]. intros (front & lm & back & H & _).
    destruct front; discriminate.
  - destruct (Nat.eqb caller callee_) eqn:E.
    + apply Nat.eqb_eq in E. subst caller.
      split; [| reflexivity]. intros _.
      exists [], left_most, older. split; [reflexivity | constructor].
    + apply Nat.eqb_neq in E. destruct left_most; cbn [negb].
      * rewrite IH. split.
        -- intros (front & lm & back & -> & Hf).
           exists ((caller, true) :: front), lm, back.
           split; [reflexivity |]. constructor; [split; auto | exact Hf].
        -- intros (front & lm & back & H & Hf).
           destruct front as [| f front].
           ++ inversion H. congruence.
           ++ inversion H; subst. inversion Hf; subst.
              exists front, lm, back. split; [reflexivity | assumption].
      * split; [discriminate |].
        intros (front & lm & back & H & Hf).
        destruct front as [| f front].
        -- inversion H. congruence.
        -- inversion H; subst. inversion Hf; subst.
           destruct H2 as [_ H2]. discriminate.
Qed.

Lemma reappears_spec_witness :
  reappears 1 [(2%nat, true); (1%nat, false); (0%nat, false)] = true.
Proof.
  apply (proj2 (reappears_spec 1 [(2%nat, true); (1%nat, false);
                                  (0%nat, false)])).
  exists [(2%nat, true)], false, [(0%nat, false)].
  split; [reflexivity |].
  constructor; [split; [discriminate | reflexivity] | constructor].
Defined.

(** ** The call sites that a rule notes *)





































(** ** Linking a left-recursive rule *)

Lemma set_nth_app {A} (l1 l2 : list A) (x y : A) :
  set_nth (l1 ++ x :: l2) (zlen l1) y = l1 ++ y :: l2.
Proof.
  unfold set_nth, zlen. rewrite Nat2Z.id.
  rewrite firstn_length_app.
  replace (S (List.length l1)) with (List.length (l1 ++ [x]))
    by (rewrite length_app; cbn; lia).
  replace (l1 ++ x :: l2) with ((l1 ++ [x]) ++ l2)
    by (rewrite <- app_assoc; reflexivity).
  rewrite skipn_length_app. reflexivity.
Qed.

Lemma read_pf_app l1 l2 pf :
  read_pf (l1 ++ I_pf pf :: l2) (zlen l1) = Ok pf.
Proof. unfold read_pf. rewrite code_at_app. reflexivity. Qed.

Lemma read_off_app l1 l2 o :
  read_off (l1 ++ I_off o :: l2) (zlen l1) = Ok o.
Proof. unfold read_off. rewrite code_at_app. reflexivity. Qed.

Lemma resolve_calls_step k sub cs l1 pf o l2 :
  let pf' :=
    if pf_op pf =? opcode_byte opcode_call
    then mk_prefix (pf_op pf) (pf_aux pf)
           (if existsb (Nat.eqb sub) (left_recursive k)
            then (if negb (pf_val pf =? 0) then pf_val pf else 1)
            else 0)
    else pf in
  let rel :=
    o + match lookup sub (addresses k) with Some a => a | None => 0 end
    - (zlen l1 + 2) in
  int_min <= rel <= int_max ->
  resolve_calls k ((sub, zlen l1) :: cs) (l1 ++ I_pf pf :: I_off o :: l2)
  = resolve_calls k cs (l1 ++ I_pf pf' :: I_off rel :: l2).
Proof.
  intros pf' rel Hrel. cbn [resolve_calls]. rewrite read_pf_app.
  cbn [bind].
  assert (E : (if pf_op pf =? opcode_byte opcode_call
               then set_nth (l1 ++ I_pf pf :: I_off o :: l2) (zlen l1)
                      (I_pf (mk_prefix (pf_op pf) (pf_aux pf)
                               (if existsb (Nat.eqb sub) (left_recursive k)
                                then (if negb (pf_val pf =? 0)
                                      then pf_val pf else 1)
                                else 0)))
               else l1 ++ I_pf pf :: I_off o :: l2)
              = (l1 ++ [I_pf pf']) ++ I_off o :: l2).
  { unfold pf'. destruct (pf_op pf =? opcode_byte opcode_call).
    - rewrite set_nth_app, <- app_assoc. reflexivity.
    - rewrite <- app_assoc. reflexivity. }
  rewrite E.
  replace (zlen l1 + 1) with (zlen (l1 ++ [I_pf pf']))
    by (rewrite zlen_app; reflexivity).
  rewrite read_off_app. cbn [bind]. unfold assure_in_range.
  replace (zlen (l1 ++ [I_pf pf']) + 1) with (zlen l1 + 2)
    by (rewrite zlen_app; change (zlen [I_pf pf']) with 1; lia).
  fold rel.
  replace ((int_min <=? rel) && (rel <=? int_max)) with true
    by (symmetry; apply andb_true_intro; split; apply Z.leb_le; lia).
  cbn [bind]. rewrite set_nth_app, <- app_assoc. reflexivity.
Qed.

(** X22.  [start] on a left-recursive start rule: when the only callee
    of the start rule is the rule itself, called left-most, the linker
    finds the recursion; the call of the start rule that it puts in
    front gets the precedence 1 and the offset 1, and the recursive call
    inside the rule keeps its precedence if it has one and gets 1
    otherwise, with the offset that leads back to the first instruction
    of the rule - so both calls are run as left-recursive calls.  The
    rest of the code of the rule is copied unchanged and a return is
    added. *)
Theorem start_of_left_recursive_rule rules root r pre post prec_ :
  nth_error rules root = Some r ->
  callees_ r = [mk_callee root (zlen pre) true] ->
  instructions (program_ r)
  = pre ++ I_pf (mk_prefix (opcode_byte opcode_call) operands_off prec_)
        :: I_off 0 :: post ->
  whole_instructions (instructions (program_ r)) ->
  zlen (instructions (program_ r)) <= size_max - 3 ->
  zlen pre <= int_max - 1 ->
  start rules root = Ok (left_recursive_grammar r pre post prec_).
Proof.
  intros Hr Hc Hcode Hw Hsz Hpre. unfold start, encoder_call. rewrite Hr.
  cbn [of_option bind is_self andb].
  unfold add_callee, new_encoder. cbn.
  unfold link_bound. cbn [link_loop unprocessed lookup addresses bind].
  rewrite ?Hr. cbn [of_option bind].
  unfold concatenate.
  cbn [instructions predicates actions captures grprogram matches_eps].
  unfold checked_add.
  assert (E : (size_max - 3 <? zlen (instructions (program_ r))) = false)
    by (apply Z.ltb_ge; lia).
  change (zlen [_; _; _]) with 3. rewrite E.
  cbn [bind]. change (zlen (@nil semantic_predicate)) with 0.
  change (zlen (@nil semantic_action)) with 0.
  change (zlen (@nil semantic_capture)) with 0.
  rewrite (concatenate_loop_whole _ Hw) by lia.
  cbn [bind]. rewrite Hc. cbn [link_callees].
  cbn [callee_left_most callee_rule callee_offset andb reappears].
  rewrite Nat.eqb_refl.
  cbn [grprogram addresses calls left_recursive unprocessed is_nil bind app
       set_instructions instructions predicates actions captures
       matches_eps].
  rewrite Hcode.
  match goal with
  | |- context [resolve_calls ?k _ _] => set (lk := k)
  end.
  pose proof (zlen_nonneg pre) as Hp0.
  assert (Hlr : left_recursive lk = [root]) by reflexivity.
  assert (Had : addresses lk = [(root, 3)]) by reflexivity.
  pose proof (resolve_calls_step lk root [(root, 3 + zlen pre)] []
                (mk_prefix 7 operands_off 0) 0
                (I_pf (mk_prefix 10 1 0)
                 :: (pre ++ I_pf (mk_prefix (opcode_byte opcode_call)
                                    operands_off prec_)
                         :: I_off 0 :: post)
                    ++ [I_pf (mk_prefix 8 operands_none 0)])) as S1.
  cbn zeta in S1. rewrite Hlr, Had in S1.
  cbn [app lookup existsb pf_op pf_aux pf_val] in S1.
  rewrite Nat.eqb_refl in S1. cbn [orb] in S1.
  change (zlen (@nil instruction)) with 0 in S1.
  change (7 =? opcode_byte opcode_call) with true in S1.
  change (negb (0 =? 0)) with false in S1. cbn iota in S1.
  change (0 + 3 - (0 + 2)) with 1 in S1.
  rewrite S1 by (unfold int_min, int_max; lia). clear S1.
  pose proof (resolve_calls_step lk root []
                ([I_pf (mk_prefix 7 operands_off 1); I_off 1;
                  I_pf (mk_prefix 10 1 0)] ++ pre)
                (mk_prefix (opcode_byte opcode_call) operands_off prec_) 0
                (post ++ [I_pf (mk_prefix 8 operands_none 0)])) as S2.
  cbn zeta in S2. rewrite Hlr, Had in S2.
  cbn [lookup existsb pf_op pf_aux pf_val] in S2.
  rewrite Nat.eqb_refl in S2. cbn [orb] in S2.
  rewrite Z.eqb_refl in S2.
  rewrite zlen_app in S2. change (zlen [_; _; _]) with 3 in S2.
  rewrite <- !app_assoc in S2. cbn [app] in S2.
  rewrite <- !app_assoc. cbn [app].
  rewrite S2 by (unfold int_min, int_max in *; lia). clear S2.
  cbn [resolve_calls bind]. unfold left_recursive_grammar, set_instructions.
  cbn [instructions predicates actions captures matches_eps app].
  rewrite Bool.andb_diag, <- ?app_assoc. cbn [app].
  replace (0 + 3 - (3 + zlen pre + 2)) with (- (zlen pre + 2)) by lia.
  destruct (prec_ =? 0); reflexivity.
Qed.

Lemma start_of_left_recursive_rule_witness :
  start
    [mk_rule
       (mk_program
          [I_pf (mk_prefix 4 64 0); I_off 6;
           I_pf (mk_prefix 7 64 0); I_off 0;
           I_pf (mk_prefix 0 128 0); I_str (lit "a");
           I_pf (mk_prefix 5 64 0); I_off 2;
           I_pf (mk_prefix 0 128 0); I_str (lit "b")]
          [] [] [] false)
       [mk_callee 0 2 true]] 0
  = Ok (left_recursive_grammar
          (mk_rule
             (mk_program
                [I_pf (mk_prefix 4 64 0); I_off 6;
                 I_pf (mk_prefix 7 64 0); I_off 0;
                 I_pf (mk_prefix 0 128 0); I_str (lit "a");
                 I_pf (mk_prefix 5 64 0); I_off 2;
                 I_pf (mk_prefix 0 128 0); I_str (lit "b")]
                [] [] [] false)
             [mk_callee 0 2 true])
          [I_pf (mk_prefix 4 64 0); I_off 6]
          [I_pf (mk_prefix 0 128 0); I_str (lit "a");
           I_pf (mk_prefix 5 64 0); I_off 2;
           I_pf (mk_prefix 0 128 0); I_str (lit "b")]
          0).
Proof.
  apply start_of_left_recursive_rule.
  - reflexivity.
  - reflexivity.
  - reflexivity.
  - apply (whole_cons (mk_prefix 4 64 0) [I_off 6]);
      [vm_compute; reflexivity |].
    apply (whole_cons (mk_prefix 7 64 0) [I_off 0]);
      [vm_compute; reflexivity |].
    apply (whole_cons (mk_prefix 0 128 0) [I_str (lit "a")]);
      [vm_compute; reflexivity |].
    apply (whole_cons (mk_prefix 5 64 0) [I_off 2]);
      [vm_compute; reflexivity |].
    apply (whole_cons (mk_prefix 0 128 0) [I_str (lit "b")] []);
      [vm_compute; reflexivity | constructor].
  - vm_compute. discriminate.
  - vm_compute. discriminate.
Defined.

(** ** A left-recursive rule, run *)

Lemma lr_linked a b :
  is_lead a = true -> is_lead b = true ->
  (r <- make_rule [empty_rule] (Some 0%nat)
          (e_alt (e_seq (e_rule 0 0) (chr a)) (chr b)) ;;
   start [r] 0)
  = Ok (lr_grammar a b).
Proof.
  intros Ha Hb. unfold make_rule. cbn [evaluate].
  unfold encoder_match. cbn [encoder_match_loop List.length].
  unfold count_runes. cbn [fold_left]. rewrite Ha, Hb.
  vm_compute. reflexivity.
Qed.

Lemma exec_call_answer prog d p r memo older :
  d_imm d <> 0 ->
  lrmemo_stack_ p = memo :: older ->
  s_ir (sr memo) = ir r -> pca memo = pc r + d_off d ->
  s_ir (sa memo) <> lrfailcode -> prec memo <= d_imm d ->
  exec_call prog d p r
  = (let '(n, sem) := restore_responses_after (semantics_ p) (rc r)
                        (responses memo) in
     Ok (Running, set_semantics p sem,
         mk_registers (s_ir (sa memo)) (s_cr (sa memo)) (s_lr (sa memo))
           n (pc r) (fc r))).
Proof.
  intros Hi Hm Hs Ht Hf Hp. unfold exec_call.
  replace (negb (d_imm d =? 0)) with true
    by (symmetry; apply negb_true_iff, Z.eqb_neq; exact Hi).
  rewrite Hm. cbn [find_memo]. rewrite Hs, Ht.
  replace (ir r >=? ir r) with true by (symmetry; apply Z.geb_le; lia).
  rewrite !Z.eqb_refl. cbn [andb].
  replace (s_ir (sa memo) =? lrfailcode) with false
    by (symmetry; apply Z.eqb_neq; exact Hf).
  replace (d_imm d <? prec memo) with false
    by (symmetry; apply Z.ltb_ge; exact Hp).
  reflexivity.
Qed.

Lemma exec_ret_grows prog d p r memo older fs :
  stack_frames_ p = frame_lrcall :: fs ->
  lrmemo_stack_ p = memo :: older ->
  s_ir (sa memo) < ir r ->
  exec_ret prog d p r
  = (let '(dropped, sem) := drop_responses_after (semantics_ p) (rcr memo) in
     Ok (Running,
         set_semantics
           (set_lrmemo_stack p
              (mk_lrmemo (sr memo) (mk_subject (ir r) (cr r) (lr r))
                 (rcr memo) (pcr memo) (pca memo) dropped (prec memo)
               :: older))
           sem,
         mk_registers (s_ir (sr memo)) (s_cr (sr memo)) (s_lr (sr memo))
           (rcr memo) (pca memo) (fc r))).
Proof.
  intros Hfs Hm Hlt. unfold exec_ret. rewrite Hfs, Hm.
  replace (s_ir (sa memo) <? ir r) with true
    by (symmetry; apply Z.ltb_lt; exact Hlt).
  rewrite Bool.orb_true_r. reflexivity.
Qed.

Lemma exec_ret_answers prog d p r memo older fs :
  stack_frames_ p = frame_lrcall :: fs ->
  lrmemo_stack_ p = memo :: older ->
  s_ir (sa memo) <> lrfailcode -> ir r <= s_ir (sa memo) ->
  exec_ret prog d p r
  = (let '(n, sem) := restore_responses_after (semantics_ p) (rcr memo)
                        (responses memo) in
     ' (p, r) <- pop_stack_frame prog frame_lrcall (set_semantics p sem)
                   (mk_registers (s_ir (sa memo)) (s_cr (sa memo))
                      (s_lr (sa memo)) n (pcr memo) (fc r)) ;;
     Ok (Running, p, r)).
Proof.
  intros Hfs Hm Hf Hle. unfold exec_ret. rewrite Hfs, Hm.
  replace (s_ir (sa memo) =? lrfailcode) with false
    by (symmetry; apply Z.eqb_neq; exact Hf).
  replace (s_ir (sa memo) <? ir r) with false
    by (symmetry; apply Z.ltb_ge; exact Hle).
  reflexivity.
Qed.

Section LeftRecursion.

Variable U : unicode.
Variables a b : byte.
Variable text : bytes.
Hypothesis Hmax : zlen text < size_max.

Lemma lr_step_choice j col far :
  step U (lr_grammar a b) (lr_parser text j col far)
    (mk_registers 0 1 1 0 3 0)
  = Ok (Running, lr_parser_in text j col far, mk_registers 0 1 1 0 5 0).
Proof. vm_compute. reflexivity. Qed.

Lemma lr_step_call j col far :
  0 <= j <= zlen text ->
  step U (lr_grammar a b) (lr_parser_in text j col far)
    (mk_registers 0 1 1 0 5 0)
  = Ok (Running, lr_parser_in text j col far, mk_registers j col 1 0 7 0).
Proof.
  intros Hj.
  rewrite (step_decoded U (lr_grammar a b) _ _ (mk_decoded 7 0 1 (-4) [] 7))
    by reflexivity.
  change (exec_call (lr_grammar a b) (mk_decoded 7 0 1 (-4) [] 7)
            (lr_parser_in text j col far) (mk_registers 0 1 1 0 7 0)
          = Ok (Running, lr_parser_in text j col far,
                mk_registers j col 1 0 7 0)).
  rewrite (exec_call_answer (lr_grammar a b) _ _ _ (lr_memo j col) []).
  - reflexivity.
  - discriminate.
  - reflexivity.
  - reflexivity.
  - reflexivity.
  - cbn [s_ir sa lr_memo]. unfold lrfailcode. lia.
  - cbn. lia.
Qed.

Lemma lr_at_match_a j col far :
  step U (lr_grammar a b) (lr_parser_in text j col far)
    (mk_registers j col 1 0 7 0)
  = exec_match (lr_grammar a b) (mk_decoded 0 0 1 0 [a] 9)
      (lr_parser_in text j col far) (mk_registers j col 1 0 9 0).
Proof.
  rewrite (step_decoded U (lr_grammar a b) _ _ (mk_decoded 0 0 1 0 [a] 9))
    by reflexivity.
  reflexivity.
Qed.

Lemma lr_step_match_a j col far :
  0 <= j -> nth_error text (Z.to_nat j) = Some a ->
  step U (lr_grammar a b) (lr_parser_in text j col far)
    (mk_registers j col 1 0 7 0)
  = Ok (Running, lr_parser_in text j col far,
        mk_registers (j + 1) (wadd col 1) 1 0 9 0).
Proof.
  intros Hj Ha. rewrite lr_at_match_a. apply exec_match_hit.
  - discriminate.
  - cbn [ir input_ lr_parser_in]. split; [exact Hj |].
    assert (Z.to_nat j < List.length text)%nat
      by (apply nth_error_Some; congruence).
    unfold zlen. lia.
  - cbn [input_ lr_parser_in]. lia.
  - apply substr_one; assumption.
Qed.

Lemma lr_step_commit j col far i c :
  step U (lr_grammar a b) (lr_parser_in text j col far)
    (mk_registers i c 1 0 9 0)
  = Ok (Running, lr_parser text j col far, mk_registers i c 1 0 13 0).
Proof. vm_compute. reflexivity. Qed.

Lemma lr_step_grow j col far i c :
  j < i ->
  step U (lr_grammar a b) (lr_parser text j col far)
    (mk_registers i c 1 0 13 0)
  = Ok (Running, lr_parser text i c far, mk_registers 0 1 1 0 3 0).
Proof.
  intros Hlt.
  rewrite (step_decoded U (lr_grammar a b) _ _ (mk_decoded 8 0 0 0 [] 14))
    by reflexivity.
  change (exec_ret (lr_grammar a b) (mk_decoded 8 0 0 0 [] 14)
            (lr_parser text j col far) (mk_registers i c 1 0 14 0)
          = Ok (Running, lr_parser text i c far,
                mk_registers 0 1 1 0 3 0)).
  rewrite (exec_ret_grows (lr_grammar a b) _ _ _ (lr_memo j col) [] []).
  - reflexivity.
  - reflexivity.
  - reflexivity.
  - exact Hlt.
Qed.

Lemma lr_turn j col far n :
  0 <= j -> nth_error text (Z.to_nat j) = Some a ->
  run U (lr_grammar a b) (5 + n) (lr_parser text j col far)
    (mk_registers 0 1 1 0 3 0)
  = run U (lr_grammar a b) n (lr_parser text (j + 1) (wadd col 1) far)
      (mk_registers 0 1 1 0 3 0).
Proof.
  intros Hj Ha. change (5 + n)%nat with (S (S (S (S (S n))))).
  assert (Hlen : j < zlen text).
  { assert (Z.to_nat j < List.length text)%nat
      by (apply nth_error_Some; congruence).
    unfold zlen. lia. }
  rewrite (run_step _ _ _ _ _ _ _ (lr_step_choice j col far)).
  rewrite (run_step _ _ _ _ _ _ _ (lr_step_call j col far ltac:(lia))).
  rewrite (run_step _ _ _ _ _ _ _ (lr_step_match_a j col far Hj Ha)).
  rewrite (run_step _ _ _ _ _ _ _
             (lr_step_commit j col far (j + 1) (wadd col 1))).
  rewrite (run_step _ _ _ _ _ _ _
             (lr_step_grow j col far (j + 1) (wadd col 1) ltac:(lia))).
  reflexivity.
Qed.

Lemma lr_leaves j col far n :
  1 <= j <= zlen text ->
  hd_error text = Some b ->
  nth_error text (Z.to_nat j) <> Some a ->
  exists p r,
    run U (lr_grammar a b) (6 + n) (lr_parser text j col far)
      (mk_registers 0 1 1 0 3 0)
    = Returns true p r
    /\ input_ p = skipn (Z.to_nat j) text.
Proof.
  intros Hj Hb Ha. change (6 + n)%nat with (S (S (S (S (S (S n)))))).
  rewrite (run_step _ _ _ _ _ _ _ (lr_step_choice j col far)).
  rewrite (run_step _ _ _ _ _ _ _ (lr_step_call j col far ltac:(lia))).
  assert (H3 : exists far',
             step U (lr_grammar a b) (lr_parser_in text j col far)
               (mk_registers j col 1 0 7 0)
             = Ok (Running, lr_parser text j col far',
                   mk_registers 0 1 1 0 11 0)).
  { rewrite lr_at_match_a.
    rewrite exec_match_miss;
      [| discriminate | reflexivity | reflexivity
       | cbn [ir input_ lr_parser_in]; lia
       | cbn [input_ lr_parser_in]; lia
       | apply substr_not_one; [cbn [ir]; lia | exact Ha]].
    unfold goto_failure, failure.
    cbn [max_input_ lr_parser_in ir cr lr].
    destruct (s_ir far <? j); eexists; vm_compute; reflexivity. }
  destruct H3 as (far' & H3).
  rewrite (run_step _ _ _ _ _ _ _ H3).
  assert (H4 : step U (lr_grammar a b) (lr_parser text j col far')
                 (mk_registers 0 1 1 0 11 0)
               = Ok (Running, lr_parser text j col far',
                     mk_registers (0 + 1) (wadd 1 1) 1 0 13 0)).
  { rewrite (step_decoded U (lr_grammar a b) _ _
               (mk_decoded 0 0 1 0 [b] 13)) by reflexivity.
    change (exec_match (lr_grammar a b) (mk_decoded 0 0 1 0 [b] 13)
              (lr_parser text j col far') (mk_registers 0 1 1 0 13 0)
            = Ok (Running, lr_parser text j col far',
                  mk_registers (0 + 1) (wadd 1 1) 1 0 13 0)).
    apply exec_match_hit.
    - discriminate.
    - cbn [ir input_ lr_parser]. lia.
    - cbn [input_ lr_parser]. lia.
    - apply substr_one; [cbn [ir]; lia |].
      destruct text; [discriminate | exact Hb]. }
  rewrite (run_step _ _ _ _ _ _ _ H4).
  assert (H5 : step U (lr_grammar a b) (lr_parser text j col far')
                 (mk_registers (0 + 1) (wadd 1 1) 1 0 13 0)
               = Ok (Running,
                     mk_parser text (mk_registers 0 1 1 0 0 0) far' true
                       false false 0 [] [] [] [] [] [] new_semantics,
                     mk_registers j col 1 0 2 0)).
  { rewrite (step_decoded U (lr_grammar a b) _ _
               (mk_decoded 8 0 0 0 [] 14)) by reflexivity.
    change (exec_ret (lr_grammar a b) (mk_decoded 8 0 0 0 [] 14)
              (lr_parser text j col far')
              (mk_registers (0 + 1) (wadd 1 1) 1 0 14 0)
            = Ok (Running,
                  mk_parser text (mk_registers 0 1 1 0 0 0) far' true
                    false false 0 [] [] [] [] [] [] new_semantics,
                  mk_registers j col 1 0 2 0)).
    rewrite (exec_ret_answers (lr_grammar a b) _ _ _ (lr_memo j col) [] []).
    - vm_compute. reflexivity.
    - reflexivity.
    - reflexivity.
    - cbn [s_ir sa lr_memo]. unfold lrfailcode. lia.
    - cbn [s_ir sa lr_memo ir]. lia. }
  rewrite (run_step _ _ _ _ _ _ _ H5).
  eexists. eexists. split.
  - apply run_done. vm_compute. reflexivity.
  - reflexivity.
Qed.

End LeftRecursion.

Lemma lr_loop U a b k :
  forall pre rest col far n,
    hd_error pre = Some b ->
    hd_error rest <> Some a ->
    zlen (pre ++ repeat a k ++ rest) < size_max ->
    exists p r,
      run U (lr_grammar a b) (5 * k + 6 + n)
        (lr_parser (pre ++ repeat a k ++ rest) (zlen pre) col far)
        (mk_registers 0 1 1 0 3 0)
      = Returns true p r
      /\ input_ p = rest.
Proof.
  induction k as [| k IH]; intros pre rest col far n Hpre Hrest Hmax.
  - cbn [repeat app Nat.mul Nat.add] in *.
    destruct (lr_leaves U a b (pre ++ rest) Hmax (zlen pre) col far n)
      as (p & r & Hrun & Hin).
    + rewrite zlen_app. pose proof (zlen_nonneg rest).
      destruct pre; [discriminate |]. rewrite zlen_cons.
      pose proof (zlen_nonneg pre). lia.
    + destruct pre; [discriminate | exact Hpre].
    + unfold zlen. rewrite Nat2Z.id, nth_error_app2 by lia.
      rewrite Nat.sub_diag. destruct rest; exact Hrest.
    + exists p, r. split; [exact Hrun |]. rewrite Hin.
      unfold zlen. rewrite Nat2Z.id. apply skipn_length_app.
  - replace (5 * S k + 6 + n)%nat with (5 + (5 * k + 6 + n))%nat by lia.
    rewrite (lr_turn U a b _ Hmax (zlen pre) col far _ (zlen_nonneg pre)).
    + replace (pre ++ repeat a (S k) ++ rest)
        with ((pre ++ [a]) ++ repeat a k ++ rest) in *
        by (rewrite <- app_assoc; reflexivity).
      replace (zlen pre + 1) with (zlen (pre ++ [a]))
        by (rewrite zlen_app; reflexivity).
      apply IH; try assumption.
      destruct pre; [discriminate | exact Hpre].
    + unfold zlen. rewrite Nat2Z.id, nth_error_app2 by lia.
      rewrite Nat.sub_diag. reflexivity.
Qed.

Lemma lr_enters U a b t n :
  zlen (b :: t) < size_max ->
  lug_parse U (5 + n) (b :: t) (lr_grammar a b)
  = run U (lr_grammar a b) n (lr_parser (b :: t) 1 2 (mk_subject 0 1 1))
      (mk_registers 0 1 1 0 3 0).
Proof.
  intros Hmax. change (5 + n)%nat with (S (S (S (S (S n))))).
  unfold lug_parse, parse.
  replace (parse_entry (lr_grammar a b) (new_parser (b :: t)))
    with (Ok (set_parsing (new_parser (b :: t)) true,
              mk_registers 0 1 1 0 0 0))
    by (vm_compute; reflexivity).
  rewrite (run_step U (lr_grammar a b) _ _ _
             (lr_seed (b :: t)) (mk_registers 0 1 1 0 3 0))
    by (vm_compute; reflexivity).
  rewrite (run_step U (lr_grammar a b) _ _ _
             (set_backtrack_stack
                (set_stack_frames (lr_seed (b :: t))
                   [frame_backtrack; frame_lrcall])
                [mk_backtrack 0 1 1 0 11])
             (mk_registers 0 1 1 0 5 0))
    by (vm_compute; reflexivity).
  rewrite (run_step U (lr_grammar a b) _ _ _
             (lr_seed (b :: t)) (mk_registers 0 1 1 0 11 0))
    by (vm_compute; reflexivity).
  assert (H4 : step U (lr_grammar a b) (lr_seed (b :: t))
                 (mk_registers 0 1 1 0 11 0)
               = Ok (Running, lr_seed (b :: t),
                     mk_registers (0 + 1) (wadd 1 1) 1 0 13 0)).
  { rewrite (step_decoded U (lr_grammar a b) _ _
               (mk_decoded 0 0 1 0 [b] 13)) by reflexivity.
    change (exec_match (lr_grammar a b) (mk_decoded 0 0 1 0 [b] 13)
              (lr_seed (b :: t)) (mk_registers 0 1 1 0 13 0)
            = Ok (Running, lr_seed (b :: t),
                  mk_registers (0 + 1) (wadd 1 1) 1 0 13 0)).
    apply exec_match_hit.
    - discriminate.
    - cbn [ir input_ lr_seed]. rewrite zlen_cons.
      pose proof (zlen_nonneg t). lia.
    - cbn [input_ lr_seed]. lia.
    - reflexivity. }
  rewrite (run_step _ _ _ _ _ _ _ H4).
  rewrite (run_step U (lr_grammar a b) _ _ _
             (lr_parser (b :: t) 1 2 (mk_subject 0 1 1))
             (mk_registers 0 1 1 0 3 0))
    by (vm_compute; reflexivity).
  reflexivity.
Qed.

(** X23.  A left-recursive rule, compiled, linked and run: for
    [R = R chr(a) | chr(b)], on an input that starts with [b] followed
    by [k] characters [a] and then by something else (or by nothing),
    the parse returns [true] after [5k + 11] instructions and what is
    left of the input is the part behind those [k + 1] characters: the
    seed [b] of the left-recursive call is grown once for every [a].  On
    an input that does not start with [b] the parse returns [false] and
    keeps the input. *)
Theorem left_recursion_grows_the_seed U a b n :
  is_lead a = true -> is_lead b = true ->
  let g :=
    grammar_of
      (r <- make_rule [empty_rule] (Some 0%nat)
              (e_alt (e_seq (e_rule 0 0) (chr a)) (chr b)) ;;
       start [r] 0) in
  (forall k rest,
     hd_error rest <> Some a ->
     zlen (b :: repeat a k ++ rest) < size_max ->
     exists p r,
       lug_parse U (5 * k + 11 + n) (b :: repeat a k ++ rest) g
       = Returns true p r
       /\ input_ p = rest)
  /\ (forall text,
        hd_error text <> Some b ->
        zlen text < size_max ->
        exists p r,
          lug_parse U (4 + n) text g = Returns false p r
          /\ input_ p = text).
Proof.
  intros Ha Hb g. subst g. rewrite (lr_linked a b Ha Hb). cbn [grammar_of].
  split.
  - intros k rest Hrest Hmax.
    replace (5 * k + 11 + n)%nat with (5 + (5 * k + 6 + n))%nat by lia.
    rewrite (lr_enters U a b _ _ Hmax).
    exact (lr_loop U a b k [b] rest 2 (mk_subject 0 1 1) n eq_refl Hrest
             Hmax).
  - intros text Hhd Hmax. change (4 + n)%nat with (S (S (S (S n)))).
    unfold lug_parse, parse.
    replace (parse_entry (lr_grammar a b) (new_parser text))
      with (Ok (set_parsing (new_parser text) true,
                mk_registers 0 1 1 0 0 0))
      by (vm_compute; reflexivity).
    rewrite (run_step U (lr_grammar a b) _ _ _
               (lr_seed text) (mk_registers 0 1 1 0 3 0))
      by (vm_compute; reflexivity).
    rewrite (run_step U (lr_grammar a b) _ _ _
               (set_backtrack_stack
                  (set_stack_frames (lr_seed text)
                     [frame_backtrack; frame_lrcall])
                  [mk_backtrack 0 1 1 0 11])
               (mk_registers 0 1 1 0 5 0))
      by (vm_compute; reflexivity).
    rewrite (run_step U (lr_grammar a b) _ _ _
               (lr_seed text) (mk_registers 0 1 1 0 11 0))
      by (vm_compute; reflexivity).
    assert (H4 : exists p r,
               step U (lr_grammar a b) (lr_seed text)
                 (mk_registers 0 1 1 0 11 0)
               = Ok (Done false, p, r)
               /\ input_ p = text).
    { assert (E : step U (lr_grammar a b) (lr_seed text)
                    (mk_registers 0 1 1 0 11 0)
                  = exec_match (lr_grammar a b) (mk_decoded 0 0 1 0 [b] 13)
                      (lr_seed text) (mk_registers 0 1 1 0 13 0)).
      { rewrite (step_decoded U (lr_grammar a b) _ _
                   (mk_decoded 0 0 1 0 [b] 13)) by reflexivity.
        reflexivity. }
      rewrite E.
      rewrite exec_match_miss;
        [| discriminate | reflexivity | reflexivity
         | cbn [ir input_ lr_seed]; pose proof (zlen_nonneg text); lia
         | cbn [input_ lr_seed]; lia
         | apply substr_not_one; [cbn [ir]; lia | destruct text; exact Hhd]].
      eexists. eexists. split; [vm_compute; reflexivity | reflexivity]. }
    destruct H4 as (p & r & H4 & Hin).
    exists (set_parsing p false), r. split.
    + apply run_done. exact H4.
    + destruct p. exact Hin.
Qed.

Lemma left_recursion_grows_the_seed_witness :
  exists p r,
    lug_parse sample_unicode (5 * 2 + 11 + 0)
      ("b"%byte :: repeat "a"%byte 2 ++ lit "c")
      (grammar_of
         (r <- make_rule [empty_rule] (Some 0%nat)
                 (e_alt (e_seq (e_rule 0 0) (chr "a")) (chr "b")) ;;
          start [r] 0))
    = Returns true p r
    /\ input_ p = lit "c".
Proof.
  apply (proj1 (left_recursion_grows_the_seed sample_unicode "a"%byte
                  "b"%byte 0%nat eq_refl eq_refl) 2%nat (lit "c")).
  - discriminate.
  - vm_compute. reflexivity.
Defined.

(** ** Long strings *)

Lemma strip_to_lead (c : byte) (l1 l2 : bytes) :
  Forall (fun x => is_lead x = false) l1 -> is_lead c = true ->
  (fix strip (l : bytes) : bytes :=
     match l with
     | [] => []
     | x :: t => if is_lead x then l else strip t
     end) (l1 ++ c :: l2)
  = c :: l2.
Proof.
  intros H Hc. induction H as [| x l1 Hx _ IH]; cbn [app].
  - rewrite Hc. reflexivity.
  - rewrite Hx. exact IH.
Qed.

Lemma strip_no_lead (l : bytes) :
  Forall (fun x => is_lead x = false) l ->
  (fix strip (l : bytes) : bytes :=
     match l with
     | [] => []
     | x :: t => if is_lead x then l else strip t
     end) l
  = [].
Proof.
  intros H. induction H as [| x l Hx _ IH]; [reflexivity |].
  rewrite Hx. exact IH.
Qed.

Lemma trim_block_lead pre c tail :
  is_lead c = true -> Forall (fun x => is_lead x = false) tail ->
  trim_block (pre ++ c :: tail) = pre.
Proof.
  intros Hc Ht. unfold trim_block.
  rewrite rev_app_distr. cbn [rev]. rewrite <- app_assoc. cbn [app].
  rewrite strip_to_lead; [| apply Forall_rev; exact Ht | exact Hc].
  cbn [skipn]. apply rev_involutive.
Qed.

Lemma trim_block_no_lead s :
  Forall (fun x => is_lead x = false) s -> trim_block s = [].
Proof.
  intros H. unfold trim_block.
  rewrite strip_no_lead by (apply Forall_rev; exact H). reflexivity.
Qed.

(** X24.  The block that [encoder::match] cuts off a long sequence ends
    in front of the last lead byte of the first 256 characters: if a
    block is [pre], a lead byte and continuation bytes only, the
    subsequence that is encoded is [pre] - a whole number of runes when
    the sequence is UTF-8; and from a block without any lead byte
    nothing is left. *)
Theorem trim_block_cuts_before_the_last_lead pre c tail :
  is_lead c = true ->
  Forall (fun x => is_lead x = false) tail ->
  trim_block (pre ++ c :: tail) = pre /\ trim_block tail = [].
Proof.
  intros Hc Ht. split.
  - exact (trim_block_lead pre c tail Hc Ht).
  - exact (trim_block_no_lead tail Ht).
Qed.

Lemma trim_block_cuts_before_the_last_lead_witness :
  trim_block (lit "ab" ++ "c"%byte :: [x80; x81]) = lit "ab"
  /\ trim_block [x80; x81] = [].
Proof.
  apply trim_block_cuts_before_the_last_lead.
  - reflexivity.
  - repeat constructor.
Defined.

Lemma encoder_match_stuck s d :
  maxstrlen < zlen s ->
  Forall (fun x => is_lead x = false)
    (skipn 1 (firstn (Z.to_nat maxstrlen) s)) ->
  forall fuel,
    encoder_match_loop (S fuel) s d = encoder_match_loop fuel s d.
Proof.
  intros Hlen Hno fuel.
  assert (Htrim : trim_block (firstn (Z.to_nat maxstrlen) s) = []).
  { destruct (firstn (Z.to_nat maxstrlen) s) as [| x t] eqn:E;
      [reflexivity |].
    cbn [skipn] in Hno. destruct (is_lead x) eqn:Hx.
    - exact (trim_block_lead [] x t Hx Hno).
    - apply trim_block_no_lead. constructor; assumption. }
  cbn [encoder_match_loop].
  replace (maxstrlen <? zlen s) with true
    by (symmetry; apply Z.ltb_lt; exact Hlen).
  rewrite Htrim. cbn [encode_str is_nil negb bind List.length skipn].
  destruct fuel; cbn [encoder_match_loop];
    (replace (maxstrlen <? zlen s) with true
       by (symmetry; apply Z.ltb_lt; exact Hlen)); reflexivity.
Qed.

(** X25.  [encoder::match] on a sequence of more than 256 characters
    whose first 256 characters hold no lead byte behind the first one
    (which is not UTF-8): the block that is cut off is empty, a turn of
    the loop encodes nothing and leaves the sequence as it was, and so
    the loop never comes to an end - whatever the number of turns it is
    given, it is cut off. *)
Theorem match_of_malformed_sequence_never_ends s d :
  maxstrlen < zlen s ->
  Forall (fun x => is_lead x = false)
    (skipn 1 (firstn (Z.to_nat maxstrlen) s)) ->
  trim_block (firstn (Z.to_nat maxstrlen) s) = []
  /\ forall fuel,
       encoder_match_loop (S fuel) s d = encoder_match_loop fuel s d
       /\ encoder_match_loop fuel s d = Undef.
Proof.
  intros Hlen Hno. split.
  - destruct (firstn (Z.to_nat maxstrlen) s) as [| x t] eqn:E;
      [reflexivity |].
    cbn [skipn] in Hno. destruct (is_lead x) eqn:Hx.
    + exact (trim_block_lead [] x t Hx Hno).
    + apply trim_block_no_lead. constructor; assumption.
  - intros fuel. split; [exact (encoder_match_stuck s d Hlen Hno fuel) |].
    induction fuel as [| fuel IH].
    + cbn [encoder_match_loop].
      replace (maxstrlen <? zlen s) with true
        by (symmetry; apply Z.ltb_lt; exact Hlen).
      reflexivity.
    + rewrite (encoder_match_stuck s d Hlen Hno fuel). exact IH.
Qed.

Lemma match_of_malformed_sequence_never_ends_witness :
  trim_block (firstn (Z.to_nat maxstrlen) (repeat x80 257)) = []
  /\ forall fuel,
       encoder_match_loop (S fuel) (repeat x80 257)
         (new_encoder rule_encoder)
       = encoder_match_loop fuel (repeat x80 257) (new_encoder rule_encoder)
       /\ encoder_match_loop fuel (repeat x80 257)
            (new_encoder rule_encoder)
          = Undef.
Proof.
  apply match_of_malformed_sequence_never_ends.
  - vm_compute. reflexivity.
  - change (skipn 1 (firstn (Z.to_nat maxstrlen) (repeat x80 257)))
      with (repeat x80 255).
    apply Forall_forall. intros x Hx.
    apply repeat_spec in Hx. subst x. reflexivity.
Defined.

(** ** The end of the input *)

Lemma exec_match_any_hit prog d p r :
  0 <= ir r < zlen (input_ p) -> zlen (input_ p) <= size_max ->
  exec_match_any prog d p r
  = Ok (Running, p,
        set_subject r
          (wadd (ir r)
             (size_of_first_rune (skipn (Z.to_nat (ir r)) (input_ p))))
          (wadd (cr r) 1) (lr r)).
Proof.
  intros Hi Hmax. unfold exec_match_any, available.
  destruct (pending (sources_ p)); cbn [available_loop];
    rewrite wsub_small by lia;
    (replace (1 <=? zlen (input_ p) - ir r) with true
       by (symmetry; apply Z.leb_le; lia));
    cbn [bind negb]; unfold input_from;
    (replace (zlen (input_ p) <? ir r) with false
       by (symmetry; apply Z.ltb_ge; lia));
    reflexivity.
Qed.

(** X26.  The expression [eoi], compiled, linked and run: the parse of
    the empty input returns [true]; the parse of any other input returns
    [false] - [match_any] takes the first rune, [fail 1] then fails
    twice, through the backtrack frame of the lookahead and through the
    call of the start rule - and the input is kept. *)
Theorem eoi_accepts_only_the_empty_input U text n :
  zlen text <= size_max ->
  exists p r,
    lug_parse U (5 + n) text (grammar_of (start_expr eoi))
    = Returns (is_nil text) p r
    /\ input_ p = text.
Proof.
  intros Hmax.
  change (grammar_of (start_expr eoi)) with eoi_grammar.
  change (5 + n)%nat with (S (S (S (S (S n))))).
  destruct text as [| x t].
  - eexists. eexists. split; [vm_compute; reflexivity | reflexivity].
  - unfold lug_parse, parse.
    replace (parse_entry eoi_grammar (new_parser (x :: t)))
      with (Ok (set_parsing (new_parser (x :: t)) true,
                mk_registers 0 1 1 0 0 0))
      by (vm_compute; reflexivity).
    rewrite (run_step U eoi_grammar _ _ _
               (set_call_stack
                  (set_stack_frames (set_parsing (new_parser (x :: t)) true)
                     [frame_call]) [2])
               (mk_registers 0 1 1 0 3 0)) by (vm_compute; reflexivity).
    rewrite (run_step U eoi_grammar _ _ _ (eoi_parser (x :: t))
               (mk_registers 0 1 1 0 5 0)) by (vm_compute; reflexivity).
    assert (H3 : step U eoi_grammar (eoi_parser (x :: t))
                   (mk_registers 0 1 1 0 5 0)
                 = Ok (Running, eoi_parser (x :: t),
                       mk_registers (wadd 0 (size_of_first_rune (x :: t)))
                         (wadd 1 1) 1 0 6 0)).
    { rewrite (step_decoded U eoi_grammar _ _ (mk_decoded 1 0 0 0 [] 6))
        by reflexivity.
      change (exec_match_any eoi_grammar (mk_decoded 1 0 0 0 [] 6)
                (eoi_parser (x :: t)) (mk_registers 0 1 1 0 6 0)
              = Ok (Running, eoi_parser (x :: t),
                    mk_registers (wadd 0 (size_of_first_rune (x :: t)))
                      (wadd 1 1) 1 0 6 0)).
      rewrite exec_match_any_hit.
      - reflexivity.
      - cbn [ir input_ eoi_parser]. rewrite zlen_cons.
        pose proof (zlen_nonneg t). lia.
      - exact Hmax. }
    rewrite (run_step _ _ _ _ _ _ _ H3).
    generalize (wadd 0 (size_of_first_rune (x :: t))). intros i.
    assert (H4 : exists p r,
               step U eoi_grammar (eoi_parser (x :: t))
                 (mk_registers i (wadd 1 1) 1 0 6 0)
               = Ok (Done false, p, r)
               /\ input_ p = x :: t).
    { rewrite (step_decoded U eoi_grammar _ _ (mk_decoded 9 0 1 0 [] 7))
        by reflexivity.
      change (exists p r,
                goto_failure eoi_grammar (eoi_parser (x :: t))
                  (mk_registers i (wadd 1 1) 1 0 7 1)
                = Ok (Done false, p, r)
                /\ input_ p = x :: t).
      unfold goto_failure, failure.
      cbn [max_input_ eoi_parser ir cr lr s_ir].
      destruct (0 <? i);
        eexists; eexists; (split; [vm_compute; reflexivity | reflexivity]). }
    destruct H4 as (p & r & H4 & Hin).
    exists (set_parsing p false), r. split.
    + apply run_done. exact H4.
    + destruct p. exact Hin.
Qed.

Lemma eoi_accepts_only_the_empty_input_witness :
  exists p r,
    lug_parse sample_unicode (5 + 0) (lit "a") (grammar_of (start_expr eoi))
    = Returns (is_nil (lit "a")) p r
    /\ input_ p = lit "a".
Proof.
  apply (eoi_accepts_only_the_empty_input sample_unicode (lit "a") 0%nat).
  vm_compute. discriminate.
Defined.

(** ** The flags of empty matches *)

Lemma clears_top_refl d : clears_top d d.
Proof. intros z0 rest H. exists z0. auto. Qed.

Lemma clears_top_trans d1 d2 d3 :
  clears_top d1 d2 -> clears_top d2 d3 -> clears_top d1 d3.
Proof.
  intros H12 H23 z0 rest H. destruct (H12 _ _ H) as (z1 & H1 & I1).
  destruct (H23 _ _ H1) as (z2 & H2 & I2). exists z2. auto.
Qed.

Lemma same_flags_clears d d' :
  zero_length_ d' = zero_length_ d -> clears_top d d'.
Proof. intros E z0 rest H. exists z0. rewrite E. auto. Qed.

Lemma do_append_flags d i d' :
  do_append d i = Ok d' -> zero_length_ d' = zero_length_ d.
Proof.
  unfold do_append. destruct (kind d); intros H.
  - apply bind_ok in H. destruct H as (n & _ & H). inversion H. reflexivity.
  - inversion H. reflexivity.
  - inversion H. reflexivity.
  - inversion H. reflexivity.
Qed.

Lemma do_append_program_flags d q d' :
  do_append_program d q = Ok d' -> zero_length_ d' = zero_length_ d.
Proof.
  unfold do_append_program. destruct (kind d); intros H; try discriminate;
    apply bind_ok in H; destruct H as (n & _ & H); inversion H; reflexivity.
Qed.

Lemma encode_flags op alt imm d d' :
  encode op alt imm d = Ok d' -> zero_length_ d' = zero_length_ d.
Proof. apply do_append_flags. Qed.

Lemma encode_off_flags op alt off imm d d' :
  encode_off op alt off imm d = Ok d' -> zero_length_ d' = zero_length_ d.
Proof.
  unfold encode_off. intros H.
  apply bind_ok in H. destruct H as (d0 & H0 & H).
  apply bind_ok in H. destruct H as (w & _ & H).
  apply do_append_flags in H0, H. congruence.
Qed.

Lemma append_string_words_flags fuel :
  forall s d d',
    append_string_words fuel s d = Ok d' ->
    zero_length_ d' = zero_length_ d.
Proof.
  induction fuel as [| fuel IH]; intros s d d' H; [discriminate |].
  cbn [append_string_words] in H.
  apply bind_ok in H. destruct H as (d0 & H0 & H).
  apply do_append_flags in H0.
  destruct (skipn 4 s).
  - inversion H; subst. exact H0.
  - apply IH in H. congruence.
Qed.

Lemma encode_str_flags op val s d d' :
  encode_str op val s d = Ok d' -> zero_length_ d' = zero_length_ d.
Proof.
  unfold encode_str. destruct (negb (is_nil s)); intros H.
  - apply bind_ok in H. destruct H as (u1 & _ & H).
    apply bind_ok in H. destruct H as (u2 & _ & H).
    apply bind_ok in H. destruct H as (d0 & H0 & H).
    apply do_append_flags in H0. apply append_string_words_flags in H.
    congruence.
  - inversion H. reflexivity.
Qed.

Lemma do_add_semantic_predicate_flags d f imm d' :
  do_add_semantic_predicate d f = Ok (imm, d') ->
  zero_length_ d' = zero_length_ d.
Proof.
  unfold do_add_semantic_predicate. destruct (has_tables d); intros H.
  - apply bind_ok in H. destruct H as (u & _ & H). inversion H. reflexivity.
  - inversion H. reflexivity.
Qed.

Lemma do_add_semantic_action_flags d f imm d' :
  do_add_semantic_action d f = Ok (imm, d') ->
  zero_length_ d' = zero_length_ d.
Proof.
  unfold do_add_semantic_action. destruct (has_tables d); intros H.
  - apply bind_ok in H. destruct H as (u & _ & H). inversion H. reflexivity.
  - inversion H. reflexivity.
Qed.

Lemma do_add_semantic_capture_action_flags d f imm d' :
  do_add_semantic_capture_action d f = Ok (imm, d') ->
  zero_length_ d' = zero_length_ d.
Proof.
  unfold do_add_semantic_capture_action. destruct (has_tables d); intros H.
  - apply bind_ok in H. destruct H as (u & _ & H). inversion H. reflexivity.
  - inversion H. reflexivity.
Qed.

Lemma zclr_clears c d d' : zclr c d = Ok d' -> clears_top d d'.
Proof.
  unfold zclr. destruct c.
  - destruct (zero_length_ d) as [| z t] eqn:E; intros H; inversion H.
    intros z0 rest Hz. rewrite E in Hz. inversion Hz; subst. exists false.
    split; [reflexivity | discriminate].
  - intros H; inversion H. apply clears_top_refl.
Qed.

Lemma zpsh_1_flags d d' z0 rest :
  zpsh 1 d = Ok d' -> zero_length_ d = z0 :: rest ->
  zero_length_ d' = z0 :: z0 :: rest.
Proof.
  unfold zpsh. intros H E. rewrite E in H. cbn in H. inversion H.
  cbn. rewrite ?E. reflexivity.
Qed.

Lemma zpsh_2_flags d d' z1 z0 rest :
  zpsh 2 d = Ok d' -> zero_length_ d = z1 :: z0 :: rest ->
  zero_length_ d' = z0 :: z1 :: z0 :: rest.
Proof.
  unfold zpsh. intros H E. rewrite E in H. cbn in H. inversion H.
  cbn. rewrite ?E. reflexivity.
Qed.

Lemma zpop_flags d d' z t :
  zpop d = Ok d' -> zero_length_ d = z :: t -> zero_length_ d' = t.
Proof.
  unfold zpop. intros H E. rewrite E in H. inversion H. reflexivity.
Qed.

Lemma zand_2_flags d d' z2 z1 z0 rest :
  zand 2 d = Ok d' -> zero_length_ d = z2 :: z1 :: z0 :: rest ->
  zero_length_ d' = (z2 && z1) :: rest.
Proof.
  unfold zand. intros H E. rewrite E in H. cbn in H. inversion H.
  cbn. rewrite Bool.andb_true_r. reflexivity.
Qed.

Lemma add_callee_clears target e n d d' :
  add_callee target e n d = Ok d' -> clears_top d d'.
Proof.
  unfold add_callee.
  destruct (zero_length_ d) as [| lm t] eqn:E; intros H; inversion H.
  intros z0 rest Hz. rewrite E in Hz. inversion Hz; subst.
  exists (z0 && e). split.
  - unfold do_add_callee. cbn. destruct (kind d); reflexivity.
  - intros Hze. apply andb_prop in Hze. tauto.
Qed.

Ltac flag_fact A :=
  lazymatch type of A with
  | zclr _ _ = Ok _ => apply zclr_clears in A
  | add_callee _ _ _ _ = Ok _ => apply add_callee_clears in A
  | encode_off _ _ _ _ _ = Ok _ =>
      apply encode_off_flags, same_flags_clears in A
  | encode _ _ _ _ = Ok _ => apply encode_flags, same_flags_clears in A
  | encode_str _ _ _ _ = Ok _ =>
      apply encode_str_flags, same_flags_clears in A
  | do_append_program _ _ = Ok _ =>
      apply do_append_program_flags, same_flags_clears in A
  | do_add_semantic_predicate _ _ = Ok _ =>
      apply do_add_semantic_predicate_flags, same_flags_clears in A
  | do_add_semantic_action _ _ = Ok _ =>
      apply do_add_semantic_action_flags, same_flags_clears in A
  | do_add_semantic_capture_action _ _ = Ok _ =>
      apply do_add_semantic_capture_action_flags, same_flags_clears in A
  | _ =>
      try match goal with
          | L : context [clears_top] |- _ =>
              apply L in A;
              lazymatch type of A with clears_top _ _ => idtac end
          end
  end.

Ltac flag_step H :=
  lazymatch type of H with
  | bind _ _ = Ok _ =>
      let a := fresh "a" in
      let A := fresh "A" in
      apply bind_ok in H; destruct H as (a & A & H);
      split_pair a; flag_fact A
  end.

Ltac flag_chain :=
  repeat first
    [ eassumption
    | apply clears_top_refl
    | eapply clears_top_trans; [eassumption |] ].

Ltac flags_tac H := repeat flag_step H; flag_fact H; flag_chain.

Lemma encoder_match_loop_clears fuel :
  forall s d d', encoder_match_loop fuel s d = Ok d' -> clears_top d d'.
Proof.
  induction fuel as [| fuel IH]; intros s d d' H;
    cbn [encoder_match_loop] in H.
  - destruct (maxstrlen <? zlen s); [discriminate |]. flags_tac H.
  - destruct (maxstrlen <? zlen s); flags_tac H.
Qed.

Lemma encoder_match_clears s :
  forall d d', encoder_match s d = Ok d' -> clears_top d d'.
Proof. intros d d'. apply encoder_match_loop_clears. Qed.

Lemma encoder_match_range_clears a b :
  forall d d', encoder_match_range a b d = Ok d' -> clears_top d d'.
Proof.
  intros d d'. unfold encoder_match_range. destruct (bytes_eqb a b).
  - apply encoder_match_clears.
  - intros H. flags_tac H.
Qed.

Lemma eol_code_clears :
  forall d d', eol_code d = Ok d' -> clears_top d d'.
Proof.
  pose proof encoder_match_clears as L.
  intros d d' H. unfold eol_code in H.
  repeat (flag_step H;
          try match goal with
              | A : encoder_match _ _ = Ok _ |- _ => apply L in A
              end).
  flag_fact H. flag_chain.
Qed.

Lemma encoder_call_clears rules self target prec_ inl :
  forall d d',
    encoder_call rules self target prec_ inl d = Ok d' -> clears_top d d'.
Proof.
  intros d d' H. unfold encoder_call in H.
  apply bind_ok in H. destruct H as (r & _ & H).
  match type of H with (if ?c then _ else _) = _ => destruct c end;
    flags_tac H.
Qed.

Lemma lookahead_flags d0 d1 d2 d3 d4 z0 rest :
  zero_length_ d0 = z0 :: rest ->
  zero_length_ d1 = zero_length_ d0 ->
  zpsh 1 d1 = Ok d2 ->
  clears_top d2 d3 ->
  zpop d3 = Ok d4 ->
  zero_length_ d4 = z0 :: rest.
Proof.
  intros E0 E1 H2 H3 H4.
  rewrite E0 in E1.
  pose proof (zpsh_1_flags _ _ _ _ H2 E1) as E2.
  destruct (H3 _ _ E2) as (z & E3 & _).
  exact (zpop_flags _ _ _ _ H4 E3).
Qed.

Lemma evaluate_clears rules self e :
  forall d d', evaluate rules self e d = Ok d' -> clears_top d d'.
Proof.
  pose proof encoder_match_clears as L1.
  pose proof encoder_match_range_clears as L2.
  pose proof eol_code_clears as L3.
  pose proof (encoder_call_clears rules self) as L4.
  induction e; intros d d' H; cbn [evaluate] in H;
    try (flags_tac H; fail).
  - (* !e *)
    step_as H n Hn. step_as H d1 H1. step_as H d2 H2. step_as H d3 H3.
    step_as H d4 H4.
    apply encode_off_flags in H1. apply IHe in H3. apply encode_flags in H.
    intros z0 rest E0. exists z0. split; [| auto]. rewrite H.
    exact (lookahead_flags d d1 d2 d3 d4 z0 rest E0 H1 H2 H3 H4).
  - (* &e *)
    step_as H n Hn. step_as H d1 H1. step_as H d2 H2. step_as H d3 H3.
    step_as H d4 H4. step_as H d5 H5.
    apply encode_off_flags in H1, H5. apply IHe in H3.
    apply encode_flags in H.
    intros z0 rest E0. exists z0. split; [| auto]. rewrite H, H5.
    exact (lookahead_flags d d1 d2 d3 d4 z0 rest E0 H1 H2 H3 H4).
  - (* *e *)
    step_as H n Hn. step_as H d1 H1. step_as H d2 H2. step_as H d3 H3.
    step_as H d4 H4.
    apply encode_off_flags in H1, H. apply IHe in H3.
    intros z0 rest E0. exists z0. split; [| auto]. rewrite H.
    exact (lookahead_flags d d1 d2 d3 d4 z0 rest E0 H1 H2 H3 H4).
  - (* e1 | e2 *)
    step_as H n1 Hn1. step_as H d1 H1. step_as H d2 H2. step_as H d3 H3.
    step_as H n2 Hn2. step_as H d4 H4. step_as H d5 H5. step_as H d6 H6.
    apply encode_off_flags in H1, H4. apply IHe1 in H3. apply IHe2 in H6.
    intros z0 rest E0.
    rewrite E0 in H1.
    pose proof (zpsh_1_flags _ _ _ _ H2 H1) as E2.
    destruct (H3 _ _ E2) as (z1 & E3 & I1).
    rewrite E3 in H4.
    pose proof (zpsh_2_flags _ _ _ _ _ H5 H4) as E5.
    destruct (H6 _ _ E5) as (z2 & E6 & I2).
    pose proof (zand_2_flags _ _ _ _ _ _ H E6) as E7.
    exists (z2 && z1). split; [exact E7 |].
    intros Hz; apply andb_prop in Hz. tauto.
Qed.

(** X27.  The flags of empty matches are kept like a stack: evaluating
    an expression on an encoder changes no flag of [zero_length_] but
    the one on top, leaves the number of flags as it was, and never sets
    the flag on top - an expression can only make what is being encoded
    not match the empty string. *)
Theorem evaluate_touches_only_the_top_flag rules self e d d' z0 rest :
  evaluate rules self e d = Ok d' ->
  zero_length_ d = z0 :: rest ->
  exists z, zero_length_ d' = z :: rest /\ (z = true -> z0 = true).
Proof.
  intros H E.
  destruct (evaluate_clears rules self e d d' H z0 rest E) as (z & Hz & Hi).
  exists z. split; assumption.
Qed.

Lemma evaluate_touches_only_the_top_flag_witness :
  exists d',
    evaluate [] None (e_seq (e_star (chr "a")) (e_alt (chr "b") eps))
      (new_encoder rule_encoder) = Ok d'
    /\ exists z, zero_length_ d' = z :: [] /\ (z = true -> true = true).
Proof.
  eexists. split; [vm_compute; reflexivity |].
  apply (evaluate_touches_only_the_top_flag [] None
           (e_seq (e_star (chr "a")) (e_alt (chr "b") eps))
           (new_encoder rule_encoder)).
  - vm_compute. reflexivity.
  - reflexivity.
Defined.

Lemma optional_chr_encoded c :
  is_lead c = true ->
  make_rule [] None (e_opt (chr c)) = Ok (optional_chr_rule c).
Proof.
  intros Hc. unfold make_rule, e_opt. cbn [evaluate].
  unfold encoder_match. cbn [encoder_match_loop List.length].
  unfold count_runes. cbn [fold_left]. rewrite Hc.
  vm_compute. reflexivity.
Qed.

(** X28.  The optional [~chr(c)] is not taken to match the empty
    string: the flag that the encoder keeps for [e1 | e2] is the
    conjunction of the flags of both alternatives, so the rule made from
    [chr(c) | eps] and the grammar linked from it have [matches_eps] =
    [false] - although the parse of the empty input with that grammar
    returns [true]. *)
Theorem optional_character_is_not_flagged_empty U c n :
  is_lead c = true ->
  exists r g,
    make_rule [] None (e_opt (chr c)) = Ok r
    /\ matches_eps (program_ r) = false
    /\ start [r] 0 = Ok g
    /\ matches_eps g = false
    /\ exists p q, lug_parse U (6 + n) [] g = Returns true p q.
Proof.
  intros Hc. exists (optional_chr_rule c), (optional_chr c).
  split; [exact (optional_chr_encoded c Hc) |].
  split; [reflexivity |].
  split; [vm_compute; reflexivity |].
  split; [reflexivity |].
  eexists. eexists. vm_compute. reflexivity.
Qed.

Lemma optional_character_is_not_flagged_empty_witness :
  exists r g,
    make_rule [] None (e_opt (chr "a")) = Ok r
    /\ matches_eps (program_ r) = false
    /\ start [r] 0 = Ok g
    /\ matches_eps g = false
    /\ exists p q, lug_parse sample_unicode (6 + 0) [] g = Returns true p q.
Proof.
  apply (optional_character_is_not_flagged_empty sample_unicode "a"%byte
           0%nat).
  reflexivity.
Defined.

(** ** Character ranges *)

Lemma traits_compare_one x y :
  traits_compare [x] [y] = Z.compare (byte_val x) (byte_val y).
Proof.
  cbn [traits_compare]. destruct (byte_val x ?= byte_val y); reflexivity.
Qed.

Lemma substr_at pre (x : byte) rest n :
  substr (pre ++ x :: rest) (zlen pre) n = firstn (Z.to_nat n) (x :: rest).
Proof.
  unfold substr, zlen. rewrite Nat2Z.id, skipn_length_app. reflexivity.
Qed.

(** X29.  The [match_range] instruction on one-character bounds, as
    [chr(lo, hi)] is encoded, at a rune of one character: the rune is
    taken, with [ir] and [cr] moved by one, exactly when its character
    lies between the bounds as an unsigned value; otherwise the
    instruction goes to the failure handler. *)
Theorem match_range_compares_unsigned prog d p r lo hi pre x rest :
  d_str d = [lo; hi] -> d_imm d = 1 ->
  input_ p = pre ++ x :: rest -> ir r = zlen pre ->
  find_lead rest = 0%nat ->
  zlen (input_ p) <= size_max ->
  exec_match_range prog d p r
  = if (byte_val lo <=? byte_val x) && (byte_val x <=? byte_val hi)
    then Ok (Running, p,
             set_subject r (ir r + 1) (wadd (cr r) 1) (lr r))
    else goto_failure prog p r.
Proof.
  intros Hstr Himm Hin Hir Hrune Hmax.
  pose proof (zlen_nonneg pre) as Hp. pose proof (zlen_nonneg rest) as Hr.
  assert (Hlen : zlen (input_ p) = zlen pre + 1 + zlen rest)
    by (rewrite Hin, zlen_app, zlen_cons; lia).
  unfold exec_match_range. rewrite Hstr, Himm.
  change (zlen [lo; hi] <? 1) with false.
  change (firstn (Z.to_nat 1) [lo; hi]) with [lo].
  change (skipn (Z.to_nat 1) [lo; hi]) with [hi].
  change (Z.min (zlen [lo]) (zlen [hi])) with 1.
  cbv iota.
  assert (Hav : available 1 (ir r) p = Ok (true, p)).
  { unfold available.
    destruct (pending (sources_ p)); cbn [available_loop];
      rewrite wsub_small by lia;
      (replace (1 <=? zlen (input_ p) - ir r) with true
         by (symmetry; apply Z.leb_le; lia)); reflexivity. }
  rewrite Hav. cbn [bind negb]. unfold input_from.
  replace (zlen (input_ p) <? ir r) with false
    by (symmetry; apply Z.ltb_ge; lia).
  cbn [bind].
  assert (Hskip : skipn (Z.to_nat (ir r)) (input_ p) = x :: rest).
  { rewrite Hir, Hin. unfold zlen. rewrite Nat2Z.id.
    apply skipn_length_app. }
  rewrite Hskip. unfold size_of_first_rune. rewrite Hrune.
  change (Z.of_nat 1) with 1.
  assert (Hsub : substr (input_ p) (ir r) 1 = [x]).
  { rewrite Hir, Hin, substr_at. reflexivity. }
  unfold string_compare.
  replace (zlen (input_ p) <? ir r) with false
    by (symmetry; apply Z.ltb_ge; lia).
  cbn [bind]. rewrite Hsub, !traits_compare_one.
  unfold wadd at 1, wrap.
  rewrite (Z.mod_small (ir r + 1)) by (unfold size_max in Hmax; lia).
  destruct (Z.compare_spec (byte_val x) (byte_val lo)) as [E1 | E1 | E1];
    destruct (Z.compare_spec (byte_val x) (byte_val hi)) as [E2 | E2 | E2];
    cbn [is_lt is_gt];
    repeat match goal with
      | |- context [?a <=? ?b] =>
          first [ replace (a <=? b) with true
                    by (symmetry; apply Z.leb_le; lia)
                | replace (a <=? b) with false
                    by (symmetry; apply Z.leb_gt; lia) ]
      end;
    cbn [andb]; reflexivity.
Qed.

Lemma match_range_compares_unsigned_witness :
  exec_match_range empty_program (mk_decoded 3 0 1 0 (lit "az") 2)
    (new_parser (lit "xq")) (mk_registers 1 2 1 0 2 0)
  = if (byte_val "a" <=? byte_val "q") && (byte_val "q" <=? byte_val "z")
    then Ok (Running, new_parser (lit "xq"),
             set_subject (mk_registers 1 2 1 0 2 0) (1 + 1) (wadd 2 1) 1)
    else goto_failure empty_program (new_parser (lit "xq"))
           (mk_registers 1 2 1 0 2 0).
Proof.
  apply (match_range_compares_unsigned empty_program
           (mk_decoded 3 0 1 0 (lit "az") 2) (new_parser (lit "xq"))
           (mk_registers 1 2 1 0 2 0) "a"%byte "z"%byte (lit "x") "q"%byte
           []).
  - reflexivity.
  - reflexivity.
  - reflexivity.
  - reflexivity.
  - reflexivity.
  - vm_compute. discriminate.
Defined.

(** ** Actions and backtracking *)

Lemma actions_linked a b f1 f2 :
  is_lead a = true -> is_lead b = true ->
  start_expr (e_alt (e_seq (e_action (chr a) f1) (chr b))
                (e_action (chr a) f2))
  = Ok (actions_grammar a b f1 f2).
Proof.
  intros Ha Hb. unfold start_expr, make_rule. cbn [evaluate].
  unfold encoder_match. cbn [encoder_match_loop List.length].
  unfold count_runes. cbn [fold_left]. rewrite Ha, Hb.
  vm_compute. reflexivity.
Qed.

(** X30.  The action of an alternative that fails is not called: for
    [(chr(a) < f1) > chr(b) | (chr(a) < f2)] on an input that starts
    with [a] not followed by [b], the first alternative matches [a] and
    logs [f1], fails at [b], and the failure cuts the response log back;
    the second alternative matches [a] and logs [f2].  The parse returns
    [true], and what the final accept leaves is the cleared result of
    [f2] alone, called once at call depth 1 with the whole input as its
    match. *)
Theorem action_of_failed_alternative_is_not_called U a b f1 f2 rest n :
  is_lead a = true -> is_lead b = true ->
  hd_error rest <> Some b ->
  zlen (a :: rest) <= size_max ->
  exists p r,
    lug_parse U (9 + n) (a :: rest)
      (grammar_of
         (start_expr (e_alt (e_seq (e_action (chr a) f1) (chr b))
                        (e_action (chr a) f2))))
    = Returns true p r
    /\ semantics_ p
       = clear (f2 (mk_semantics (a :: rest) ushort_max 1
                      [mk_response 1 1 uint_max] [] []))
    /\ input_ p = rest.
Proof.
  intros Ha Hb Hrest Hmax. rewrite (actions_linked a b f1 f2 Ha Hb).
  cbn [grammar_of]. set (g := actions_grammar a b f1 f2).
  change (9 + n)%nat with (S (S (S (S (S (S (S (S (S n))))))))).
  unfold lug_parse, parse.
  replace (parse_entry g (new_parser (a :: rest)))
    with (Ok (set_parsing (new_parser (a :: rest)) true,
              mk_registers 0 1 1 0 0 0))
    by (vm_compute; reflexivity).
  pose proof (zlen_nonneg rest) as Hr0.
  assert (Hlen : zlen (a :: rest) = 1 + zlen rest) by apply zlen_cons.
  (* call, choice *)
  erewrite run_step by (vm_compute; reflexivity).
  erewrite run_step by (vm_compute; reflexivity).
  (* match a *)
  match goal with
  | |- context [run U g (S ?k) ?P ?R] =>
      assert (H3 : step U g P R
                   = Ok (Running, P,
                         mk_registers (0 + 1) (wadd 1 1) 1 0 7 0))
  end.
  { rewrite (step_decoded U g _ _ (mk_decoded 0 0 1 0 [a] 7))
      by reflexivity.
    match goal with
    | |- exec _ _ ?d ?P _ = ?rhs =>
        change (exec_match g d P (mk_registers 0 1 1 0 7 0) = rhs)
    end.
    apply exec_match_hit.
    - discriminate.
    - cbn [ir input_]. lia.
    - cbn [input_]. exact Hmax.
    - reflexivity. }
  rewrite (run_step _ _ _ _ _ _ _ H3). clear H3.
  (* action f1 *)
  erewrite run_step by (vm_compute; reflexivity).
  (* match b fails, the failure backtracks *)
  match goal with
  | |- context [run U g (S ?k) ?P ?R] =>
      assert (H5 : exists P',
                 step U g P R
                 = Ok (Running, P', mk_registers 0 1 1 0 12 0)
                 /\ P' = mk_parser (a :: rest) (mk_registers 0 1 1 0 0 0)
                           (mk_subject 1 2 1) true false false 0 []
                           [frame_call] [] [2] [] [] new_semantics)
  end.
  { rewrite (step_decoded U g _ _ (mk_decoded 0 0 1 0 [b] 10))
      by reflexivity.
    match goal with
    | |- exists P', exec _ _ ?d ?P _ = _ /\ _ =>
        assert (E : exec U g d P (set_pc (mk_registers 1 2 1 1 8 0) 10)
                    = goto_failure g P (mk_registers 1 2 1 1 10 0))
    end.
    { match goal with
      | |- exec _ _ ?d ?P _ = ?rhs =>
          change (exec_match g d P (mk_registers 1 2 1 1 10 0) = rhs)
      end.
      apply exec_match_miss.
      - discriminate.
      - reflexivity.
      - reflexivity.
      - cbn [ir input_]. lia.
      - cbn [input_]. exact Hmax.
      - apply substr_not_one; [cbn [ir]; lia |].
        change (Z.to_nat (ir (mk_registers 1 2 1 1 10 0))) with 1%nat.
        cbn [input_ nth_error]. destruct rest; exact Hrest. }
    eexists. split; [| reflexivity].
    etransitivity; [exact E |]. vm_compute. reflexivity. }
  destruct H5 as (P' & H5 & ->).
  rewrite (run_step _ _ _ _ _ _ _ H5). clear H5.
  (* match a again *)
  match goal with
  | |- context [run U g (S ?k) ?P ?R] =>
      assert (H6 : step U g P R
                   = Ok (Running, P,
                         mk_registers (0 + 1) (wadd 1 1) 1 0 14 0))
  end.
  { rewrite (step_decoded U g _ _ (mk_decoded 0 0 1 0 [a] 14))
      by reflexivity.
    match goal with
    | |- exec _ _ ?d ?P _ = ?rhs =>
        change (exec_match g d P (mk_registers 0 1 1 0 14 0) = rhs)
    end.
    apply exec_match_hit.
    - discriminate.
    - cbn [ir input_]. lia.
    - cbn [input_]. exact Hmax.
    - reflexivity. }
  rewrite (run_step _ _ _ _ _ _ _ H6). clear H6.
  (* action f2, ret, accept *)
  erewrite run_step by (vm_compute; reflexivity).
  erewrite run_step by (vm_compute; reflexivity).
  eexists. eexists. split; [| split].
  - apply run_done. vm_compute. reflexivity.
  - reflexivity.
  - reflexivity.
Qed.

Lemma action_of_failed_alternative_is_not_called_witness :
  exists p r,
    lug_parse sample_unicode (9 + 0) ("a"%byte :: lit "c")
      (grammar_of
         (start_expr (e_alt (e_seq (e_action (chr "a") escape) (chr "b"))
                        (e_action (chr "a") clear))))
    = Returns true p r
    /\ semantics_ p
       = clear (clear (mk_semantics ("a"%byte :: lit "c") ushort_max 1
                         [mk_response 1 1 uint_max] [] []))
    /\ input_ p = lit "c".
Proof.
  apply (action_of_failed_alternative_is_not_called sample_unicode
           "a"%byte "b"%byte escape clear (lit "c") 0%nat).
  - reflexivity.
  - reflexivity.
  - discriminate.
  - vm_compute. discriminate.
Defined.
